(** * slog-logfilter: the rule-evaluation engine, embedded and verified

    A shallow embedding of [filter.go], [context.go] and [handler.go]:
    the pattern matcher, level parsing, the filter predicates, the
    handler's filter store with its cached values, record evaluation and
    the call-site path formatting.

    Go strings are byte strings ([string]); [slog.Level] is [Z]; a
    [time.Time] is the instant it denotes, counted in nanoseconds from the
    zero time; maps are [gmap]; slices are headers into a store of backing
    arrays, so that two handlers may share one array. *)

From Stdlib Require Import ZArith String Ascii List Bool Lia.
From stdpp Require Import base option list gmap strings.

Set Default Proof Using "Type".

(** ** Go's [unicode/utf8] and [unicode], as far as [strings] calls them *)

Module Utf8.
Local Open Scope Z_scope.

(** A byte of a string, as a number. *)
Definition byte (c : ascii) : Z := Z.of_nat (nat_of_ascii c).

(** Go's conversion [byte(x)]: the low eight bits. *)
Definition to_byte (x : Z) : ascii := ascii_of_nat (Z.to_nat (x mod 256)).

Definition RuneError : Z := 0xFFFD.
Definition RuneSelf : Z := 0x80.
Definition MaxRune : Z := 0x10FFFF.
Definition UTFMax : Z := 4.

(** The tables [first] and [acceptRanges]: for a leading byte above 0x7F,
    the length of the sequence it opens and the range its second byte has
    to lie in; [None] for a byte that opens no sequence. *)
Definition first (s0 : Z) : option (nat * Z * Z) :=
  if s0 <? 0xC2 then None
  else if s0 <=? 0xDF then Some (2%nat, 0x80, 0xBF)
  else if s0 =? 0xE0 then Some (3%nat, 0xA0, 0xBF)
  else if s0 <=? 0xEC then Some (3%nat, 0x80, 0xBF)
  else if s0 =? 0xED then Some (3%nat, 0x80, 0x9F)
  else if s0 <=? 0xEF then Some (3%nat, 0x80, 0xBF)
  else if s0 =? 0xF0 then Some (4%nat, 0x90, 0xBF)
  else if s0 <=? 0xF3 then Some (4%nat, 0x80, 0xBF)
  else if s0 =? 0xF4 then Some (4%nat, 0x80, 0x8F)
  else None.

(** [locb <= b && b <= hicb] *)
Definition continuation (b : Z) : bool := (0x80 <=? b) && (b <=? 0xBF).

(** [DecodeRuneInString]: the first rune of [s] and its width in bytes;
    [(RuneError, 0)] for the empty string and [(RuneError, 1)] for an
    encoding that is invalid, too short, over-long or out of range. *)
Definition DecodeRuneInString (s : string) : Z * nat :=
  match s with
  | EmptyString => (RuneError, 0%nat)
  | String c0 t0 =>
    let s0 := byte c0 in
    if s0 <? RuneSelf then (s0, 1%nat)
    else
      match first s0 with
      | None => (RuneError, 1%nat)
      | Some (sz, lo, hi) =>
        match t0 with
        | EmptyString => (RuneError, 1%nat)
        | String c1 t1 =>
          let s1 := byte c1 in
          if (s1 <? lo) || (hi <? s1) then (RuneError, 1%nat)
          else if (sz <=? 2)%nat then
            (Z.lor (Z.shiftl (Z.land s0 0x1F) 6) (Z.land s1 0x3F), 2%nat)
          else
            match t1 with
            | EmptyString => (RuneError, 1%nat)
            | String c2 t2 =>
              let s2 := byte c2 in
              if negb (continuation s2) then (RuneError, 1%nat)
              else if (sz <=? 3)%nat then
                (Z.lor (Z.lor (Z.shiftl (Z.land s0 0x0F) 12)
                              (Z.shiftl (Z.land s1 0x3F) 6))
                       (Z.land s2 0x3F), 3%nat)
              else
                match t2 with
                | EmptyString => (RuneError, 1%nat)
                | String c3 t3 =>
                  let s3 := byte c3 in
                  if negb (continuation s3) then (RuneError, 1%nat)
                  else
                    (Z.lor (Z.lor (Z.lor (Z.shiftl (Z.land s0 0x07) 18)
                                         (Z.shiftl (Z.land s1 0x3F) 12))
                                  (Z.shiftl (Z.land s2 0x3F) 6))
                           (Z.land s3 0x3F), 4%nat)
                end
            end
        end
      end
  end.

(** [RuneStart]: the byte is not a continuation byte. *)
Definition RuneStart (b : Z) : bool := negb (Z.land b 0xC0 =? 0x80).

(** [s[i]] *)
Definition at_ (s : string) (i : Z) : Z :=
  match String.get (Z.to_nat i) s with
  | Some c => byte c
  | None => 0
  end.

(** The loop [for start--; start >= lim; start--] of
    [DecodeLastRuneInString], entered at [start] with [n] turns left to
    reach [lim]. *)
Fixpoint backUp (s : string) (n : nat) (start : Z) : Z :=
  match n with
  | O => start
  | S n' => if RuneStart (at_ s start) then start else backUp s n' (start - 1)
  end.

(** [DecodeLastRuneInString]: the last rune of [s] and its width. *)
Definition DecodeLastRuneInString (s : string) : Z * nat :=
  let end_ := Z.of_nat (String.length s) in
  if end_ =? 0 then (RuneError, 0%nat)
  else
    let start := end_ - 1 in
    let r := at_ s start in
    if r <? RuneSelf then (r, 1%nat)
    else
      let lim := Z.max 0 (end_ - UTFMax) in
      let start := backUp s (Z.to_nat (start - lim)) (start - 1) in
      let start := Z.max 0 start in
      let '(r, size) :=
        DecodeRuneInString
          (String.substring (Z.to_nat start) (Z.to_nat (end_ - start)) s) in
      if negb (start + Z.of_nat size =? end_) then (RuneError, 1%nat)
      else (r, size).

(** [AppendRune] to the empty string: the UTF-8 encoding of [r], that of
    [RuneError] for a surrogate or a value out of range. *)
Definition EncodeRune (r : Z) : string :=
  if (0 <=? r) && (r <=? 0x7F) then String (to_byte r) EmptyString
  else if (0 <=? r) && (r <=? 0x7FF) then
    String (to_byte (Z.lor 0xC0 (Z.shiftr r 6)))
      (String (to_byte (Z.lor 0x80 (Z.land r 0x3F))) EmptyString)
  else
    let r := if (r <? 0) || (MaxRune <? r) || ((0xD800 <=? r) && (r <=? 0xDFFF))
             then RuneError else r in
    if r <=? 0xFFFF then
      String (to_byte (Z.lor 0xE0 (Z.shiftr r 12)))
        (String (to_byte (Z.lor 0x80 (Z.land (Z.shiftr r 6) 0x3F)))
           (String (to_byte (Z.lor 0x80 (Z.land r 0x3F))) EmptyString))
    else
      String (to_byte (Z.lor 0xF0 (Z.shiftr r 18)))
        (String (to_byte (Z.lor 0x80 (Z.land (Z.shiftr r 12) 0x3F)))
           (String (to_byte (Z.lor 0x80 (Z.land (Z.shiftr r 6) 0x3F)))
              (String (to_byte (Z.lor 0x80 (Z.land r 0x3F))) EmptyString))).

End Utf8.

Module Unicode.
Local Open Scope Z_scope.

(** [unicode.IsSpace]: in Latin-1 the six ASCII spaces, U+0085 and
    U+00A0; above it the table [White_Space]. *)
Definition IsSpace (r : Z) : bool :=
  if (0 <=? r) && (r <=? 0xFF) then
    ((0x09 <=? r) && (r <=? 0x0D)) || (r =? 0x20) || (r =? 0x85) || (r =? 0xA0)
  else
    (r =? 0x1680) || ((0x2000 <=? r) && (r <=? 0x200A))
    || ((0x2028 <=? r) && (r <=? 0x2029)) || (r =? 0x202F) || (r =? 0x205F)
    || (r =? 0x3000).

(** The lower-case column of [unicode.CaseRanges] above ASCII, that is the
    simple lower-case mappings of the Unicode Character Database (version
    14.0.0): the runes from [lo] to [hi] in steps of [stride] move by
    [delta]. *)
Definition lowerRanges : list (Z * Z * Z * Z) :=
  [(0xC0, 0xD6, 1, 32); (0xD8, 0xDE, 1, 32); (0x100, 0x12E, 2, 1);
   (0x130, 0x130, 1, (-199)); (0x132, 0x136, 2, 1); (0x139, 0x147, 2, 1);
   (0x14A, 0x176, 2, 1); (0x178, 0x178, 1, (-121)); (0x179, 0x17D, 2, 1);
   (0x181, 0x181, 1, 210); (0x182, 0x184, 2, 1); (0x186, 0x186, 1, 206);
   (0x187, 0x187, 1, 1); (0x189, 0x18A, 1, 205); (0x18B, 0x18B, 1, 1);
   (0x18E, 0x18E, 1, 79); (0x18F, 0x18F, 1, 202); (0x190, 0x190, 1, 203);
   (0x191, 0x191, 1, 1); (0x193, 0x193, 1, 205); (0x194, 0x194, 1, 207);
   (0x196, 0x196, 1, 211); (0x197, 0x197, 1, 209); (0x198, 0x198, 1, 1);
   (0x19C, 0x19C, 1, 211); (0x19D, 0x19D, 1, 213); (0x19F, 0x19F, 1, 214);
   (0x1A0, 0x1A4, 2, 1); (0x1A6, 0x1A6, 1, 218); (0x1A7, 0x1A7, 1, 1);
   (0x1A9, 0x1A9, 1, 218); (0x1AC, 0x1AC, 1, 1); (0x1AE, 0x1AE, 1, 218);
   (0x1AF, 0x1AF, 1, 1); (0x1B1, 0x1B2, 1, 217); (0x1B3, 0x1B5, 2, 1);
   (0x1B7, 0x1B7, 1, 219); (0x1B8, 0x1B8, 1, 1); (0x1BC, 0x1BC, 1, 1);
   (0x1C4, 0x1C4, 1, 2); (0x1C5, 0x1C5, 1, 1); (0x1C7, 0x1C7, 1, 2);
   (0x1C8, 0x1C8, 1, 1); (0x1CA, 0x1CA, 1, 2); (0x1CB, 0x1DB, 2, 1);
   (0x1DE, 0x1EE, 2, 1); (0x1F1, 0x1F1, 1, 2); (0x1F2, 0x1F4, 2, 1);
   (0x1F6, 0x1F6, 1, (-97)); (0x1F7, 0x1F7, 1, (-56)); (0x1F8, 0x21E, 2, 1);
   (0x220, 0x220, 1, (-130)); (0x222, 0x232, 2, 1);
   (0x23A, 0x23A, 1, 10795); (0x23B, 0x23B, 1, 1);
   (0x23D, 0x23D, 1, (-163)); (0x23E, 0x23E, 1, 10792);
   (0x241, 0x241, 1, 1); (0x243, 0x243, 1, (-195)); (0x244, 0x244, 1, 69);
   (0x245, 0x245, 1, 71); (0x246, 0x24E, 2, 1); (0x370, 0x372, 2, 1);
   (0x376, 0x376, 1, 1); (0x37F, 0x37F, 1, 116); (0x386, 0x386, 1, 38);
   (0x388, 0x38A, 1, 37); (0x38C, 0x38C, 1, 64); (0x38E, 0x38F, 1, 63);
   (0x391, 0x3A1, 1, 32); (0x3A3, 0x3AB, 1, 32); (0x3CF, 0x3CF, 1, 8);
   (0x3D8, 0x3EE, 2, 1); (0x3F4, 0x3F4, 1, (-60)); (0x3F7, 0x3F7, 1, 1);
   (0x3F9, 0x3F9, 1, (-7)); (0x3FA, 0x3FA, 1, 1); (0x3FD, 0x3FF, 1, (-130));
   (0x400, 0x40F, 1, 80); (0x410, 0x42F, 1, 32); (0x460, 0x480, 2, 1);
   (0x48A, 0x4BE, 2, 1); (0x4C0, 0x4C0, 1, 15); (0x4C1, 0x4CD, 2, 1);
   (0x4D0, 0x52E, 2, 1); (0x531, 0x556, 1, 48); (0x10A0, 0x10C5, 1, 7264);
   (0x10C7, 0x10C7, 1, 7264); (0x10CD, 0x10CD, 1, 7264);
   (0x13A0, 0x13EF, 1, 38864); (0x13F0, 0x13F5, 1, 8);
   (0x1C90, 0x1CBA, 1, (-3008)); (0x1CBD, 0x1CBF, 1, (-3008));
   (0x1E00, 0x1E94, 2, 1); (0x1E9E, 0x1E9E, 1, (-7615));
   (0x1EA0, 0x1EFE, 2, 1); (0x1F08, 0x1F0F, 1, (-8));
   (0x1F18, 0x1F1D, 1, (-8)); (0x1F28, 0x1F2F, 1, (-8));
   (0x1F38, 0x1F3F, 1, (-8)); (0x1F48, 0x1F4D, 1, (-8));
   (0x1F59, 0x1F5F, 2, (-8)); (0x1F68, 0x1F6F, 1, (-8));
   (0x1F88, 0x1F8F, 1, (-8)); (0x1F98, 0x1F9F, 1, (-8));
   (0x1FA8, 0x1FAF, 1, (-8)); (0x1FB8, 0x1FB9, 1, (-8));
   (0x1FBA, 0x1FBB, 1, (-74)); (0x1FBC, 0x1FBC, 1, (-9));
   (0x1FC8, 0x1FCB, 1, (-86)); (0x1FCC, 0x1FCC, 1, (-9));
   (0x1FD8, 0x1FD9, 1, (-8)); (0x1FDA, 0x1FDB, 1, (-100));
   (0x1FE8, 0x1FE9, 1, (-8)); (0x1FEA, 0x1FEB, 1, (-112));
   (0x1FEC, 0x1FEC, 1, (-7)); (0x1FF8, 0x1FF9, 1, (-128));
   (0x1FFA, 0x1FFB, 1, (-126)); (0x1FFC, 0x1FFC, 1, (-9));
   (0x2126, 0x2126, 1, (-7517)); (0x212A, 0x212A, 1, (-8383));
   (0x212B, 0x212B, 1, (-8262)); (0x2132, 0x2132, 1, 28);
   (0x2160, 0x216F, 1, 16); (0x2183, 0x2183, 1, 1); (0x24B6, 0x24CF, 1, 26);
   (0x2C00, 0x2C2F, 1, 48); (0x2C60, 0x2C60, 1, 1);
   (0x2C62, 0x2C62, 1, (-10743)); (0x2C63, 0x2C63, 1, (-3814));
   (0x2C64, 0x2C64, 1, (-10727)); (0x2C67, 0x2C6B, 2, 1);
   (0x2C6D, 0x2C6D, 1, (-10780)); (0x2C6E, 0x2C6E, 1, (-10749));
   (0x2C6F, 0x2C6F, 1, (-10783)); (0x2C70, 0x2C70, 1, (-10782));
   (0x2C72, 0x2C72, 1, 1); (0x2C75, 0x2C75, 1, 1);
   (0x2C7E, 0x2C7F, 1, (-10815)); (0x2C80, 0x2CE2, 2, 1);
   (0x2CEB, 0x2CED, 2, 1); (0x2CF2, 0x2CF2, 1, 1); (0xA640, 0xA66C, 2, 1);
   (0xA680, 0xA69A, 2, 1); (0xA722, 0xA72E, 2, 1); (0xA732, 0xA76E, 2, 1);
   (0xA779, 0xA77B, 2, 1); (0xA77D, 0xA77D, 1, (-35332));
   (0xA77E, 0xA786, 2, 1); (0xA78B, 0xA78B, 1, 1);
   (0xA78D, 0xA78D, 1, (-42280)); (0xA790, 0xA792, 2, 1);
   (0xA796, 0xA7A8, 2, 1); (0xA7AA, 0xA7AA, 1, (-42308));
   (0xA7AB, 0xA7AB, 1, (-42319)); (0xA7AC, 0xA7AC, 1, (-42315));
   (0xA7AD, 0xA7AD, 1, (-42305)); (0xA7AE, 0xA7AE, 1, (-42308));
   (0xA7B0, 0xA7B0, 1, (-42258)); (0xA7B1, 0xA7B1, 1, (-42282));
   (0xA7B2, 0xA7B2, 1, (-42261)); (0xA7B3, 0xA7B3, 1, 928);
   (0xA7B4, 0xA7C2, 2, 1); (0xA7C4, 0xA7C4, 1, (-48));
   (0xA7C5, 0xA7C5, 1, (-42307)); (0xA7C6, 0xA7C6, 1, (-35384));
   (0xA7C7, 0xA7C9, 2, 1); (0xA7D0, 0xA7D0, 1, 1); (0xA7D6, 0xA7D8, 2, 1);
   (0xA7F5, 0xA7F5, 1, 1); (0xFF21, 0xFF3A, 1, 32);
   (0x10400, 0x10427, 1, 40); (0x104B0, 0x104D3, 1, 40);
   (0x10570, 0x1057A, 1, 39); (0x1057C, 0x1058A, 1, 39);
   (0x1058C, 0x10592, 1, 39); (0x10594, 0x10595, 1, 39);
   (0x10C80, 0x10CB2, 1, 64); (0x118A0, 0x118BF, 1, 32);
   (0x16E40, 0x16E5F, 1, 32); (0x1E900, 0x1E921, 1, 34)]%Z.

(** The entry of the table that holds [r], if any, gives its lower case. *)
Fixpoint lookupLower (table : list (Z * Z * Z * Z)) (r : Z) : Z :=
  match table with
  | [] => r
  | (lo, hi, stride, delta) :: rest =>
      if (lo <=? r) && (r <=? hi) && ((r - lo) mod stride =? 0)
      then r + delta
      else lookupLower rest r
  end.

(** [unicode.ToLower] *)
Definition ToLower (r : Z) : Z :=
  if r <=? 0x7F then
    if (0x41 <=? r) && (r <=? 0x5A) then r + 0x20 else r
  else lookupLower lowerRanges r.

End Unicode.

(** ** Go's [strings] package, as far as the sources call it *)

Module Strings.

(** [s[n:]] *)
Fixpoint from (n : nat) (s : string) : string :=
  match n, s with
  | O, _ => s
  | S n', String _ s' => from n' s'
  | S _, EmptyString => EmptyString
  end.

(** [s[:n]] *)
Fixpoint upto (n : nat) (s : string) : string :=
  match n, s with
  | O, _ => EmptyString
  | S n', String c s' => String c (upto n' s')
  | S _, EmptyString => EmptyString
  end.

(** [len(s) >= len(prefix) && s[:len(prefix)] == prefix] *)
Definition HasPrefix (s prefix : string) : bool :=
  (String.length prefix <=? String.length s)%nat
  && String.eqb (upto (String.length prefix) s) prefix.

(** [len(s) >= len(suffix) && s[len(s)-len(suffix):] == suffix] *)
Definition HasSuffix (s suffix : string) : bool :=
  (String.length suffix <=? String.length s)%nat
  && String.eqb (from (String.length s - String.length suffix) s) suffix.

Definition TrimPrefix (s prefix : string) : string :=
  if HasPrefix s prefix then from (String.length prefix) s else s.

Definition TrimSuffix (s suffix : string) : string :=
  if HasSuffix s suffix
  then upto (String.length s - String.length suffix) s
  else s.

(** [Index] returns the position of the first instance of [substr] in
    [s], or [-1]. *)
Fixpoint Index (s substr : string) : Z :=
  if HasPrefix s substr then 0%Z
  else match s with
       | EmptyString => (-1)%Z
       | String _ s' =>
           let i := Index s' substr in
           if (i <? 0)%Z then (-1)%Z else (i + 1)%Z
       end.

(** [LastIndex] returns the position of the last instance, or [-1]. *)
Fixpoint LastIndex (s substr : string) : Z :=
  match s with
  | EmptyString => if HasPrefix s substr then 0%Z else (-1)%Z
  | String _ s' =>
      let i := LastIndex s' substr in
      if (0 <=? i)%Z then (i + 1)%Z
      else if HasPrefix s substr then 0%Z else (-1)%Z
  end.

Definition Contains (s substr : string) : bool := (0 <=? Index s substr)%Z.

(** The six bytes Go's [asciiSpace] table marks. *)
Definition asciiSpace (c : ascii) : bool :=
  let n := nat_of_ascii c in
  ((9 <=? n) && (n <=? 13) || (n =? 32))%nat.

(** The loop [for i, r := range s] of [indexFunc], at [t = s[i:]]. *)
Fixpoint indexFunc_go (fuel : nat) (f : Z -> bool) (truth : bool)
    (t : string) (i : nat) : Z :=
  match fuel with
  | O => (-1)%Z
  | S fuel' =>
      match t with
      | EmptyString => (-1)%Z
      | _ =>
          let '(r, size) := Utf8.DecodeRuneInString t in
          if Bool.eqb (f r) truth then Z.of_nat i
          else indexFunc_go fuel' f truth (from size t) (i + size)
      end
  end.

(** [indexFunc]: the index of the first rune [r] of [s] with
    [f(r) == truth], or [-1].  (Every turn of the loop takes a byte at
    least, so [len(s)] turns are enough.) *)
Definition indexFunc (s : string) (f : Z -> bool) (truth : bool) : Z :=
  indexFunc_go (String.length s) f truth s 0.

(** The loop of [lastIndexFunc], at [i]. *)
Fixpoint lastIndexFunc_go (fuel : nat) (f : Z -> bool) (truth : bool)
    (s : string) (i : nat) : Z :=
  match fuel with
  | O => (-1)%Z
  | S fuel' =>
      if (i =? 0)%nat then (-1)%Z
      else
        let '(r, size) := Utf8.DecodeLastRuneInString (upto i s) in
        let i := (i - size)%nat in
        if Bool.eqb (f r) truth then Z.of_nat i
        else lastIndexFunc_go fuel' f truth s i
  end.

Definition lastIndexFunc (s : string) (f : Z -> bool) (truth : bool) : Z :=
  lastIndexFunc_go (String.length s) f truth s (String.length s).

Definition TrimLeftFunc (s : string) (f : Z -> bool) : string :=
  let i := indexFunc s f false in
  if (i =? -1)%Z then EmptyString else from (Z.to_nat i) s.

Definition TrimRightFunc (s : string) (f : Z -> bool) : string :=
  let i := lastIndexFunc s f false in
  let i :=
    if (0 <=? i)%Z && (Utf8.RuneSelf <=? Utf8.at_ s i)%Z then
      (i + Z.of_nat (snd (Utf8.DecodeRuneInString (from (Z.to_nat i) s))))%Z
    else (i + 1)%Z in
  upto (Z.to_nat i) s.

Definition TrimFunc (s : string) (f : Z -> bool) : string :=
  TrimRightFunc (TrimLeftFunc s f) f.

(** The first loop of [TrimSpace]: [s[start:]] once [start] has passed
    the leading ASCII spaces, and whether a byte above 0x7F stopped it. *)
Fixpoint trimSpace_start (s : string) : string * bool :=
  match s with
  | EmptyString => (EmptyString, false)
  | String c s' =>
      if (Utf8.RuneSelf <=? Utf8.byte c)%Z then (s, true)
      else if asciiSpace c then trimSpace_start s'
      else (s, false)
  end.

(** The second loop, on [s[start:]]: [s[start:stop]] once [stop] has
    backed over the trailing ASCII spaces, and whether a byte above 0x7F
    stopped it. *)
Fixpoint trimSpace_stop (s : string) : string * bool :=
  match s with
  | EmptyString => (EmptyString, false)
  | String c s' =>
      match trimSpace_stop s' with
      | (EmptyString, _) =>
          if (Utf8.RuneSelf <=? Utf8.byte c)%Z then (String c EmptyString, true)
          else if asciiSpace c then (EmptyString, false)
          else (String c EmptyString, false)
      | (t, nonASCII) => (String c t, nonASCII)
      end
  end.

(** [TrimSpace]: the fast path over ASCII, and [TrimFunc] or
    [TrimRightFunc] with [unicode.IsSpace] from the first byte above 0x7F
    on. *)
Definition TrimSpace (s : string) : string :=
  let '(t, nonASCII) := trimSpace_start s in
  if nonASCII then TrimFunc t Unicode.IsSpace
  else
    let '(u, nonASCII) := trimSpace_stop t in
    if nonASCII then TrimRightFunc u Unicode.IsSpace else u.

(** The loop of [Map] over the runes of [t]. *)
Fixpoint Map_go (fuel : nat) (mapping : Z -> Z) (t : string) : string :=
  match fuel with
  | O => EmptyString
  | S fuel' =>
      match t with
      | EmptyString => EmptyString
      | _ =>
          let '(c, size) := Utf8.DecodeRuneInString t in
          let r := mapping c in
          ((if (0 <=? r)%Z then Utf8.EncodeRune r else EmptyString)
           ++ Map_go fuel' mapping (from size t))%string
      end
  end.

(** [Map]: every rune of [s], an invalid byte counting as [RuneError],
    is replaced by the encoding of its image, and dropped when the image
    is negative.  (Go copies the stretch the mapping leaves unchanged
    instead of encoding it again, which gives the same bytes.) *)
Definition Map (mapping : Z -> Z) (s : string) : string :=
  Map_go (String.length s) mapping s.

Definition lowerByte (c : ascii) : ascii :=
  let n := nat_of_ascii c in
  if ((65 <=? n) && (n <=? 90))%nat then ascii_of_nat (n + 32) else c.

Fixpoint isASCII (s : string) : bool :=
  match s with
  | String c s' => (nat_of_ascii c <? 128)%nat && isASCII s'
  | EmptyString => true
  end.

Fixpoint hasUpper (s : string) : bool :=
  match s with
  | String c s' =>
      ((65 <=? nat_of_ascii c) && (nat_of_ascii c <=? 90))%nat || hasUpper s'
  | EmptyString => false
  end.

(** The ASCII path of [ToLower]: ['A'..'Z'] move to ['a'..'z']. *)
Fixpoint lowerASCII (s : string) : string :=
  match s with
  | String c s' => String (lowerByte c) (lowerASCII s')
  | EmptyString => EmptyString
  end.

(** [ToLower]: byte by byte on an ASCII string, [Map(unicode.ToLower, s)]
    otherwise. *)
Definition ToLower (s : string) : string :=
  if isASCII s then (if hasUpper s then lowerASCII s else s)
  else Map Unicode.ToLower s.

End Strings.

(** ** [filter.go] *)

(** [slog.Level] and its four named constants. *)
Definition slog_Level := Z.
Definition LevelDebug : slog_Level := (-4)%Z.
Definition LevelInfo : slog_Level := 0%Z.
Definition LevelWarn : slog_Level := 4%Z.
Definition LevelError : slog_Level := 8%Z.

(** A [time.Time], as the instant it denotes; [0] is the zero time. *)
Definition Time := Z.
Definition Time_IsZero (t : Time) : bool := (t =? 0)%Z.
Definition Time_After (t u : Time) : bool := (u <? t)%Z.

Definition ContextPrefix : string := "context:".
Definition SourceFilePrefix : string := "source:file".
Definition SourceFunctionPrefix : string := "source:function".

Record LogFilter := mkLogFilter {
  Type_ : string;
  Pattern : string;
  Level : string;
  OutputLevel : string;
  Enabled : bool;
  ExpiresAt : option Time
}.

(** [IsExpired], with the reading of the clock passed in as [now]; an
    operation that consults the clock takes one reading. *)
Definition IsExpired (now : Time) (f : LogFilter) : bool :=
  match ExpiresAt f with
  | None => false
  | Some e => if Time_IsZero e then false else Time_After now e
  end.

Definition IsActive (now : Time) (f : LogFilter) : bool :=
  Enabled f && negb (IsExpired now f).

Definition ParseLevel (level : string) : slog_Level :=
  let s := Strings.ToLower (Strings.TrimSpace level) in
  if String.eqb s "debug" then LevelDebug
  else if String.eqb s "info" then LevelInfo
  else if String.eqb s "warn" || String.eqb s "warning" then LevelWarn
  else if String.eqb s "error" then LevelError
  else LevelInfo.

Definition matchPattern (pattern value : string) : bool :=
  if String.eqb pattern "" then false
  else
    let startsWithWildcard := Strings.HasPrefix pattern "*" in
    let endsWithWildcard := Strings.HasSuffix pattern "*" in
    if startsWithWildcard && endsWithWildcard then
      let middle := Strings.TrimSuffix (Strings.TrimPrefix pattern "*") "*" in
      if String.eqb middle "" then true
      else Strings.Contains value middle
    else if endsWithWildcard then
      Strings.HasPrefix value (Strings.TrimSuffix pattern "*")
    else if startsWithWildcard then
      Strings.HasSuffix value (Strings.TrimPrefix pattern "*")
    else String.eqb pattern value.

Definition Matches (f : LogFilter) (value : string) : bool :=
  matchPattern (Pattern f) value.

Definition IsContextFilter (f : LogFilter) : bool :=
  Strings.HasPrefix (Type_ f) ContextPrefix.

Definition ContextKey (f : LogFilter) : string :=
  if negb (IsContextFilter f) then ""
  else Strings.TrimPrefix (Type_ f) ContextPrefix.

Definition IsSourceFileFilter (f : LogFilter) : bool :=
  String.eqb (Type_ f) SourceFilePrefix.

Definition IsSourceFunctionFilter (f : LogFilter) : bool :=
  String.eqb (Type_ f) SourceFunctionPrefix.

Definition IsSourceFilter (f : LogFilter) : bool :=
  IsSourceFileFilter f || IsSourceFunctionFilter f.

Definition AttributeKey (f : LogFilter) : string :=
  if IsContextFilter f || IsSourceFilter f then "" else Type_ f.

Definition HasOutputLevel (f : LogFilter) : bool :=
  negb (String.eqb (OutputLevel f) "").

Definition GetOutputLevel (f : LogFilter) (originalLevel : slog_Level) : slog_Level :=
  if String.eqb (OutputLevel f) "" then originalLevel
  else ParseLevel (OutputLevel f).

(** ** The collaborators the package calls but does not define *)

(** [slog.Value], seen through what [attrValueToString] asks of it: its
    kind and the texts of [v.String()], [v.Time().String()] and
    [v.Duration().String()]. *)
Inductive Kind :=
  | KindAny | KindBool | KindDuration | KindFloat64 | KindInt64
  | KindString | KindTime | KindUint64 | KindGroup | KindLogValuer.

Record Value := mkValue {
  Value_Kind : Kind;
  Value_String : string;
  Value_Time_String : string;
  Value_Duration_String : string
}.

Record Attr := mkAttr { Key : string; Val : Value }.

Definition StringValue (s : string) : Value := mkValue KindString s "" "".

(** [slog.Record]; [r_Attrs] is the sequence [r.Attrs] yields, which is
    also the sequence [AddAttrs] rebuilds one attribute at a time (slog
    keeps no empty group in a record, so none is dropped on the way). *)
Record slog_Record := mkRecord {
  r_Time : Time;
  r_Message : string;
  r_Level : slog_Level;
  r_PC : Z;
  r_Attrs : list Attr
}.

(** [context.Context]: a chain of key/value bindings. *)
Inductive Context :=
  | Background
  | WithValue (parent : Context) (key val : string).

(** The inner [slog.Handler]: a sink, or what its [WithAttrs] and
    [WithGroup] derive from one. *)
Inductive Inner :=
  | Sink (id : nat)
  | Inner_WithAttrs (i : Inner) (attrs : list Attr)
  | Inner_WithGroup (i : Inner) (name : string).

(** [runtime.Frame], the two fields read. *)
Record Frame := mkFrame { Frame_File : string; Frame_Function : string }.

(** What the Go runtime and [path/filepath] answer: the frame of a program
    counter, [filepath.Rel] ([None] for an error), [filepath.Abs(".")], and
    how much room [append] leaves behind the elements when it has to move a
    slice (old capacity, needed length). *)
Record Runtime := mkRuntime {
  CallersFrames : Z -> Frame;
  filepath_Rel : string -> string -> option string;
  filepath_Abs_dot : option string;
  growslice_spare : nat -> nat -> nat
}.

(** [filepath.Base] with ['/'] as the separator. *)
Fixpoint stripTrailingSlashes (s : string) : string :=
  match s with
  | String c s' =>
      match stripTrailingSlashes s' with
      | EmptyString => if Ascii.eqb c "/" then EmptyString else String c EmptyString
      | t => String c t
      end
  | EmptyString => EmptyString
  end.

Definition filepath_Base (path : string) : string :=
  if String.eqb path "" then "."
  else
    let p := stripTrailingSlashes path in
    let i := Strings.LastIndex p "/" in
    let p := if (0 <=? i)%Z then Strings.from (Z.to_nat (i + 1)) p else p in
    if String.eqb p "" then "/" else p.

(** ** Slices over a store of backing arrays *)

Record Slice := mkSlice { base : nat; len : nat; cap : nat }.

Definition nil_slice : Slice := mkSlice 0 0 0.

Section SliceOps.
Context {A : Type}.
Variable zero : A.

(** The elements a slice header shows. *)
Definition elems (arrays : list (list A)) (s : Slice) : list A :=
  take (len s) (default [] (arrays !! base s)).

(** [make([]A, n, c)] followed by [copy] of [xs] (of length [n]): a
    fresh array of [c] slots. *)
Definition make_from (arrays : list (list A)) (xs : list A) (c : nat)
  : list (list A) * Slice :=
  (arrays ++ [xs ++ replicate (c - length xs) zero],
   mkSlice (length arrays) (length xs) c).

Fixpoint write_at (i : nat) (xs : list A) (arr : list A) : list A :=
  match xs with
  | [] => arr
  | x :: xs' => write_at (S i) xs' (<[i := x]> arr)
  end.

(** [append(s, xs...)]: in place while the capacity suffices, into a
    fresh array otherwise. *)
Definition append (rt : Runtime) (arrays : list (list A)) (s : Slice)
    (xs : list A) : list (list A) * Slice :=
  let needed := (len s + length xs)%nat in
  if (needed <=? cap s)%nat then
    (alter (write_at (len s) xs) (base s) arrays,
     mkSlice (base s) needed (cap s))
  else
    make_from arrays (elems arrays s ++ xs)
      (needed + growslice_spare rt (cap s) needed).
End SliceOps.

Definition zeroFilter : LogFilter := mkLogFilter "" "" "" "" false None.
Definition zeroAttr : Attr := mkAttr "" (mkValue KindAny "" "" "").

(** ** [context.go] *)

(** A [ContextExtractor]; [None] is the nil function. *)
Definition ContextExtractor := option (Context -> string * bool).

(** ** [handler.go] *)

(** The handler; [globalLevel] is the address of the shared
    [slog.LevelVar], [filters] and [preformattedAttrs] are slice headers.
    ([filtersLock] has no part in a sequential run and is left out.) *)
Record Handler := mkHandler {
  inner : Inner;
  globalLevel : nat;
  filters : Slice;
  lowestLevel : slog_Level;
  hasSourceFilters : bool;
  preformattedAttrs : Slice;
  workDir : string
}.

(** The program state: level variables, the backing arrays of filter and
    attribute slices, the handlers by address, and the package-level
    registry of context extractors. *)
Record World := mkWorld {
  levelVars : list slog_Level;
  filterArrays : list (list LogFilter);
  attrArrays : list (list Attr);
  handlers : list Handler;
  contextExtractors : gmap string ContextExtractor
}.

Definition zeroHandler : Handler :=
  mkHandler (Sink 0) 0 nil_slice 0%Z false nil_slice "".

(** [*h] *)
Definition deref (w : World) (h : nat) : Handler :=
  default zeroHandler (handlers w !! h).

Definition store (w : World) (h : nat) (hd : Handler) : World :=
  mkWorld (levelVars w) (filterArrays w) (attrArrays w)
          (<[h := hd]> (handlers w)) (contextExtractors w).

Definition with_filterArrays (w : World) (arrays : list (list LogFilter)) : World :=
  mkWorld (levelVars w) arrays (attrArrays w) (handlers w) (contextExtractors w).

(** [h.filters], element by element. *)
Definition filtersOf (w : World) (h : nat) : list LogFilter :=
  elems (filterArrays w) (filters (deref w h)).

Definition preformattedOf (w : World) (h : nat) : list Attr :=
  elems (attrArrays w) (preformattedAttrs (deref w h)).

(** [h.globalLevel.Level()] *)
Definition globalLevelOf (w : World) (h : nat) : slog_Level :=
  default 0%Z (levelVars w !! globalLevel (deref w h)).

Definition RegisterContextExtractor (w : World) (key : string)
    (extractor : ContextExtractor) : World :=
  mkWorld (levelVars w) (filterArrays w) (attrArrays w) (handlers w)
          (<[key := extractor]> (contextExtractors w)).

Definition UnregisterContextExtractor (w : World) (key : string) : World :=
  mkWorld (levelVars w) (filterArrays w) (attrArrays w) (handlers w)
          (delete key (contextExtractors w)).

Definition GetContextExtractor (reg : gmap string ContextExtractor)
    (key : string) : ContextExtractor :=
  default None (reg !! key).

Definition extractFromContext (reg : gmap string ContextExtractor)
    (ctx : option Context) (key : string) : string * bool :=
  match ctx with
  | None => ("", false)
  | Some c =>
      match GetContextExtractor reg key with
      | None => ("", false)
      | Some extractor => extractor c
      end
  end.

Definition NewHandler (rt : Runtime) (w : World) (inner : Inner)
    (globalLevel : nat) : World * nat :=
  let wd := match filepath_Abs_dot rt with Some cwd => cwd | None => "" end in
  let hd := mkHandler inner globalLevel nil_slice (LevelError + 1)%Z false
                      nil_slice wd in
  (mkWorld (levelVars w) (filterArrays w) (attrArrays w)
           (handlers w ++ [hd]) (contextExtractors w),
   length (handlers w)).

(** One turn of the loop of [updateLowestLevel]. *)
Definition updateStep (now : Time) (acc : slog_Level * bool) (f : LogFilter)
  : slog_Level * bool :=
  if negb (IsActive now f) then acc
  else
    let level := ParseLevel (Level f) in
    (if (level <? fst acc)%Z then level else fst acc,
     if IsSourceFilter f then true else snd acc).

Definition updateLowestLevel (w : World) (h : nat) (now : Time) : World :=
  let hd := deref w h in
  let '(lowest, hasSource) :=
    fold_left (updateStep now) (filtersOf w h) ((LevelError + 1)%Z, false) in
  store w h (mkHandler (inner hd) (globalLevel hd) (filters hd) lowest
                       hasSource (preformattedAttrs hd) (workDir hd)).

Definition set_filters (w : World) (h : nat) (s : Slice) : World :=
  let hd := deref w h in
  store w h (mkHandler (inner hd) (globalLevel hd) s (lowestLevel hd)
                       (hasSourceFilters hd) (preformattedAttrs hd) (workDir hd)).

Definition SetFilters (w : World) (h : nat) (fs : list LogFilter)
    (now : Time) : World :=
  let '(arrays, s) := make_from zeroFilter (filterArrays w) fs (length fs) in
  updateLowestLevel (set_filters (with_filterArrays w arrays) h s) h now.

Definition GetFilters (w : World) (h : nat) : list LogFilter := filtersOf w h.

Definition AddFilter (rt : Runtime) (w : World) (h : nat) (f : LogFilter)
    (now : Time) : World :=
  let '(arrays, s) :=
    append zeroFilter rt (filterArrays w) (filters (deref w h)) [f] in
  updateLowestLevel (set_filters (with_filterArrays w arrays) h s) h now.

Definition keeps (filterType pattern : string) (f : LogFilter) : bool :=
  negb (String.eqb (Type_ f) filterType) || negb (String.eqb (Pattern f) pattern).

(** [filtered] is made with the capacity [len(h.filters)] and filled by
    [append], which therefore never moves it. *)
Definition RemoveFilter (w : World) (h : nat) (filterType pattern : string)
    (now : Time) : World :=
  let filtered := List.filter (keeps filterType pattern) (filtersOf w h) in
  let '(arrays, s) :=
    make_from zeroFilter (filterArrays w) filtered (len (filters (deref w h))) in
  updateLowestLevel (set_filters (with_filterArrays w arrays) h s) h now.

Definition ClearFilters (w : World) (h : nat) : World :=
  let hd := deref w h in
  store w h (mkHandler (inner hd) (globalLevel hd) nil_slice (LevelError + 1)%Z
                       false (preformattedAttrs hd) (workDir hd)).

(** The method [Handler.Enabled] (the name [Enabled] is the filter's field). *)
Definition Handler_Enabled (w : World) (h : nat) (ctx : option Context)
    (level : slog_Level) : bool :=
  if (globalLevelOf w h <=? level)%Z then true
  else (lowestLevel (deref w h) <=? level)%Z.

Definition attrValueToString (v : Value) : string :=
  match Value_Kind v with
  | KindString => Value_String v
  | KindInt64 => Value_String v
  | KindUint64 => Value_String v
  | KindFloat64 => Value_String v
  | KindBool => Value_String v
  | KindTime => Value_Time_String v
  | KindDuration => Value_Duration_String v
  | _ => Value_String v
  end.

Definition formatSourcePath (rt : Runtime) (workDir filePath functionName : string)
  : string :=
  let external :=
    if negb (String.eqb functionName "") then
      let lastSlash := Strings.LastIndex functionName "/" in
      if (0 <=? lastSlash)%Z then
        let afterSlash := Strings.from (Z.to_nat (lastSlash + 1)) functionName in
        let dotIdx := Strings.Index afterSlash "." in
        if (0 <=? dotIdx)%Z then
          let modulePath :=
            Strings.upto (Z.to_nat (lastSlash + 1 + dotIdx)) functionName in
          let fileName := filepath_Base filePath in
          ("@" ++ modulePath ++ "/" ++ fileName)%string
        else filepath_Base filePath
      else filepath_Base filePath
    else filepath_Base filePath in
  if negb (String.eqb workDir "") then
    match filepath_Rel rt workDir filePath with
    | Some rel => if negb (Strings.HasPrefix rel "..") then rel else external
    | None => external
    end
  else external.

Definition extractSource (rt : Runtime) (workDir : string) (pc : Z)
  : string * string :=
  let frame := CallersFrames rt pc in
  let file :=
    if negb (String.eqb (Frame_File frame) "")
    then formatSourcePath rt workDir (Frame_File frame) (Frame_Function frame)
    else "" in
  let function :=
    let fn := Frame_Function frame in
    if negb (String.eqb fn "") then
      let lastSlash := Strings.LastIndex fn "/" in
      if (0 <=? lastSlash)%Z then
        let afterSlash := Strings.from (Z.to_nat (lastSlash + 1)) fn in
        let dotIdx := Strings.Index afterSlash "." in
        if (0 <=? dotIdx)%Z
        then Strings.from (Z.to_nat (dotIdx + 1)) afterSlash
        else fn
      else
        let dotIdx := Strings.Index fn "." in
        if (0 <=? dotIdx)%Z then Strings.from (Z.to_nat (dotIdx + 1)) fn
        else fn
    else "" in
  (file, function).

(** Lines 141-153 of [Handle]: the flattened attribute map. *)
Definition putAttr (attrs : gmap string string) (a : Attr) : gmap string string :=
  <[Key a := attrValueToString (Val a)]> attrs.

Definition collectAttrs (preformatted recordAttrs : list Attr)
  : gmap string string :=
  fold_left putAttr recordAttrs (fold_left putAttr preformatted ∅).

(** What one turn of the filter loop compares the pattern with. *)
Definition candidate (reg : gmap string ContextExtractor)
    (attrs : gmap string string) (sourceFile sourceFunction : string)
    (ctx : option Context) (f : LogFilter) : string * bool :=
  if IsSourceFileFilter f then
    (sourceFile, negb (String.eqb sourceFile ""))
  else if IsSourceFunctionFilter f then
    (sourceFunction, negb (String.eqb sourceFunction ""))
  else if IsContextFilter f then
    extractFromContext reg ctx (ContextKey f)
  else
    match attrs !! AttributeKey f with
    | Some v => (v, true)
    | None => ("", false)
    end.

(** The test that ends the loop at [f]. *)
Definition hits (reg : gmap string ContextExtractor)
    (attrs : gmap string string) (sourceFile sourceFunction : string)
    (ctx : option Context) (now : Time) (f : LogFilter) : bool :=
  IsActive now f
  && (let '(value, found) := candidate reg attrs sourceFile sourceFunction ctx f in
      found && Matches f value).

(** The filter loop from index [i] on: the index and the filter it breaks
    at, if any. *)
Fixpoint scanFilters (hit : LogFilter -> bool) (i : nat) (fs : list LogFilter)
  : option (nat * LogFilter) :=
  match fs with
  | [] => None
  | f :: rest => if hit f then Some (i, f) else scanFilters hit (S i) rest
  end.

(** What [Handle] does with the record: nothing, or one call
    [sink.Handle(ctx, r)] of the inner handler. *)
Inductive Outcome :=
  | Suppress
  | Forward (sink : Inner) (ctx : option Context) (r : slog_Record).

(** [slog.NewRecord] followed by [AddAttrs] of every attribute of [r]. *)
Definition withLevel (r : slog_Record) (level : slog_Level) : slog_Record :=
  mkRecord (r_Time r) (r_Message r) level (r_PC r)
           (fold_left (fun acc a => acc ++ [a]) (r_Attrs r) []).

(** Lines 161-165: the call site is resolved only under the cached flag
    and for a record that carries a program counter. *)
Definition sourceOf (rt : Runtime) (w : World) (h : nat) (r : slog_Record)
  : string * string :=
  let hd := deref w h in
  if hasSourceFilters hd && negb (r_PC r =? 0)%Z
  then extractSource rt (workDir hd) (r_PC r)
  else ("", "").

(** The candidate value of rule [f] for the handler at [h], this record
    and this context. *)
Definition candidateOf (rt : Runtime) (w : World) (h : nat)
    (ctx : option Context) (r : slog_Record) (f : LogFilter) : string * bool :=
  candidate (contextExtractors w)
            (collectAttrs (preformattedOf w h) (r_Attrs r))
            (fst (sourceOf rt w h r)) (snd (sourceOf rt w h r)) ctx f.

(** The loop's test for the handler at [h], this record and this context. *)
Definition ruleHits (rt : Runtime) (w : World) (h : nat)
    (ctx : option Context) (r : slog_Record) (now : Time) (f : LogFilter) : bool :=
  hits (contextExtractors w)
       (collectAttrs (preformattedOf w h) (r_Attrs r))
       (fst (sourceOf rt w h r)) (snd (sourceOf rt w h r)) ctx now f.

Definition matchedFilter (rt : Runtime) (w : World) (h : nat)
    (ctx : option Context) (r : slog_Record) (now : Time)
  : option (nat * LogFilter) :=
  scanFilters (ruleHits rt w h ctx r now) 0 (filtersOf w h).

Definition effectiveLevel (rt : Runtime) (w : World) (h : nat)
    (ctx : option Context) (r : slog_Record) (now : Time) : slog_Level :=
  match matchedFilter rt w h ctx r now with
  | Some (_, f) => ParseLevel (Level f)
  | None => globalLevelOf w h
  end.

Definition Handle (rt : Runtime) (w : World) (h : nat)
    (ctx : option Context) (r : slog_Record) (now : Time) : Outcome :=
  let m := matchedFilter rt w h ctx r now in
  if (r_Level r <? effectiveLevel rt w h ctx r now)%Z then Suppress
  else
    match m with
    | Some (_, f) =>
        if HasOutputLevel f
        then Forward (inner (deref w h)) ctx
                     (withLevel r (GetOutputLevel f (r_Level r)))
        else Forward (inner (deref w h)) ctx r
    | None => Forward (inner (deref w h)) ctx r
    end.

Definition WithAttrs (rt : Runtime) (w : World) (h : nat) (attrs : list Attr)
  : World * nat :=
  let hd := deref w h in
  let '(arrays, s) :=
    append zeroAttr rt (attrArrays w) (preformattedAttrs hd) attrs in
  let newHandler :=
    mkHandler (Inner_WithAttrs (inner hd) attrs) (globalLevel hd) (filters hd)
              (lowestLevel hd) (hasSourceFilters hd) s (workDir hd) in
  (mkWorld (levelVars w) (filterArrays w) arrays (handlers w ++ [newHandler])
           (contextExtractors w),
   length (handlers w)).

Definition WithGroup (w : World) (h : nat) (name : string) : World * nat :=
  let hd := deref w h in
  let newHandler :=
    mkHandler (Inner_WithGroup (inner hd) name) (globalLevel hd) (filters hd)
              (lowestLevel hd) (hasSourceFilters hd) (preformattedAttrs hd)
              (workDir hd) in
  (mkWorld (levelVars w) (filterArrays w) (attrArrays w)
           (handlers w ++ [newHandler]) (contextExtractors w),
   length (handlers w)).

(** The four mutating operations, as data. *)
Inductive Mutation :=
  | DoSetFilters (fs : list LogFilter)
  | DoAddFilter (f : LogFilter)
  | DoRemoveFilter (filterType pattern : string)
  | DoClearFilters.

Definition mutate (rt : Runtime) (w : World) (h : nat) (m : Mutation)
    (now : Time) : World :=
  match m with
  | DoSetFilters fs => SetFilters w h fs now
  | DoAddFilter f => AddFilter rt w h f now
  | DoRemoveFilter t p => RemoveFilter w h t p now
  | DoClearFilters => ClearFilters w h
  end.

(** [slog.LevelVar.Set], which the package's [SetLevel] calls on the
    shared level. *)
Definition SetLevel (w : World) (lv : nat) (level : slog_Level) : World :=
  mkWorld (<[lv := level]> (levelVars w)) (filterArrays w) (attrArrays w)
          (handlers w) (contextExtractors w).

(** ** Vocabulary of the statements *)

(** A pattern that begins, or ends, with the wildcard. *)
Definition leading_star (p : string) : Prop := ∃ q, p = "*" +:+ q.
Definition trailing_star (p : string) : Prop := ∃ q, p = q +:+ "*".

(** White space as [TrimSpace] knows it: the runes with the Unicode
    property White_Space. *)
Definition white_space : list Z :=
  [0x09; 0x0A; 0x0B; 0x0C; 0x0D; 0x20; 0x85; 0xA0; 0x1680;
   0x2000; 0x2001; 0x2002; 0x2003; 0x2004; 0x2005; 0x2006; 0x2007; 0x2008;
   0x2009; 0x200A; 0x2028; 0x2029; 0x202F; 0x205F; 0x3000]%Z.

(** [blank s]: [s] is white space and nothing else, the UTF-8 encodings
    of runes of [white_space] one after the other. *)
Inductive blank : string -> Prop :=
  | blank_nil : blank ""
  | blank_cons r s :
      r ∈ white_space -> blank s -> blank (Utf8.EncodeRune r +:+ s).

(** *** Runes in a string *)

Section runes.
Local Open Scope Z_scope.

(** What [DecodeRuneInString] returns, by the width. *)
Inductive Decoded : string → Z → nat → Prop :=
  | decoded_empty : Decoded "" Utf8.RuneError 0
  | decoded_ascii c t :
      Utf8.byte c < 0x80 → Decoded (String c t) (Utf8.byte c) 1
  | decoded_invalid c t :
      0x80 ≤ Utf8.byte c → Decoded (String c t) Utf8.RuneError 1
  | decoded_2 c0 c1 t :
      0xC2 ≤ Utf8.byte c0 ≤ 0xDF → 0x80 ≤ Utf8.byte c1 ≤ 0xBF →
      Decoded (String c0 (String c1 t))
              ((Utf8.byte c0 - 0xC0) * 64 + (Utf8.byte c1 - 0x80)) 2
  | decoded_3 c0 c1 c2 t :
      0xE0 ≤ Utf8.byte c0 ≤ 0xEF → 0x80 ≤ Utf8.byte c1 ≤ 0xBF →
      (Utf8.byte c0 = 0xE0 → 0xA0 ≤ Utf8.byte c1) →
      (Utf8.byte c0 = 0xED → Utf8.byte c1 ≤ 0x9F) →
      0x80 ≤ Utf8.byte c2 ≤ 0xBF →
      Decoded (String c0 (String c1 (String c2 t)))
              ((Utf8.byte c0 - 0xE0) * 4096 + (Utf8.byte c1 - 0x80) * 64
               + (Utf8.byte c2 - 0x80)) 3
  | decoded_4 c0 c1 c2 c3 t :
      0xF0 ≤ Utf8.byte c0 ≤ 0xF4 → 0x80 ≤ Utf8.byte c1 ≤ 0xBF →
      (Utf8.byte c0 = 0xF0 → 0x90 ≤ Utf8.byte c1) →
      (Utf8.byte c0 = 0xF4 → Utf8.byte c1 ≤ 0x8F) →
      0x80 ≤ Utf8.byte c2 ≤ 0xBF → 0x80 ≤ Utf8.byte c3 ≤ 0xBF →
      Decoded (String c0 (String c1 (String c2 (String c3 t))))
              ((Utf8.byte c0 - 0xF0) * 262144 + (Utf8.byte c1 - 0x80) * 4096
               + (Utf8.byte c2 - 0x80) * 64 + (Utf8.byte c3 - 0x80)) 4.

(** An invalid byte, or a rune encoded in full: the error of width one is
    the only result that does not name its bytes. *)
Definition valid (r : Z) (size : nat) : Prop := (1 < size)%nat ∨ r < 0x80.

(** An entry of the table that keeps the runes it moves above ASCII, or
    one of the two that do not. *)
Definition above_ascii (e : Z * Z * Z * Z) : bool :=
  let '(lo, hi, stride, delta) := e in
  (0x80 <=? lo + delta)
  || ((lo =? 0x130) && (hi =? 0x130) && (delta =? -199))
  || ((lo =? 0x212A) && (hi =? 0x212A) && (delta =? -8383)).

End runes.

(** [capital X y]: [X] is a capital letter and [y] the small one. *)
Definition capital (X y : ascii) : Prop :=
  65 ≤ nat_of_ascii X ≤ 90 ∧ nat_of_ascii y = nat_of_ascii X + 32.

Definition same_letter (x y : ascii) : Prop :=
  x = y ∨ capital x y ∨ capital y x.

(** [spells m w]: [m] is [w] up to the case of letters. *)
Fixpoint spells (m w : string) : Prop :=
  match m, w with
  | EmptyString, EmptyString => True
  | String x m', String y w' => same_letter x y ∧ spells m' w'
  | _, _ => False
  end.

(** The ways to write the small letter [y] that [ToLower] takes to [y]:
    the letter, its capital and, for "i" and "k", U+0130 (capital I with
    dot above) and U+212A (the Kelvin sign). *)
Definition letter_forms (y : ascii) : list string :=
  [String y ""; String (ascii_of_nat (nat_of_ascii y - 32)) ""]
  ++ (if Ascii.eqb y "i" then [Utf8.EncodeRune 0x130] else [])
  ++ (if Ascii.eqb y "k" then [Utf8.EncodeRune 0x212A] else []).

(** [spelt m w]: [m] is the word [w] of small letters, each letter in one
    of its forms. *)
Fixpoint spelt (m w : string) : Prop :=
  match w with
  | EmptyString => m = ""
  | String y w' => ∃ x m', m = x +:+ m' ∧ x ∈ letter_forms y ∧ spelt m' w'
  end.

(** [names s w]: [s] is [w], in any case, between white space. *)
Definition names (s w : string) : Prop :=
  ∃ l m r, s = l +:+ m +:+ r ∧ blank l ∧ blank r ∧ spelt m w.

(** A word of small letters. *)
Fixpoint small_letters (w : string) : Prop :=
  match w with
  | EmptyString => True
  | String y w' => 97 ≤ nat_of_ascii y ≤ 122 ∧ small_letters w'
  end.

(** The byte [c] occurs in [s]. *)
Definition has_byte (c : ascii) (s : string) : Prop :=
  ∃ l r, s = l +:+ String c r.

(** The module path as the specification words it: everything in the
    function name up to and including the first ['.'] after the last
    ['/'].  ([formatSourcePath] itself stops one byte earlier.) *)
Definition modulePath_through_dot (functionName : string) : string :=
  let lastSlash := Strings.LastIndex functionName "/" in
  let afterSlash := Strings.from (Z.to_nat (lastSlash + 1)) functionName in
  let dotIdx := Strings.Index afterSlash "." in
  Strings.upto (Z.to_nat (lastSlash + 1 + dotIdx + 1)) functionName.

(** ** A sample run-time, for the closed examples *)

(** Two program counters with their frames: one inside the working
    directory, one in a module outside it. *)
Definition sample_frames (pc : Z) : Frame :=
  if (pc =? 1)%Z then
    mkFrame "/home/u/proj/internal/service/extraction.go"
            "github.com/acme/proj/internal/service.(*ExtractionService).Extract"
  else if (pc =? 2)%Z then
    mkFrame "/go/pkg/mod/github.com/user/repo/pkg/file.go"
            "github.com/user/repo/pkg.(*Type).Method"
  else mkFrame "" "".

(** [filepath.Rel] from ["/home/u/proj"], at the two files above. *)
Definition sample_Rel (basepath targpath : string) : option string :=
  if negb (String.eqb basepath "/home/u/proj") then None
  else if String.eqb targpath "/home/u/proj/internal/service/extraction.go"
  then Some "internal/service/extraction.go"
  else if String.eqb targpath "/go/pkg/mod/github.com/user/repo/pkg/file.go"
  then Some "../../../go/pkg/mod/github.com/user/repo/pkg/file.go"
  else None.

(** [append] doubles a small capacity. *)
Definition sample_spare (oldCap needed : nat) : nat :=
  Nat.max (2 * oldCap) needed - needed.

Definition sample_rt : Runtime :=
  mkRuntime sample_frames sample_Rel (Some "/home/u/proj") sample_spare.

(** One level variable, at Info; no handler yet. *)
Definition sample_world : World := mkWorld [LevelInfo] [] [] [] ∅.

(** Sample rules: an elevation with an output level, a later rule on the
    same key, a rule on a key the sample records lack, a rule that expires
    at instant 5, and a rule that matches every [job_id]. *)
Definition rule_first : LogFilter :=
  mkLogFilter "job_id" "job_*" "debug" "info" true None.
Definition rule_second : LogFilter :=
  mkLogFilter "job_id" "job_123" "warn" "" true None.
Definition rule_user : LogFilter :=
  mkLogFilter "user_id" "u*" "error" "" true None.
Definition rule_expiring : LogFilter :=
  mkLogFilter "job_id" "*" "debug" "" true (Some 5%Z).
Definition rule_any : LogFilter :=
  mkLogFilter "job_id" "*" "debug" "" true None.

(** A Debug record with [job_id=job_123] and no program counter. *)
Definition sample_record : slog_Record :=
  mkRecord 100%Z "processing" LevelDebug 0%Z
           [mkAttr "job_id" (StringValue "job_123")].

(** The same with [job_id=other]. *)
Definition other_record : slog_Record :=
  mkRecord 100%Z "processing" LevelDebug 0%Z
           [mkAttr "job_id" (StringValue "other")].

(** A fresh handler, at address 0 of [sample_handler_world]. *)
Definition sample_handler_world : World :=
  fst (NewHandler sample_rt sample_world (Sink 0) 0).

(** The scenario of child loggers made before the filters are set:
    [h := NewHandler(...)], [d := h.WithAttrs(component=api)] (address 1),
    [g := h.WithGroup("req")] (address 2), then [h.SetFilters([rule_any])]
    at instant 10. *)
Definition derived_then_set : World :=
  let w := sample_handler_world in
  let '(w, _) := WithAttrs sample_rt w 0 [mkAttr "component" (StringValue "api")] in
  let '(w, _) := WithGroup w 0 "req" in
  SetFilters w 0 [rule_any] 10%Z.

(** The scenario of two handlers appending into one backing array:
    [h.SetFilters([rule_first, rule_second])], [h.RemoveFilter] of the
    first (which leaves [h.filters] with length 1 and capacity 2),
    [d := h.WithAttrs(component=api)], [h.AddFilter(rule_user)] at instant
    10 ([shared_array_before]), then [d.AddFilter(rule_any)] at instant 15
    ([shared_array_run]). *)
Definition shared_array_before : World :=
  let w := sample_handler_world in
  let w := SetFilters w 0 [rule_first; rule_second] 1%Z in
  let w := RemoveFilter w 0 "job_id" "job_*" 2%Z in
  let '(w, _) := WithAttrs sample_rt w 0 [mkAttr "component" (StringValue "api")] in
  mutate sample_rt w 0 (DoAddFilter rule_user) 10%Z.

Definition shared_array_run : World :=
  AddFilter sample_rt shared_array_before 1 rule_any 15%Z.

(** The sample handler after [SetFilters] at instant 10: with one rule at
    Warn, and with a rule that misses the sample record ahead of two that
    match it. *)
Definition world_warn : World :=
  mutate sample_rt sample_handler_world 0 (DoSetFilters [rule_second]) 10%Z.
Definition world_three : World :=
  SetFilters sample_handler_world 0 [rule_user; rule_first; rule_second] 10%Z.

(** ** Well-formed stores *)

(** A slice header fits the store: it is empty with no capacity, or its
    array is there and is at least as long as the capacity. *)
Definition slice_ok {A} (arrays : list (list A)) (s : Slice) : Prop :=
  (len s = 0 ∧ cap s = 0)
  ∨ ∃ arr, arrays !! base s = Some arr ∧ len s ≤ cap s ∧ cap s ≤ length arr.

Definition World_ok (w : World) : Prop :=
  ∀ h hd, handlers w !! h = Some hd →
    slice_ok (filterArrays w) (filters hd)
    ∧ slice_ok (attrArrays w) (preformattedAttrs hd).

(** [arrays'] keeps every array of [arrays], at its address and length. *)
Definition extends {A} (arrays arrays' : list (list A)) : Prop :=
  ∀ b arr, arrays !! b = Some arr →
    ∃ arr', arrays' !! b = Some arr' ∧ length arr' = length arr.

(** The worlds a program gets to through the package's operations, from a
    start with level variables only. *)
Inductive Reachable (rt : Runtime) : World -> Prop :=
  | reach_start levels :
      Reachable rt (mkWorld levels [] [] [] ∅)
  | reach_NewHandler w sink lv :
      Reachable rt w -> Reachable rt (fst (NewHandler rt w sink lv))
  | reach_mutate w h m now :
      Reachable rt w -> h < length (handlers w) ->
      Reachable rt (mutate rt w h m now)
  | reach_WithAttrs w h attrs :
      Reachable rt w -> h < length (handlers w) ->
      Reachable rt (fst (WithAttrs rt w h attrs))
  | reach_WithGroup w h name :
      Reachable rt w -> h < length (handlers w) ->
      Reachable rt (fst (WithGroup w h name))
  | reach_SetLevel w lv level :
      Reachable rt w -> Reachable rt (SetLevel w lv level)
  | reach_Register w key extractor :
      Reachable rt w -> Reachable rt (RegisterContextExtractor w key extractor)
  | reach_Unregister w key :
      Reachable rt w -> Reachable rt (UnregisterContextExtractor w key).

(** ** Handlers whose cache is in date *)

(** [writes_into w k h]: an [append] of one element to [k.filters] stays
    in place and lands inside what [h.filters] shows: [k]'s header has
    spare capacity, both headers name one array and [k]'s is the shorter. *)
Definition writes_into (w : World) (k h : nat) : Prop :=
  base (filters (deref w k)) = base (filters (deref w h))
  ∧ len (filters (deref w k)) < len (filters (deref w h))
  ∧ len (filters (deref w k)) < cap (filters (deref w k)).

(** [CachedAt rt t0 w h]: in [w], the cached values of handler [h] were
    computed by a mutating operation at [t0], on [h] itself or on the
    handler it was derived from, and nothing has written the filters [h]
    shows since: derivations, new handlers, level and registry changes, and
    mutations of other handlers are allowed, but for an [AddFilter] that
    would write into [h]'s list. *)
Inductive CachedAt (rt : Runtime) (t0 : Time) : World -> nat -> Prop :=
  | cached_mutate w h m :
      Reachable rt w -> h < length (handlers w) ->
      CachedAt rt t0 (mutate rt w h m t0) h
  | cached_other w h k m now :
      CachedAt rt t0 w h -> k < length (handlers w) -> k ≠ h ->
      (forall f, m = DoAddFilter f -> ¬ writes_into w k h) ->
      CachedAt rt t0 (mutate rt w k m now) h
  | cached_WithAttrs w h k attrs :
      CachedAt rt t0 w h -> k < length (handlers w) ->
      CachedAt rt t0 (fst (WithAttrs rt w k attrs)) h
  | cached_WithAttrs_new w h attrs :
      CachedAt rt t0 w h ->
      CachedAt rt t0 (fst (WithAttrs rt w h attrs)) (snd (WithAttrs rt w h attrs))
  | cached_WithGroup w h k name :
      CachedAt rt t0 w h -> k < length (handlers w) ->
      CachedAt rt t0 (fst (WithGroup w k name)) h
  | cached_WithGroup_new w h name :
      CachedAt rt t0 w h ->
      CachedAt rt t0 (fst (WithGroup w h name)) (snd (WithGroup w h name))
  | cached_NewHandler w h sink lv :
      CachedAt rt t0 w h ->
      CachedAt rt t0 (fst (NewHandler rt w sink lv)) h
  | cached_SetLevel w h lv level :
      CachedAt rt t0 w h ->
      CachedAt rt t0 (SetLevel w lv level) h
  | cached_Register w h key extractor :
      CachedAt rt t0 w h ->
      CachedAt rt t0 (RegisterContextExtractor w key extractor) h
  | cached_Unregister w h key :
      CachedAt rt t0 w h ->
      CachedAt rt t0 (UnregisterContextExtractor w key) h.

(** What a cache computed at [t0] guarantees about the filters the handler
    holds. *)
Definition CacheCovers (t0 : Time) (w : World) (h : nat) : Prop :=
  h < length (handlers w)
  /\ (forall f, f ∈ filtersOf w h -> IsActive t0 f = true ->
        (lowestLevel (deref w h) <= ParseLevel (Level f))%Z)
  /\ (forall f, f ∈ filtersOf w h -> IsActive t0 f = true ->
        IsSourceFilter f = true -> hasSourceFilters (deref w h) = true).

(** The filter list each mutating operation is to leave behind. *)
Definition filters_after (m : Mutation) (old : list LogFilter) : list LogFilter :=
  match m with
  | DoSetFilters fs => fs
  | DoAddFilter f => old ++ [f]
  | DoRemoveFilter t p =>
      List.filter (λ f, negb (String.eqb (Type_ f) t && String.eqb (Pattern f) p)) old
  | DoClearFilters => []
  end.

(** ** [context.go], the rest of the registry *)

Definition ClearContextExtractors (w : World) : World :=
  mkWorld (levelVars w) (filterArrays w) (attrArrays w) (handlers w) ∅.

(** [ContextExtractorKeys]: the keys of the map, in the order the map
    yields them (Go promises none). *)
Definition ContextExtractorKeys (w : World) : list string :=
  (map_to_list (contextExtractors w)).*1.

(** ** [logfilter.go]: options, the default handler and the global
    functions *)

(** The [options] struct; [opt_output] names the writer (0 is
    [os.Stdout]). *)
Record options := mkOptions {
  opt_level : slog_Level;
  opt_format : string;
  opt_output : nat;
  opt_source : bool;
  opt_workDir : string;
  opt_filters : list LogFilter
}.

(** An [Option] is one of the five functions the package exports. *)
Inductive Option :=
  | WithLevel (level : slog_Level)
  | WithFormat (format : string)
  | WithOutput (w : nat)
  | WithSource (enabled : bool)
  | WithFilters (filters : list LogFilter).

(** [opt(o)] *)
Definition applyOption (o : options) (opt : Option) : options :=
  match opt with
  | WithLevel level =>
      mkOptions level (opt_format o) (opt_output o) (opt_source o)
                (opt_workDir o) (opt_filters o)
  | WithFormat format =>
      mkOptions (opt_level o) format (opt_output o) (opt_source o)
                (opt_workDir o) (opt_filters o)
  | WithOutput w =>
      mkOptions (opt_level o) (opt_format o) w (opt_source o)
                (opt_workDir o) (opt_filters o)
  | WithSource enabled =>
      mkOptions (opt_level o) (opt_format o) (opt_output o) enabled
                (opt_workDir o) (opt_filters o)
  | WithFilters filters =>
      mkOptions (opt_level o) (opt_format o) (opt_output o) (opt_source o)
                (opt_workDir o) filters
  end.

(** The inner handlers [New] builds: [slog.NewTextHandler] and
    [slog.NewJSONHandler] on the writer [out]. *)
Definition NewTextHandler (out : nat) : Inner := Sink (2 * out + 1).
Definition NewJSONHandler (out : nat) : Inner := Sink (2 * out).

(** The package-level variables beside the registry: [defaultHandler]
    ([None] is nil) and the address of [defaultLevel]. *)
Record Package := mkPackage {
  world : World;
  defaultHandler : option nat;
  defaultLevel : nat
}.

(** The package as it is initialised: one level variable, at its zero
    value Info, no handler, an empty registry. *)
Definition initial_package : Package :=
  mkPackage (mkWorld [LevelInfo] [] [] [] ∅) None 0.

(** Lines 111-121 of [New]: the defaults, then the options in the order
    given.  ([os.Getwd] is read off [filepath.Abs(".")].) *)
Definition defaultOptions (rt : Runtime) : options :=
  mkOptions LevelInfo "json" 0 true
            (match filepath_Abs_dot rt with Some wd => wd | None => "" end) [].

Definition resolveOptions (rt : Runtime) (opts : list Option) : options :=
  fold_left applyOption opts (defaultOptions rt).

Module Logfilter.

(** [New], with the reading of the clock that [SetFilters] takes; the
    result is the package and the handler of the returned logger. *)
Definition New (rt : Runtime) (p : Package) (opts : list Option) (now : Time)
  : Package * nat :=
  let o := resolveOptions rt opts in
  let w := SetLevel (world p) (defaultLevel p) (opt_level o) in
  let inner :=
    if String.eqb (opt_format o) "text" then NewTextHandler (opt_output o)
    else NewJSONHandler (opt_output o) in
  let '(w, handler) := NewHandler rt w inner (defaultLevel p) in
  let w :=
    if (0 <? length (opt_filters o))%nat
    then SetFilters w handler (opt_filters o) now else w in
  (mkPackage w (Some handler) (defaultLevel p), handler).

Definition SetLevel (p : Package) (level : slog_Level) : Package :=
  mkPackage (SetLevel (world p) (defaultLevel p) level)
            (defaultHandler p) (defaultLevel p).

Definition GetLevel (p : Package) : slog_Level :=
  default 0%Z (levelVars (world p) !! defaultLevel p).

Definition SetFilters (p : Package) (filters : list LogFilter) (now : Time)
  : Package :=
  match defaultHandler p with
  | Some h => mkPackage (SetFilters (world p) h filters now)
                        (defaultHandler p) (defaultLevel p)
  | None => p
  end.

Definition GetFilters (p : Package) : list LogFilter :=
  match defaultHandler p with
  | Some h => GetFilters (world p) h
  | None => []
  end.

Definition AddFilter (rt : Runtime) (p : Package) (filter : LogFilter)
    (now : Time) : Package :=
  match defaultHandler p with
  | Some h => mkPackage (AddFilter rt (world p) h filter now)
                        (defaultHandler p) (defaultLevel p)
  | None => p
  end.

Definition RemoveFilter (p : Package) (filterType pattern : string)
    (now : Time) : Package :=
  match defaultHandler p with
  | Some h => mkPackage (RemoveFilter (world p) h filterType pattern now)
                        (defaultHandler p) (defaultLevel p)
  | None => p
  end.

Definition ClearFilters (p : Package) : Package :=
  match defaultHandler p with
  | Some h => mkPackage (ClearFilters (world p) h)
                        (defaultHandler p) (defaultLevel p)
  | None => p
  end.

Definition GetHandler (p : Package) : option nat := defaultHandler p.

End Logfilter.

(** One of the four global filter operations. *)
Definition global (rt : Runtime) (p : Package) (m : Mutation) (now : Time)
  : Package :=
  match m with
  | DoSetFilters fs => Logfilter.SetFilters p fs now
  | DoAddFilter f => Logfilter.AddFilter rt p f now
  | DoRemoveFilter t pat => Logfilter.RemoveFilter p t pat now
  | DoClearFilters => Logfilter.ClearFilters p
  end.

(** A package state the program can be in: a reachable world in which the
    default level is allocated and the default handler, if any, is
    allocated and reads the default level. *)
Definition Package_ok (rt : Runtime) (p : Package) : Prop :=
  Reachable rt (world p)
  ∧ (∀ h, defaultHandler p = Some h →
       h < length (handlers (world p))
       ∧ globalLevel (deref (world p) h) = defaultLevel p)
  ∧ defaultLevel p < length (levelVars (world p)).

(** [r] with the attributes [attrs] ahead of its own. *)
Definition prependAttrs (attrs : list Attr) (r : slog_Record) : slog_Record :=
  mkRecord (r_Time r) (r_Message r) (r_Level r) (r_PC r) (attrs ++ r_Attrs r).

(** The outcome, seen from the sink [WithGroup] derives. *)
Definition underGroup (name : string) (o : Outcome) : Outcome :=
  match o with
  | Suppress => Suppress
  | Forward sink ctx r => Forward (Inner_WithGroup sink name) ctx r
  end.

(** The package after [New(WithLevel(Warn), WithFilters([rule_first]))] at
    instant 10, and after a second [New()] at instant 11. *)
Definition sample_package : Package :=
  fst (Logfilter.New sample_rt initial_package
         [WithLevel LevelWarn; WithFilters [rule_first]] 10%Z).

Definition sample_package_again : Package :=
  fst (Logfilter.New sample_rt sample_package [] 11%Z).

(** What an option sets, field by field. *)
Definition level_of (o : Option) : option slog_Level :=
  match o with WithLevel level => Some level | _ => None end.
Definition format_of (o : Option) : option string :=
  match o with WithFormat format => Some format | _ => None end.
Definition output_of (o : Option) : option nat :=
  match o with WithOutput w => Some w | _ => None end.
Definition filters_of (o : Option) : option (list LogFilter) :=
  match o with WithFilters filters => Some filters | _ => None end.

(** [last_of sel dflt opts v]: [v] is what the last option of [opts] that
    sets the field gives it, or the default when no option sets it. *)
Definition last_of {A} (sel : Option -> option A) (dflt : A)
    (opts : list Option) (v : A) : Prop :=
  (∃ pre o post, opts = pre ++ o :: post ∧ sel o = Some v
                 ∧ Forall (λ o', sel o' = None) post)
  ∨ (Forall (λ o, sel o = None) opts ∧ v = dflt).

(** A call of one of the package-level functions that change the filters
    or the level. *)
Inductive PackageOp :=
  | FilterOp (m : Mutation) (now : Time)
  | LevelOp (level : slog_Level).

Definition apply_op (rt : Runtime) (p : Package) (op : PackageOp) : Package :=
  match op with
  | FilterOp m now => global rt p m now
  | LevelOp level => Logfilter.SetLevel p level
  end.

(** A run of such calls, in order. *)
Definition run_ops (rt : Runtime) (p : Package) (ops : list PackageOp)
  : Package :=
  fold_left (apply_op rt) ops p.

(** [apart w k h]: no [append] to [k.filters] can write into what
    [h.filters] shows. *)
Definition apart (w : World) (k h : nat) : Prop :=
  len (filters (deref w h)) = 0
  ∨ cap (filters (deref w k)) = 0
  ∨ base (filters (deref w k)) ≠ base (filters (deref w h)).

(** [detached rt p0 h1 q]: in the package state [q], the handler [h1] of
    the state [p0] is not the default handler, is as it was in [p0], and
    is out of reach of an [append] by the default handler. *)
Definition detached (rt : Runtime) (p0 : Package) (h1 : nat) (q : Package)
  : Prop :=
  Package_ok rt q
  ∧ (∃ h2, defaultHandler q = Some h2 ∧ h2 ≠ h1 ∧ apart (world q) h2 h1)
  ∧ defaultLevel q = defaultLevel p0
  ∧ h1 < length (handlers (world q))
  ∧ deref (world q) h1 = deref (world p0) h1
  ∧ filtersOf (world q) h1 = filtersOf (world p0) h1
  ∧ attrArrays (world q) = attrArrays (world p0)
  ∧ contextExtractors (world q) = contextExtractors (world p0)
  ∧ levelVars (world q)
    = <[defaultLevel p0 := Logfilter.GetLevel q]> (levelVars (world p0)).

(** ** Facts about the string functions *)

Module StringFacts.
Import Strings.
Local Arguments String.append _ _ : simpl nomatch.

Lemma str_app_nil_r (s : string) : s +:+ "" = s.
Proof. induction s as [|c s IH]; simpl; [done | by f_equal]. Qed.

Lemma str_app_assoc (a b c : string) : (a +:+ b) +:+ c = a +:+ (b +:+ c).
Proof. induction a as [|x a IH]; simpl; [done | by f_equal]. Qed.

Lemma str_length_app (a b : string) :
  String.length (a +:+ b) = String.length a + String.length b.
Proof. induction a as [|x a IH]; simpl; [done | by f_equal]. Qed.

Lemma str_length_zero (s : string) : String.length s = 0 → s = "".
Proof. by destruct s. Qed.

Lemma upto_app (a b : string) : upto (String.length a) (a +:+ b) = a.
Proof. induction a as [|x a IH]; simpl; [by destruct b | by f_equal]. Qed.

Lemma from_app (a b : string) : from (String.length a) (a +:+ b) = b.
Proof. induction a as [|x a IH]; simpl; done. Qed.

Lemma upto_from (n : nat) (s : string) : upto n s +:+ from n s = s.
Proof.
  revert s; induction n as [|n IH]; intros [|c s]; simpl; try done.
  by f_equal.
Qed.

Lemma length_upto (n : nat) (s : string) :
  n ≤ String.length s → String.length (upto n s) = n.
Proof.
  revert s; induction n as [|n IH]; intros [|c s]; simpl; try lia; try done.
  intros H. rewrite IH; lia.
Qed.

Lemma length_from (n : nat) (s : string) :
  String.length (from n s) = String.length s - n.
Proof.
  revert s; induction n as [|n IH]; intros [|c s]; simpl; try done.
Qed.

Lemma str_app_inv_l (a b c : string) : a +:+ b = a +:+ c → b = c.
Proof. induction a as [|x a IH]; simpl; [done | intros [= H]; auto]. Qed.

Lemma str_app_inv_length (a b c d : string) :
  String.length a = String.length c → a +:+ b = c +:+ d → a = c ∧ b = d.
Proof.
  revert c; induction a as [|x a IH]; intros [|y c]; simpl; try done.
  intros [= Hl] [= -> H]. destruct (IH _ Hl H) as [-> ->]. done.
Qed.

Lemma str_app_inv_r (a b c : string) : a +:+ c = b +:+ c → a = b.
Proof.
  intros H. assert (String.length a = String.length b) as Hl.
  { apply (f_equal String.length) in H. rewrite !str_length_app in H. lia. }
  by destruct (str_app_inv_length _ _ _ _ Hl H).
Qed.

Lemma HasPrefix_spec (s p : string) :
  HasPrefix s p = true ↔ ∃ r, s = p +:+ r.
Proof.
  unfold HasPrefix. rewrite andb_true_iff, Nat.leb_le, String.eqb_eq. split.
  - intros [_ H]. exists (from (String.length p) s).
    pose proof (upto_from (String.length p) s) as E. by rewrite H in E.
  - intros [r ->]. rewrite str_length_app, upto_app. split; [lia | done].
Qed.

Lemma HasSuffix_spec (s q : string) :
  HasSuffix s q = true ↔ ∃ l, s = l +:+ q.
Proof.
  unfold HasSuffix. rewrite andb_true_iff, Nat.leb_le, String.eqb_eq. split.
  - intros [_ H]. exists (upto (String.length s - String.length q) s).
    pose proof (upto_from (String.length s - String.length q) s) as E.
    by rewrite H in E.
  - intros [l ->]. rewrite str_length_app.
    replace (String.length l + String.length q - String.length q)
      with (String.length l) by lia.
    rewrite from_app. split; [lia | done].
Qed.

Lemma HasPrefix_false (s p : string) :
  HasPrefix s p = false ↔ ¬ ∃ r, s = p +:+ r.
Proof. rewrite <- HasPrefix_spec. by destruct (HasPrefix s p). Qed.

Lemma HasSuffix_false (s q : string) :
  HasSuffix s q = false ↔ ¬ ∃ l, s = l +:+ q.
Proof. rewrite <- HasSuffix_spec. by destruct (HasSuffix s q). Qed.

Lemma TrimPrefix_app (p r : string) : TrimPrefix (p +:+ r) p = r.
Proof.
  unfold TrimPrefix.
  assert (HasPrefix (p +:+ r) p = true) as -> by (apply HasPrefix_spec; eauto).
  apply from_app.
Qed.

Lemma TrimSuffix_app (l q : string) : TrimSuffix (l +:+ q) q = l.
Proof.
  unfold TrimSuffix.
  assert (HasSuffix (l +:+ q) q = true) as -> by (apply HasSuffix_spec; eauto).
  rewrite str_length_app.
  replace (String.length l + String.length q - String.length q)
    with (String.length l) by lia.
  apply upto_app.
Qed.

Lemma Index_nonneg_iff (s m : string) :
  (0 ≤ Index s m)%Z ↔ ∃ l r, s = l +:+ m +:+ r.
Proof.
  induction s as [|c s IH]; simpl.
  - destruct (HasPrefix "" m) eqn:E.
    + split; [intros _ | lia]. apply HasPrefix_spec in E as [r E].
      by exists "", r.
    + split; [lia |]. intros (l & r & H). apply HasPrefix_false in E.
      destruct E. destruct l; [by exists r | done].
  - destruct (HasPrefix (String c s) m) eqn:E.
    + split; [intros _ | lia]. apply HasPrefix_spec in E as [r E].
      by exists "", r.
    + destruct (Z.ltb_spec (Index s m) 0) as [Hn|Hn].
      * split; [lia |]. intros (l & r & H). apply HasPrefix_false in E.
        destruct l as [|x l]; [destruct E; by exists r |].
        simpl in H. injection H as -> H.
        assert (0 ≤ Index s m)%Z by (apply IH; eauto). lia.
      * split; [intros _ | lia]. apply IH in Hn as (l & r & ->).
        by exists (String c l), r.
Qed.

Lemma Contains_spec (s m : string) :
  Contains s m = true ↔ ∃ l r, s = l +:+ m +:+ r.
Proof. unfold Contains. by rewrite Z.leb_le, Index_nonneg_iff. Qed.
End StringFacts.

Module IndexFacts.
Import Strings StringFacts.
Local Arguments String.append _ _ : simpl nomatch.

Lemma has_byte_cons (c d : ascii) (s : string) :
  has_byte c (String d s) ↔ c = d ∨ has_byte c s.
Proof.
  split.
  - intros ([|x l] & r & E); simpl in E; injection E as -> ->.
    + by left.
    + right. by exists l, r.
  - intros [-> | (l & r & ->)].
    + by exists "", s.
    + by exists (String d l), r.
Qed.

Lemma has_byte_nil (c : ascii) : ¬ has_byte c "".
Proof. intros ([|x l] & r & E); discriminate E. Qed.

Lemma has_byte_app (c : ascii) (a b : string) :
  has_byte c (a +:+ b) ↔ has_byte c a ∨ has_byte c b.
Proof.
  induction a as [|x a IH]; simpl.
  - split; [by right | intros [H | H]; [by apply has_byte_nil in H | done]].
  - rewrite !has_byte_cons, IH. tauto.
Qed.

Lemma HasPrefix_byte (c d : ascii) (s : string) :
  HasPrefix (String d s) (String c "") = true ↔ c = d.
Proof.
  rewrite HasPrefix_spec. split.
  - intros [r E]. by injection E.
  - intros ->. by exists s.
Qed.

Lemma HasPrefix_byte_nil (c : ascii) : HasPrefix "" (String c "") = false.
Proof. reflexivity. Qed.

Lemma LastIndex_absent (c : ascii) (s : string) :
  ¬ has_byte c s → LastIndex s (String c "") = (-1)%Z.
Proof.
  induction s as [|x s IH]; intros Hs; [done |].
  rewrite has_byte_cons in Hs.
  cbn [LastIndex]. rewrite IH by tauto. simpl.
  destruct (HasPrefix (String x s) (String c "")) eqn:E; [| done].
  apply HasPrefix_byte in E. tauto.
Qed.

Lemma LastIndex_last (c : ascii) (a t : string) :
  ¬ has_byte c t →
  LastIndex (a +:+ String c t) (String c "") = Z.of_nat (String.length a).
Proof.
  intros Ht. induction a as [|x a IH].
  - cbn [String.append LastIndex]. rewrite LastIndex_absent by done. simpl.
    by rewrite (proj2 (HasPrefix_byte c c t) eq_refl).
  - cbn [String.append LastIndex String.length]. rewrite IH.
    destruct (Z.leb_spec 0 (Z.of_nat (String.length a))); lia.
Qed.

Lemma Index_range (s m : string) : Index s m = (-1)%Z ∨ (0 ≤ Index s m)%Z.
Proof.
  induction s as [|x s IH]; simpl.
  - destruct (HasPrefix "" m); auto. right; lia.
  - destruct (HasPrefix (String x s) m); [right; lia |].
    destruct (Z.ltb_spec (Index s m) 0); [by left | right; lia].
Qed.

Lemma Index_absent (c : ascii) (s : string) :
  ¬ has_byte c s → Index s (String c "") = (-1)%Z.
Proof.
  intros Hs. destruct (Index_range s (String c "")) as [? | H]; [done |].
  apply Index_nonneg_iff in H as (l & r & ->). destruct Hs. by exists l, r.
Qed.

Lemma Index_first (c : ascii) (a r : string) :
  ¬ has_byte c a →
  Index (a +:+ String c r) (String c "") = Z.of_nat (String.length a).
Proof.
  induction a as [|x a IH]; intros Ha.
  - cbn [String.append Index].
    by rewrite (proj2 (HasPrefix_byte c c r) eq_refl).
  - rewrite has_byte_cons in Ha.
    cbn [String.append Index String.length].
    destruct (HasPrefix (String x (a +:+ String c r)) (String c "")) eqn:E.
    + apply HasPrefix_byte in E. tauto.
    + rewrite IH by tauto.
      destruct (Z.ltb_spec (Z.of_nat (String.length a)) 0); lia.
Qed.
End IndexFacts.

(** ** The pattern matcher *)

Import StringFacts.

Lemma eqb_false_of_ne (a b : string) : a ≠ b → String.eqb a b = false.
Proof. by intros; apply String.eqb_neq. Qed.

Lemma matchPattern_unfold (p v : string) :
  p ≠ "" →
  matchPattern p v =
    if Strings.HasPrefix p "*" && Strings.HasSuffix p "*" then
      if String.eqb (Strings.TrimSuffix (Strings.TrimPrefix p "*") "*") ""
      then true
      else Strings.Contains v (Strings.TrimSuffix (Strings.TrimPrefix p "*") "*")
    else if Strings.HasSuffix p "*" then
      Strings.HasPrefix v (Strings.TrimSuffix p "*")
    else if Strings.HasPrefix p "*" then
      Strings.HasSuffix v (Strings.TrimPrefix p "*")
    else String.eqb p v.
Proof. intros H. unfold matchPattern. by rewrite (eqb_false_of_ne _ _ H). Qed.

(** C5. The matcher, case by case: an empty pattern matches nothing; a
    pattern with no wildcard at either end matches exactly itself; with a
    wildcard only at its end it matches the values that begin with the rest;
    with a wildcard only at its front, the values that end with the rest;
    with a wildcard at both ends and a non-empty middle, the values that
    contain the middle; and "*" and "**" match every value, the empty one
    included. *)
Theorem matchPattern_semantics (p v : string) :
  (p = "" → matchPattern p v = false)
  ∧ (p ≠ "" → ¬ leading_star p → ¬ trailing_star p →
     (matchPattern p v = true ↔ p = v))
  ∧ (∀ q, p = q +:+ "*" → ¬ leading_star p →
     (matchPattern p v = true ↔ ∃ r, v = q +:+ r))
  ∧ (∀ q, p = "*" +:+ q → ¬ trailing_star p →
     (matchPattern p v = true ↔ ∃ l, v = l +:+ q))
  ∧ (∀ m, p = "*" +:+ m +:+ "*" → m ≠ "" →
     (matchPattern p v = true ↔ ∃ l r, v = l +:+ m +:+ r))
  ∧ (p = "*" ∨ p = "**" → matchPattern p v = true).
Proof.
  assert (Hne : ∀ a b : string, b ≠ "" → a +:+ b ≠ "").
  { intros a b Hb E. apply (f_equal String.length) in E.
    rewrite str_length_app in E. destruct b; [done | simpl in E; lia]. }
  split; [by intros -> |].
  split.
  { intros Hp Hl Ht. rewrite matchPattern_unfold by done.
    apply HasPrefix_false in Hl as ->. apply HasSuffix_false in Ht as ->.
    simpl. apply String.eqb_eq. }
  split.
  { intros q -> Hl. rewrite matchPattern_unfold by (by apply Hne).
    apply HasPrefix_false in Hl as ->.
    assert (Strings.HasSuffix (q +:+ "*") "*" = true) as ->
      by (apply HasSuffix_spec; eauto).
    simpl. rewrite TrimSuffix_app. apply HasPrefix_spec. }
  split.
  { intros q -> Ht.
    rewrite matchPattern_unfold by (by destruct q).
    apply HasSuffix_false in Ht as ->.
    assert (Strings.HasPrefix ("*" +:+ q) "*" = true) as ->
      by (apply HasPrefix_spec; eauto).
    simpl. rewrite TrimPrefix_app. apply HasSuffix_spec. }
  split.
  { intros m -> Hm. rewrite matchPattern_unfold by done.
    assert (Strings.HasPrefix ("*" +:+ m +:+ "*") "*" = true) as ->
      by (apply HasPrefix_spec; eauto).
    assert (Strings.HasSuffix ("*" +:+ m +:+ "*") "*" = true) as ->.
    { apply HasSuffix_spec. exists ("*" +:+ m). by rewrite str_app_assoc. }
    simpl. rewrite TrimPrefix_app, TrimSuffix_app.
    rewrite (eqb_false_of_ne _ _ Hm). apply Contains_spec. }
  intros [-> | ->]; reflexivity.
Qed.

(** ** Level parsing *)

(** *** Bytes and runes *)

Module Utf8Facts.
Import Strings Utf8 StringFacts.
Local Open Scope Z_scope.
Local Arguments String.append _ _ : simpl nomatch.

Lemma byte_range (c : ascii) : 0 ≤ byte c < 256.
Proof. unfold byte. pose proof (nat_ascii_bounded c). lia. Qed.

Lemma to_byte_byte (c : ascii) : to_byte (byte c) = c.
Proof.
  unfold to_byte. rewrite Z.mod_small by apply byte_range.
  unfold byte. rewrite Nat2Z.id. apply ascii_nat_embedding.
Qed.

Lemma byte_to_byte (b : Z) : 0 ≤ b < 256 → byte (to_byte b) = b.
Proof.
  intros Hb. unfold to_byte, byte. rewrite Z.mod_small by done.
  rewrite nat_ascii_embedding by lia. lia.
Qed.

Lemma byte_inj (c d : ascii) : byte c = byte d → c = d.
Proof. intros E. by rewrite <- (to_byte_byte c), E, to_byte_byte. Qed.

(** [x | y] is [x + y] when [y] fits under the multiple [x] of [2^k]. *)
Lemma lor_mul_add (a b k : Z) :
  0 ≤ k → 0 ≤ b < 2 ^ k → Z.lor (a * 2 ^ k) b = a * 2 ^ k + b.
Proof.
  intros Hk Hb.
  assert (Z.land (a * 2 ^ k) b = 0) as Hland.
  { apply Z.bits_inj'. intros n Hn. rewrite Z.land_spec, Z.bits_0.
    destruct (Z.lt_ge_cases n k) as [Hlt | Hge].
    - by rewrite Z.mul_pow2_bits_low.
    - destruct (Z.eq_dec b 0) as [-> | Hnz];
        [by rewrite Z.bits_0, andb_false_r |].
      rewrite (Z.bits_above_log2 b n), andb_false_r; [done | lia |].
      apply Z.log2_lt_pow2; [lia |].
      apply Z.lt_le_trans with (2 ^ k); [lia |].
      apply Z.pow_le_mono_r; lia. }
  rewrite <- Z.lxor_lor by done. symmetry. by apply Z.add_nocarry_lxor.
Qed.

Lemma land_mask (a k : Z) : 0 ≤ k → Z.land a (2 ^ k - 1) = a mod 2 ^ k.
Proof.
  intros Hk. rewrite <- Z.land_ones by done. f_equal.
  rewrite Z.ones_equiv. lia.
Qed.

(** The bit operations of the decoder and the encoder, as arithmetic. *)
Ltac bits :=
  change 0x1F with (2 ^ 5 - 1) in *; change 0x0F with (2 ^ 4 - 1) in *;
  change 0x07 with (2 ^ 3 - 1) in *; change 0x3F with (2 ^ 6 - 1) in *;
  rewrite ?land_mask in * by lia;
  rewrite ?Z.shiftl_mul_pow2, ?Z.shiftr_div_pow2 in * by lia.

Lemma decode2 (b0 b1 : Z) :
  0xC2 ≤ b0 ≤ 0xDF → 0x80 ≤ b1 ≤ 0xBF →
  Z.lor (Z.shiftl (Z.land b0 0x1F) 6) (Z.land b1 0x3F)
  = (b0 - 0xC0) * 64 + (b1 - 0x80).
Proof.
  intros H0 H1. bits.
  rewrite lor_mul_add by (try apply Z.mod_pos_bound; lia).
  change (2 ^ 6) with 64. change (2 ^ 5) with 32.
  Z.div_mod_to_equations. lia.
Qed.

Lemma decode3 (b0 b1 b2 : Z) :
  0xE0 ≤ b0 ≤ 0xEF → 0x80 ≤ b1 ≤ 0xBF → 0x80 ≤ b2 ≤ 0xBF →
  Z.lor (Z.lor (Z.shiftl (Z.land b0 0x0F) 12) (Z.shiftl (Z.land b1 0x3F) 6))
        (Z.land b2 0x3F)
  = (b0 - 0xE0) * 4096 + (b1 - 0x80) * 64 + (b2 - 0x80).
Proof.
  intros H0 H1 H2. bits.
  assert (b0 mod 2 ^ 4 = b0 - 0xE0) as -> by (Z.div_mod_to_equations; lia).
  assert (b1 mod 2 ^ 6 = b1 - 0x80) as -> by (Z.div_mod_to_equations; lia).
  assert (b2 mod 2 ^ 6 = b2 - 0x80) as -> by (Z.div_mod_to_equations; lia).
  rewrite (lor_mul_add (b0 - 0xE0) _ 12) by lia.
  replace ((b0 - 0xE0) * 2 ^ 12 + (b1 - 0x80) * 2 ^ 6)
    with (((b0 - 0xE0) * 64 + (b1 - 0x80)) * 2 ^ 6) by lia.
  rewrite lor_mul_add by lia. lia.
Qed.

Lemma decode4 (b0 b1 b2 b3 : Z) :
  0xF0 ≤ b0 ≤ 0xF4 → 0x80 ≤ b1 ≤ 0xBF → 0x80 ≤ b2 ≤ 0xBF →
  0x80 ≤ b3 ≤ 0xBF →
  Z.lor (Z.lor (Z.lor (Z.shiftl (Z.land b0 0x07) 18)
                      (Z.shiftl (Z.land b1 0x3F) 12))
               (Z.shiftl (Z.land b2 0x3F) 6))
        (Z.land b3 0x3F)
  = (b0 - 0xF0) * 262144 + (b1 - 0x80) * 4096 + (b2 - 0x80) * 64 + (b3 - 0x80).
Proof.
  intros H0 H1 H2 H3. bits.
  assert (b0 mod 2 ^ 3 = b0 - 0xF0) as -> by (Z.div_mod_to_equations; lia).
  assert (b1 mod 2 ^ 6 = b1 - 0x80) as -> by (Z.div_mod_to_equations; lia).
  assert (b2 mod 2 ^ 6 = b2 - 0x80) as -> by (Z.div_mod_to_equations; lia).
  assert (b3 mod 2 ^ 6 = b3 - 0x80) as -> by (Z.div_mod_to_equations; lia).
  rewrite (lor_mul_add (b0 - 0xF0) _ 18) by lia.
  replace ((b0 - 0xF0) * 2 ^ 18 + (b1 - 0x80) * 2 ^ 12)
    with (((b0 - 0xF0) * 64 + (b1 - 0x80)) * 2 ^ 12) by lia.
  rewrite (lor_mul_add _ _ 12) by lia.
  replace (((b0 - 0xF0) * 64 + (b1 - 0x80)) * 2 ^ 12 + (b2 - 0x80) * 2 ^ 6)
    with ((((b0 - 0xF0) * 64 + (b1 - 0x80)) * 64 + (b2 - 0x80)) * 2 ^ 6) by lia.
  rewrite lor_mul_add by lia. lia.
Qed.

Lemma first_spec (s0 : Z) (sz : nat) (lo hi : Z) :
  first s0 = Some (sz, lo, hi) →
  0x80 ≤ lo ∧ hi ≤ 0xBF
  ∧ ((sz = 2%nat ∧ 0xC2 ≤ s0 ≤ 0xDF ∧ lo = 0x80 ∧ hi = 0xBF)
     ∨ (sz = 3%nat ∧ 0xE0 ≤ s0 ≤ 0xEF
        ∧ lo = (if s0 =? 0xE0 then 0xA0 else 0x80)
        ∧ hi = (if s0 =? 0xED then 0x9F else 0xBF))
     ∨ (sz = 4%nat ∧ 0xF0 ≤ s0 ≤ 0xF4
        ∧ lo = (if s0 =? 0xF0 then 0x90 else 0x80)
        ∧ hi = (if s0 =? 0xF4 then 0x8F else 0xBF))).
Proof.
  unfold first. intros H.
  repeat match type of H with
         | context [if ?b then _ else _] => destruct b eqn:?
         end; simplify_eq;
    rewrite ?Z.ltb_lt, ?Z.ltb_ge, ?Z.leb_le, ?Z.leb_gt, ?Z.eqb_eq, ?Z.eqb_neq
      in *;
    (split; [lia |]); (split; [lia |]);
    repeat match goal with
           | |- context [?a =? ?b] => destruct (Z.eqb_spec a b); try lia
           end;
    first [ left; repeat split; lia
          | right; left; repeat split; lia
          | right; right; repeat split; lia ].
Qed.

Lemma first_None (s0 : Z) :
  0x80 ≤ s0 < 0xC2 ∨ 0xF5 ≤ s0 → first s0 = None.
Proof.
  intros H. unfold first.
  repeat match goal with
         | |- context [if ?b then _ else _] => destruct b eqn:?
         end; try done;
    rewrite ?Z.ltb_lt, ?Z.ltb_ge, ?Z.leb_le, ?Z.leb_gt, ?Z.eqb_eq, ?Z.eqb_neq
      in *; lia.
Qed.

Lemma continuation_spec (b : Z) : continuation b = true ↔ 0x80 ≤ b ≤ 0xBF.
Proof. unfold continuation. rewrite andb_true_iff, !Z.leb_le. done. Qed.

Lemma DecodeRune_spec (s : string) :
  Decoded s (DecodeRuneInString s).1 (DecodeRuneInString s).2.
Proof.
  destruct s as [|c0 t0]; [constructor |]. unfold DecodeRuneInString.
  pose proof (byte_range c0) as R0.
  destruct (Z.ltb_spec (byte c0) RuneSelf) as [Ha | Ha]; unfold RuneSelf in Ha;
    [by constructor |].
  destruct (first (byte c0)) as [[[sz lo] hi]|] eqn:Ef; [| by constructor].
  apply first_spec in Ef as (Hlo & Hhi & Hsz).
  destruct t0 as [|c1 t1]; [by constructor |].
  destruct ((byte c1 <? lo) || (hi <? byte c1)) eqn:Hb; [by constructor |].
  apply orb_false_iff in Hb as [H1%Z.ltb_ge H2%Z.ltb_ge].
  destruct Hsz as [(-> & H0 & -> & ->) | [(-> & H0 & El & Eh) | (-> & H0 & El & Eh)]];
    simpl Nat.leb; cbv iota.
  - rewrite decode2 by lia. by constructor.
  - destruct t1 as [|c2 t2]; [by constructor |].
    destruct (continuation (byte c2)) eqn:E2; simpl negb; cbv iota;
      [| by constructor].
    apply continuation_spec in E2.
    rewrite decode3 by lia.
    constructor; try lia.
    + intros E. rewrite E in El. simpl in El. lia.
    + intros E. rewrite E in Eh. simpl in Eh. lia.
  - destruct t1 as [|c2 t2]; [by constructor |].
    destruct (continuation (byte c2)) eqn:E2; simpl negb; cbv iota;
      [| by constructor].
    apply continuation_spec in E2.
    destruct t2 as [|c3 t3]; [by constructor |].
    destruct (continuation (byte c3)) eqn:E3; simpl negb; cbv iota;
      [| by constructor].
    apply continuation_spec in E3.
    rewrite decode4 by lia.
    constructor; try lia.
    + intros E. rewrite E in El. simpl in El. lia.
    + intros E. rewrite E in Eh. simpl in Eh. lia.
Qed.

Lemma Decode_width (s : string) :
  s ≠ "" →
  (1 ≤ (DecodeRuneInString s).2 ≤ String.length s)%nat
  ∧ ((DecodeRuneInString s).2 ≤ 4)%nat.
Proof.
  intros Hs. destruct (DecodeRune_spec s); simpl; try done; lia.
Qed.

Lemma Decode_ascii (c : ascii) (t : string) :
  byte c < 0x80 → DecodeRuneInString (String c t) = (byte c, 1%nat).
Proof.
  intros H. unfold DecodeRuneInString, RuneSelf.
  by rewrite (proj2 (Z.ltb_lt _ _) H).
Qed.

Lemma Decode_invalid (s : string) :
  s ≠ "" → ¬ valid (DecodeRuneInString s).1 (DecodeRuneInString s).2 →
  DecodeRuneInString s = (RuneError, 1%nat)
  ∧ ∃ c t, s = String c t ∧ 0x80 ≤ byte c.
Proof.
  intros Hs Hv. unfold valid in Hv.
  destruct (DecodeRuneInString s) as [r size] eqn:E.
  pose proof (DecodeRune_spec s) as H. rewrite E in H. simpl in *.
  destruct H; try done; try (exfalso; apply Hv; auto; lia).
  split; [done |]. eauto.
Qed.

(** A rune decoded in full is decoded whatever follows it. *)
Lemma Decode_app (x t : string) :
  (DecodeRuneInString x).2 = String.length x →
  valid (DecodeRuneInString x).1 (DecodeRuneInString x).2 →
  DecodeRuneInString (x +:+ t) = DecodeRuneInString x.
Proof.
  intros Hlen Hv.
  destruct x as [|c0 [|c1 [|c2 [|c3 [|c4 x]]]]]; simpl String.append.
  - destruct Hv as [Hv | Hv]; simpl in Hv; [lia | done].
  - destruct Hv as [Hv | Hv]; [rewrite Hlen in Hv; simpl in Hv; lia |].
    revert Hv. unfold DecodeRuneInString, RuneSelf.
    destruct (byte c0 <? 0x80); [done |].
    destruct (first (byte c0)) as [[[sz lo] hi]|]; done.
  - revert Hlen. unfold DecodeRuneInString.
    destruct (byte c0 <? RuneSelf); [done |].
    destruct (first (byte c0)) as [[[sz lo] hi]|]; [| done].
    destruct (_ || _); [done |]. destruct (sz <=? 2)%nat; done.
  - revert Hlen. unfold DecodeRuneInString.
    destruct (byte c0 <? RuneSelf); [done |].
    destruct (first (byte c0)) as [[[sz lo] hi]|]; [| done].
    destruct (_ || _); [done |]. destruct (sz <=? 2)%nat; [done |].
    destruct (negb _); [done |]. destruct (sz <=? 3)%nat; done.
  - revert Hlen. unfold DecodeRuneInString.
    destruct (byte c0 <? RuneSelf); [done |].
    destruct (first (byte c0)) as [[[sz lo] hi]|]; [| done].
    destruct (_ || _); [done |]. destruct (sz <=? 2)%nat; [done |].
    destruct (negb _); [done |]. destruct (sz <=? 3)%nat; done.
  - pose proof (Decode_width (String c0 (String c1 (String c2 (String c3
                   (String c4 x))))) ltac:(done)) as [_ H4].
    rewrite Hlen in H4. simpl in H4. lia.
Qed.

(** The encoder, as arithmetic on the bytes of the sequence. *)
Lemma Encode_ascii (c : ascii) :
  byte c < 0x80 → EncodeRune (byte c) = String c "".
Proof.
  intros H. pose proof (byte_range c). unfold EncodeRune.
  rewrite (proj2 (Z.leb_le 0 _)) by lia.
  rewrite (proj2 (Z.leb_le _ 0x7F)) by lia. simpl. by rewrite to_byte_byte.
Qed.

Lemma lor_lead (lead x k : Z) :
  0 ≤ k → 0 ≤ x < 2 ^ k → lead mod 2 ^ k = 0 → Z.lor lead x = lead + x.
Proof.
  intros Hk Hx Hm.
  assert (0 < 2 ^ k) as Hp by (apply Z.pow_pos_nonneg; lia).
  pose proof (Z.div_mod lead (2 ^ k) ltac:(lia)) as E.
  rewrite Hm, Z.add_0_r in E. set (q := lead / 2 ^ k) in *.
  rewrite E, (Z.mul_comm (2 ^ k)). by apply lor_mul_add.
Qed.

Lemma Encode_2 (c0 c1 : ascii) :
  0xC2 ≤ byte c0 ≤ 0xDF → 0x80 ≤ byte c1 ≤ 0xBF →
  EncodeRune ((byte c0 - 0xC0) * 64 + (byte c1 - 0x80))
  = String c0 (String c1 "").
Proof.
  intros H0 H1. unfold EncodeRune.
  set (r := (byte c0 - 0xC0) * 64 + (byte c1 - 0x80)).
  assert (0x80 ≤ r ≤ 0x7FF) as Hr by (subst r; lia).
  rewrite (proj2 (Z.leb_le 0 r)) by lia.
  rewrite (proj2 (Z.leb_gt r 0x7F)) by lia.
  rewrite (proj2 (Z.leb_le r 0x7FF)) by lia. simpl andb. cbv iota.
  bits.
  assert (r / 2 ^ 6 = byte c0 - 0xC0) as ->
    by (subst r; Z.div_mod_to_equations; lia).
  assert (r mod 2 ^ 6 = byte c1 - 0x80) as ->
    by (subst r; Z.div_mod_to_equations; lia).
  rewrite (lor_lead 0xC0 _ 6), (lor_lead 0x80 _ 6) by (done || lia).
  replace (0xC0 + (byte c0 - 0xC0)) with (byte c0) by lia.
  replace (0x80 + (byte c1 - 0x80)) with (byte c1) by lia.
  by rewrite !to_byte_byte.
Qed.

Lemma Encode_3 (c0 c1 c2 : ascii) :
  0xE0 ≤ byte c0 ≤ 0xEF → 0x80 ≤ byte c1 ≤ 0xBF →
  (byte c0 = 0xE0 → 0xA0 ≤ byte c1) → (byte c0 = 0xED → byte c1 ≤ 0x9F) →
  0x80 ≤ byte c2 ≤ 0xBF →
  EncodeRune ((byte c0 - 0xE0) * 4096 + (byte c1 - 0x80) * 64
              + (byte c2 - 0x80))
  = String c0 (String c1 (String c2 "")).
Proof.
  intros H0 H1 Hlo Hhi H2. unfold EncodeRune, MaxRune, RuneError.
  set (r := (byte c0 - 0xE0) * 4096 + (byte c1 - 0x80) * 64
            + (byte c2 - 0x80)).
  assert (0x800 ≤ r ≤ 0xFFFF ∧ ¬ (0xD800 ≤ r ≤ 0xDFFF)) as [Hr Hs]
    by (subst r; lia).
  rewrite (proj2 (Z.leb_le 0 r)) by lia.
  rewrite (proj2 (Z.leb_gt r 0x7F)) by lia.
  rewrite (proj2 (Z.leb_gt r 0x7FF)) by lia.
  rewrite (proj2 (Z.ltb_ge r 0)) by lia.
  rewrite (proj2 (Z.ltb_ge 0x10FFFF r)) by lia.
  assert ((0xD800 <=? r) && (r <=? 0xDFFF) = false) as ->.
  { apply andb_false_iff. rewrite Z.leb_gt, Z.leb_gt. lia. }
  simpl andb. simpl orb. cbv iota.
  rewrite (proj2 (Z.leb_le r 0xFFFF)) by lia.
  bits.
  assert (r / 2 ^ 12 = byte c0 - 0xE0) as ->
    by (subst r; Z.div_mod_to_equations; lia).
  assert ((r / 2 ^ 6) mod 2 ^ 6 = byte c1 - 0x80) as ->
    by (subst r; Z.div_mod_to_equations; lia).
  assert (r mod 2 ^ 6 = byte c2 - 0x80) as ->
    by (subst r; Z.div_mod_to_equations; lia).
  rewrite (lor_lead 0xE0 _ 4), !(lor_lead 0x80 _ 6) by (done || lia).
  replace (0xE0 + (byte c0 - 0xE0)) with (byte c0) by lia.
  replace (0x80 + (byte c1 - 0x80)) with (byte c1) by lia.
  replace (0x80 + (byte c2 - 0x80)) with (byte c2) by lia.
  by rewrite !to_byte_byte.
Qed.

Lemma Encode_4 (c0 c1 c2 c3 : ascii) :
  0xF0 ≤ byte c0 ≤ 0xF4 → 0x80 ≤ byte c1 ≤ 0xBF →
  (byte c0 = 0xF0 → 0x90 ≤ byte c1) → (byte c0 = 0xF4 → byte c1 ≤ 0x8F) →
  0x80 ≤ byte c2 ≤ 0xBF → 0x80 ≤ byte c3 ≤ 0xBF →
  EncodeRune ((byte c0 - 0xF0) * 262144 + (byte c1 - 0x80) * 4096
              + (byte c2 - 0x80) * 64 + (byte c3 - 0x80))
  = String c0 (String c1 (String c2 (String c3 ""))).
Proof.
  intros H0 H1 Hlo Hhi H2 H3. unfold EncodeRune, MaxRune, RuneError.
  set (r := (byte c0 - 0xF0) * 262144 + (byte c1 - 0x80) * 4096
            + (byte c2 - 0x80) * 64 + (byte c3 - 0x80)).
  assert (0x10000 ≤ r ≤ 0x10FFFF) as Hr by (subst r; lia).
  rewrite (proj2 (Z.leb_le 0 r)) by lia.
  rewrite (proj2 (Z.leb_gt r 0x7F)) by lia.
  rewrite (proj2 (Z.leb_gt r 0x7FF)) by lia.
  rewrite (proj2 (Z.ltb_ge r 0)) by lia.
  rewrite (proj2 (Z.ltb_ge 0x10FFFF r)) by lia.
  assert ((0xD800 <=? r) && (r <=? 0xDFFF) = false) as ->.
  { apply andb_false_iff. rewrite Z.leb_gt, Z.leb_gt. lia. }
  simpl andb. simpl orb. cbv iota.
  rewrite (proj2 (Z.leb_gt r 0xFFFF)) by lia.
  bits.
  assert (r / 2 ^ 18 = byte c0 - 0xF0) as ->
    by (subst r; Z.div_mod_to_equations; lia).
  assert ((r / 2 ^ 12) mod 2 ^ 6 = byte c1 - 0x80) as ->
    by (subst r; Z.div_mod_to_equations; lia).
  assert ((r / 2 ^ 6) mod 2 ^ 6 = byte c2 - 0x80) as ->
    by (subst r; Z.div_mod_to_equations; lia).
  assert (r mod 2 ^ 6 = byte c3 - 0x80) as ->
    by (subst r; Z.div_mod_to_equations; lia).
  rewrite (lor_lead 0xF0 _ 3), !(lor_lead 0x80 _ 6) by (done || lia).
  replace (0xF0 + (byte c0 - 0xF0)) with (byte c0) by lia.
  replace (0x80 + (byte c1 - 0x80)) with (byte c1) by lia.
  replace (0x80 + (byte c2 - 0x80)) with (byte c2) by lia.
  replace (0x80 + (byte c3 - 0x80)) with (byte c3) by lia.
  by rewrite !to_byte_byte.
Qed.

(** A rune decoded in full stands in the string as its encoding. *)
Lemma Decode_encode (s : string) :
  valid (DecodeRuneInString s).1 (DecodeRuneInString s).2 →
  s = EncodeRune (DecodeRuneInString s).1 +:+ from (DecodeRuneInString s).2 s
  ∧ String.length (EncodeRune (DecodeRuneInString s).1)
    = (DecodeRuneInString s).2.
Proof.
  intros Hv. unfold valid in Hv.
  destruct (DecodeRune_spec s); simpl in Hv |- *.
  - destruct Hv as [? | Hv]; [lia | done].
  - by rewrite Encode_ascii.
  - destruct Hv as [? | Hv]; [lia | done].
  - by rewrite Encode_2.
  - by rewrite Encode_3.
  - by rewrite Encode_4.
Qed.

Lemma Decode_valid_encode (s : string) (r : Z) (size : nat) :
  DecodeRuneInString s = (r, size) → valid r size →
  s = EncodeRune r +:+ from size s ∧ String.length (EncodeRune r) = size.
Proof.
  intros E Hv. pose proof (Decode_encode s) as H. rewrite E in H. by apply H.
Qed.

(** *** The last rune *)

Lemma RuneStart_byte (c : ascii) :
  RuneStart (byte c) = negb (continuation (byte c)).
Proof. by destruct c as [[] [] [] [] [] [] [] []]. Qed.

Lemma get_app_r (p x : string) (k : nat) :
  String.get (String.length p + k) (p +:+ x) = String.get k x.
Proof. induction p as [|c p IH]; simpl; done. Qed.

Lemma at_app (p x : string) (k : Z) :
  0 ≤ k → at_ (p +:+ x) (Z.of_nat (String.length p) + k) = at_ x k.
Proof.
  intros Hk. unfold at_.
  replace (Z.to_nat (Z.of_nat (String.length p) + k))
    with (String.length p + Z.to_nat k)%nat by lia.
  by rewrite get_app_r.
Qed.

Lemma substring_all (x : string) :
  String.substring 0 (String.length x) x = x.
Proof.
  induction x as [|c x IH]; simpl; [done |]. by rewrite IH.
Qed.

Lemma substring_app (p x : string) :
  String.substring (String.length p) (String.length x) (p +:+ x) = x.
Proof.
  induction p as [|c p IH]; simpl; [apply substring_all | done].
Qed.

Lemma substring_from (n : nat) (s : string) :
  (n ≤ String.length s)%nat →
  String.substring n (String.length s - n) s = from n s.
Proof.
  revert s. induction n as [|n IH]; intros s Hn.
  - rewrite Nat.sub_0_r. apply substring_all.
  - destruct s as [|c s]; simpl in *; [lia |]. apply IH. lia.
Qed.

Lemma from_last (s : string) :
  s ≠ "" →
  ∃ c, from (String.length s - 1) s = String c ""
       ∧ at_ s (Z.of_nat (String.length s) - 1) = byte c.
Proof.
  intros Hs.
  assert (String.length (from (String.length s - 1) s) = 1%nat) as Hl.
  { rewrite length_from. destruct s; [done | simpl; lia]. }
  destruct (from (String.length s - 1) s) as [|c [|d t]] eqn:E; try done.
  exists c. split; [done |].
  pose proof (upto_from (String.length s - 1) s) as Hsplit. rewrite E in Hsplit.
  rewrite <- Hsplit at 1.
  replace (Z.of_nat (String.length s) - 1)
    with (Z.of_nat (String.length (upto (String.length s - 1) s)) + 0)
    by (rewrite length_upto by lia; destruct s; [done | simpl; lia]).
  by rewrite at_app.
Qed.

Lemma backUp_bounds (s : string) (n : nat) (start : Z) :
  start - Z.of_nat n ≤ backUp s n start ≤ start.
Proof.
  revert start. induction n as [|n IH]; intros start; simpl; [lia |].
  destruct (RuneStart _); [lia |]. specialize (IH (start - 1)). lia.
Qed.

(** What [DecodeLastRuneInString] returns: a rune that ends the string,
    encoded in full, or the error for a last byte that ends no rune. *)
Lemma DecodeLast_spec (s : string) :
  s ≠ "" →
  ∃ q x, s = q +:+ x
    ∧ String.length x = (DecodeLastRuneInString s).2
    ∧ ((DecodeRuneInString x = DecodeLastRuneInString s
        ∧ valid (DecodeLastRuneInString s).1 (DecodeLastRuneInString s).2)
       ∨ (DecodeLastRuneInString s = (RuneError, 1%nat)
          ∧ ∃ c, x = String c "" ∧ 0x80 ≤ byte c)).
Proof.
  intros Hs.
  assert (0 < String.length s)%nat as Hpos by (destruct s; [done | simpl; lia]).
  destruct (from_last s Hs) as (c & Elast & Eat).
  pose proof (upto_from (String.length s - 1) s) as Hsplit.
  rewrite Elast in Hsplit.
  unfold DecodeLastRuneInString.
  rewrite (proj2 (Z.eqb_neq _ 0)) by lia. cbv zeta. rewrite Eat.
  unfold RuneSelf, UTFMax.
  destruct (Z.ltb_spec (byte c) 0x80) as [Ha | Ha].
  { exists (upto (String.length s - 1) s), (String c "").
    split; [done |]. split; [done |]. left.
    split; [by apply Decode_ascii | by right]. }
  set (lim := Z.max 0 (Z.of_nat (String.length s) - 4)).
  set (st := Z.max 0 (backUp s (Z.to_nat (Z.of_nat (String.length s) - 1 - lim))
                        (Z.of_nat (String.length s) - 1 - 1))).
  assert (0 ≤ st < Z.of_nat (String.length s)) as Hst.
  { subst st.
    pose proof (backUp_bounds s
                  (Z.to_nat (Z.of_nat (String.length s) - 1 - lim))
                  (Z.of_nat (String.length s) - 1 - 1)). lia. }
  replace (Z.to_nat (Z.of_nat (String.length s) - st))
    with (String.length s - Z.to_nat st)%nat by lia.
  rewrite substring_from by lia.
  set (seg := from (Z.to_nat st) s).
  assert (String.length seg = (String.length s - Z.to_nat st)%nat) as Hseg
    by (subst seg; apply length_from).
  destruct (DecodeRuneInString seg) as [r size] eqn:Ed.
  destruct (Z.eqb_spec (st + Z.of_nat size) (Z.of_nat (String.length s)))
    as [Hend | Hend]; simpl negb; cbv iota.
  - exists (upto (Z.to_nat st) s), seg. split; [by rewrite upto_from |].
    simpl. split; [lia |].
    destruct (decide (valid r size)) as [Hv | Hv]; [by left |].
    right.
    assert (seg ≠ "") as Hne by (intros E; rewrite E in Hseg; simpl in Hseg; lia).
    pose proof (Decode_invalid seg Hne) as Hi. rewrite Ed in Hi.
    destruct (Hi Hv) as ([= -> ->] & c' & t & E & Hc).
    split; [done |]. exists c'. split; [| done].
    rewrite E in Hseg |- *. simpl in Hseg.
    destruct t; [done | simpl in Hseg; lia].
  - exists (upto (String.length s - 1) s), (String c "").
    split; [done |]. split; [done |]. right. split; [done |]. eauto.
Qed.

Lemma at_app' (p x : string) (i : Z) :
  Z.of_nat (String.length p) ≤ i →
  at_ (p +:+ x) i = at_ x (i - Z.of_nat (String.length p)).
Proof.
  intros Hi.
  replace i with (Z.of_nat (String.length p) + (i - Z.of_nat (String.length p)))
    at 1 by lia.
  apply at_app. lia.
Qed.

Lemma backUp_S (s : string) (n : nat) (start : Z) :
  (0 < n)%nat →
  backUp s n start
  = if RuneStart (at_ s start) then start else backUp s (n - 1) (start - 1).
Proof.
  destruct n as [|n]; [lia |]. intros _. simpl. by rewrite Nat.sub_0_r.
Qed.

Lemma continuation_start (c : ascii) :
  0x80 ≤ byte c ≤ 0xBF → RuneStart (byte c) = false.
Proof.
  intros H. rewrite RuneStart_byte.
  by rewrite (proj2 (continuation_spec _) H).
Qed.

Lemma lead_start (c : ascii) : 0xC0 ≤ byte c → RuneStart (byte c) = true.
Proof.
  intros H. rewrite RuneStart_byte. apply negb_true_iff.
  apply not_true_is_false. rewrite continuation_spec. lia.
Qed.

(** A rune encoded in full at the end of a string is its last rune. *)
Lemma DecodeLast_app (p x : string) :
  (DecodeRuneInString x).2 = String.length x →
  valid (DecodeRuneInString x).1 (DecodeRuneInString x).2 →
  DecodeLastRuneInString (p +:+ x) = DecodeRuneInString x.
Proof.
  intros Hlen Hv. unfold valid in Hv.
  set (e := Z.of_nat (String.length p)).
  assert (0 ≤ e) as He by (subst e; lia).
  assert (Hsub : String.substring (Z.to_nat e) (String.length x) (p +:+ x) = x).
  { subst e. rewrite Nat2Z.id. apply substring_app. }
  assert (Hat : ∀ k, 0 ≤ k → at_ (p +:+ x) (e + k) = at_ x k)
    by (intros; by apply at_app).
  unfold DecodeLastRuneInString. rewrite str_length_app, Nat2Z.inj_add.
  fold e. unfold RuneSelf, UTFMax.
  destruct (DecodeRuneInString x) as [r size] eqn:Ed. simpl in Hlen, Hv.
  pose proof (DecodeRune_spec x) as Hd. rewrite Ed in Hd. simpl in Hd.
  destruct Hd as [| c t Hc | c t Hc | c0 c1 t H0 H1
    | c0 c1 c2 t H0 H1 Hlo Hhi H2 | c0 c1 c2 c3 t H0 H1 Hlo Hhi H2 H3];
    simpl in Hlen.
  - unfold RuneError in Hv. lia.
  - destruct t; [| simpl in Hlen; lia]. simpl String.length.
    rewrite (proj2 (Z.eqb_neq _ 0)) by lia. cbv zeta.
    replace (e + Z.of_nat 1 - 1) with (e + 0) by lia. rewrite Hat by lia.
    change (at_ (String c "") 0) with (byte c).
    by rewrite (proj2 (Z.ltb_lt _ _) Hc).
  - pose proof (byte_range c). unfold RuneError in Hv. lia.
  - destruct t; [| simpl in Hlen; lia]. simpl String.length in *.
    rewrite (proj2 (Z.eqb_neq _ 0)) by lia. cbv zeta.
    replace (e + Z.of_nat 2 - 1) with (e + 1) by lia. rewrite Hat by lia.
    change (at_ (String c0 (String c1 "")) 1) with (byte c1).
    rewrite (proj2 (Z.ltb_ge _ _)) by lia.
    rewrite backUp_S by lia.
    replace (e + 1 - 1) with (e + 0) by lia. rewrite Hat by lia.
    change (at_ (String c0 (String c1 "")) 0) with (byte c0).
    rewrite lead_start by lia.
    rewrite Z.max_r by lia.
    replace (Z.to_nat (e + Z.of_nat 2 - (e + 0))) with 2%nat by lia.
    replace (e + 0) with e by lia.
    rewrite Hsub, Ed.
    by rewrite (proj2 (Z.eqb_eq _ _)) by lia.
  - destruct t; [| simpl in Hlen; lia]. simpl String.length in *.
    rewrite (proj2 (Z.eqb_neq _ 0)) by lia. cbv zeta.
    replace (e + Z.of_nat 3 - 1) with (e + 2) by lia. rewrite Hat by lia.
    change (at_ (String c0 (String c1 (String c2 ""))) 2) with (byte c2).
    rewrite (proj2 (Z.ltb_ge _ _)) by lia.
    rewrite backUp_S by lia.
    replace (e + 2 - 1) with (e + 1) by lia. rewrite Hat by lia.
    change (at_ (String c0 (String c1 (String c2 ""))) 1) with (byte c1).
    rewrite continuation_start by lia.
    rewrite backUp_S by lia.
    replace (e + 1 - 1) with (e + 0) by lia. rewrite Hat by lia.
    change (at_ (String c0 (String c1 (String c2 ""))) 0) with (byte c0).
    rewrite lead_start by lia.
    rewrite Z.max_r by lia.
    replace (Z.to_nat (e + Z.of_nat 3 - (e + 0))) with 3%nat by lia.
    replace (e + 0) with e by lia.
    rewrite Hsub, Ed.
    by rewrite (proj2 (Z.eqb_eq _ _)) by lia.
  - destruct t; [| simpl in Hlen; lia]. simpl String.length in *.
    rewrite (proj2 (Z.eqb_neq _ 0)) by lia. cbv zeta.
    replace (e + Z.of_nat 4 - 1) with (e + 3) by lia. rewrite Hat by lia.
    change (at_ (String c0 (String c1 (String c2 (String c3 "")))) 3)
      with (byte c3).
    rewrite (proj2 (Z.ltb_ge _ _)) by lia.
    rewrite backUp_S by lia.
    replace (e + 3 - 1) with (e + 2) by lia. rewrite Hat by lia.
    change (at_ (String c0 (String c1 (String c2 (String c3 "")))) 2)
      with (byte c2).
    rewrite continuation_start by lia.
    rewrite backUp_S by lia.
    replace (e + 2 - 1) with (e + 1) by lia. rewrite Hat by lia.
    change (at_ (String c0 (String c1 (String c2 (String c3 "")))) 1)
      with (byte c1).
    rewrite continuation_start by lia.
    rewrite backUp_S by lia.
    replace (e + 1 - 1) with (e + 0) by lia. rewrite Hat by lia.
    change (at_ (String c0 (String c1 (String c2 (String c3 "")))) 0)
      with (byte c0).
    rewrite lead_start by lia.
    rewrite Z.max_r by lia.
    replace (Z.to_nat (e + Z.of_nat 4 - (e + 0))) with 4%nat by lia.
    replace (e + 0) with e by lia.
    rewrite Hsub, Ed.
    by rewrite (proj2 (Z.eqb_eq _ _)) by lia.
Qed.

End Utf8Facts.

(** *** White space and letter case *)

Module UnicodeFacts.
Import Unicode.
Local Open Scope Z_scope.

Lemma IsSpace_spec (r : Z) : IsSpace r = true ↔ r ∈ white_space.
Proof.
  split.
  - intros H.
    assert (r = 0x09 ∨ r = 0x0A ∨ r = 0x0B ∨ r = 0x0C ∨ r = 0x0D ∨ r = 0x20
            ∨ r = 0x85 ∨ r = 0xA0 ∨ r = 0x1680 ∨ r = 0x2000 ∨ r = 0x2001
            ∨ r = 0x2002 ∨ r = 0x2003 ∨ r = 0x2004 ∨ r = 0x2005 ∨ r = 0x2006
            ∨ r = 0x2007 ∨ r = 0x2008 ∨ r = 0x2009 ∨ r = 0x200A ∨ r = 0x2028
            ∨ r = 0x2029 ∨ r = 0x202F ∨ r = 0x205F ∨ r = 0x3000) as D.
    { revert H. unfold IsSpace. destruct (_ && _);
        rewrite ?orb_true_iff, ?andb_true_iff, ?Z.leb_le, ?Z.eqb_eq; lia. }
    unfold white_space. rewrite !elem_of_cons. tauto.
  - unfold white_space. intros H.
    repeat (apply elem_of_cons in H as [-> | H]; [reflexivity |]).
    by apply elem_of_nil in H.
Qed.

Lemma lookupLower_ascii (table : list (Z * Z * Z * Z)) (r : Z) :
  forallb above_ascii table = true → 0x80 ≤ r →
  lookupLower table r < 0x80 →
  (r = 0x130 ∧ lookupLower table r = 0x69)
  ∨ (r = 0x212A ∧ lookupLower table r = 0x6B).
Proof.
  intros Hall Hr. induction table as [|[[[lo hi] stride] delta] table IH];
    simpl; [lia |].
  simpl in Hall. apply andb_true_iff in Hall as [He Hall].
  destruct ((lo <=? r) && (r <=? hi) && ((r - lo) mod stride =? 0)) eqn:Hin;
    [| by apply IH].
  apply andb_true_iff in Hin as [[H1%Z.leb_le H2%Z.leb_le]%andb_true_iff _].
  intros Hlt. unfold above_ascii in He.
  apply orb_true_iff in He as [He | He];
    [apply orb_true_iff in He as [He%Z.leb_le | He]; [lia |] |];
    apply andb_true_iff in He as [[->%Z.eqb_eq ->%Z.eqb_eq]%andb_true_iff
                                    ->%Z.eqb_eq];
    [left | right]; lia.
Qed.

Lemma ToLower_small (r y : Z) :
  97 ≤ y ≤ 122 → ToLower r = y →
  r = y ∨ r = y - 32 ∨ (r = 0x130 ∧ y = 0x69) ∨ (r = 0x212A ∧ y = 0x6B).
Proof.
  intros Hy. unfold ToLower.
  destruct (Z.leb_spec r 0x7F) as [Hr | Hr].
  - destruct (_ && _) eqn:E; [| by left].
    intros <-. right; left. lia.
  - intros E.
    destruct (lookupLower_ascii lowerRanges r) as [[-> H] | [-> H]];
      [by vm_compute | lia | lia | right; right; left | right; right; right];
      (split; [done | lia]).
Qed.

Lemma ToLower_above (r : Z) :
  0x80 ≤ r → r ≠ 0x130 → r ≠ 0x212A → 0x80 ≤ ToLower r.
Proof.
  intros Hr H1 H2. unfold ToLower. rewrite (proj2 (Z.leb_gt _ _)) by lia.
  destruct (Z.lt_ge_cases (lookupLower lowerRanges r) 0x80) as [Hlt | Hge];
    [| done].
  destruct (lookupLower_ascii lowerRanges r) as [[-> _] | [-> _]];
    [by vm_compute | lia | lia | done | done].
Qed.

End UnicodeFacts.

(** *** Trimming *)

Module TrimFacts.
Import Strings Utf8 Unicode StringFacts Utf8Facts UnicodeFacts.
Local Open Scope Z_scope.
Local Arguments String.append _ _ : simpl nomatch.

Lemma Encode_nonempty (r : Z) : EncodeRune r ≠ "".
Proof.
  unfold EncodeRune. destruct (_ && _); [done |]. destruct (_ && _); [done |].
  by destruct (_ <=? _).
Qed.

Lemma app_nonempty (x t : string) : x ≠ "" → x +:+ t ≠ "".
Proof. by destruct x. Qed.

Lemma blank_app (a b : string) : blank a → blank b → blank (a +:+ b).
Proof.
  intros Ha Hb. induction Ha as [|r a Hr Ha IH]; [done |].
  rewrite str_app_assoc. by constructor.
Qed.

Lemma blank_one (r : Z) : r ∈ white_space → blank (EncodeRune r).
Proof.
  intros Hr. rewrite <- (str_app_nil_r (EncodeRune r)).
  apply blank_cons; [done | apply blank_nil].
Qed.

Lemma blank_snoc (a : string) (r : Z) :
  blank a → r ∈ white_space → blank (a +:+ EncodeRune r).
Proof. intros Ha Hr. apply blank_app; [done | by apply blank_one]. Qed.

(** White space decoded from the front and from the back. *)
Lemma Decode_space (r : Z) (t : string) :
  r ∈ white_space →
  DecodeRuneInString (EncodeRune r +:+ t)
  = (r, String.length (EncodeRune r)).
Proof.
  unfold white_space. intros H.
  repeat (apply elem_of_cons in H as [-> | H]; [reflexivity |]).
  by apply elem_of_nil in H.
Qed.

Lemma space_chunk (r : Z) :
  r ∈ white_space →
  DecodeRuneInString (EncodeRune r) = (r, String.length (EncodeRune r))
  ∧ valid r (String.length (EncodeRune r)).
Proof.
  intros Hr. pose proof (Decode_space r "" Hr) as E.
  rewrite str_app_nil_r in E. split; [done |].
  revert Hr. unfold white_space, valid. intros H.
  repeat (apply elem_of_cons in H as [-> | H];
          [vm_compute; first [left; lia | right; done] |]).
  by apply elem_of_nil in H.
Qed.

Lemma DecodeLast_space (p : string) (r : Z) :
  r ∈ white_space →
  DecodeLastRuneInString (p +:+ EncodeRune r)
  = (r, String.length (EncodeRune r)).
Proof.
  intros Hr. destruct (space_chunk r Hr) as [E Hv].
  rewrite DecodeLast_app; rewrite ?E; done.
Qed.

(** No white space begins with a continuation byte. *)
Lemma blank_head (c : ascii) (t : string) :
  blank (String c t) → ¬ (0x80 ≤ byte c ≤ 0xBF).
Proof.
  intros H. inversion H as [|r s Hr Hs E]. revert E.
  unfold white_space in Hr.
  repeat (apply elem_of_cons in Hr as [-> | Hr];
          [intros [= <- _]; vm_compute; intros [? ?]; done |]).
  by apply elem_of_nil in Hr.
Qed.

Lemma space_valid (s : string) :
  IsSpace (DecodeRuneInString s).1 = true →
  valid (DecodeRuneInString s).1 (DecodeRuneInString s).2.
Proof.
  unfold valid. destruct (DecodeRune_spec s); cbn [fst snd]; intros Hsp;
    [by vm_compute in Hsp | by right | by vm_compute in Hsp
    | left; lia ..].
Qed.

Lemma IsSpace_ascii (c : ascii) :
  byte c < 0x80 → IsSpace (byte c) = asciiSpace c.
Proof.
  destruct c as [[] [] [] [] [] [] [] []]; intros H; try reflexivity;
    by vm_compute in H.
Qed.

Lemma asciiSpace_blank (c : ascii) :
  byte c < 0x80 → asciiSpace c = true → blank (String c "").
Proof.
  intros Ha Hs. rewrite <- (Encode_ascii c Ha). apply blank_one.
  apply IsSpace_spec. by rewrite IsSpace_ascii.
Qed.

(** Every string is white space, then a part that neither begins nor ends
    with white space... the two halves of it. *)
Lemma split_left (s : string) :
  ∃ l a, s = l +:+ a ∧ blank l
         ∧ (a = "" ∨ IsSpace (DecodeRuneInString a).1 = false).
Proof.
  remember (String.length s) as n eqn:Hn. revert s Hn.
  induction n as [n IH] using lt_wf_ind. intros s Hn.
  destruct (decide (s = "")) as [-> | Hs].
  { exists "", "". split; [done |]. split; [constructor | by left]. }
  destruct (IsSpace (DecodeRuneInString s).1) eqn:Esp.
  - pose proof (space_valid s Esp) as Hv.
    destruct (Decode_encode s Hv) as [E Hlen].
    destruct (Decode_width s Hs) as [Hw _].
    destruct (IH (String.length (from (DecodeRuneInString s).2 s))
                ltac:(rewrite length_from; lia)
                (from (DecodeRuneInString s).2 s) eq_refl)
      as (l & a & E' & Hl & Ha).
    exists (EncodeRune (DecodeRuneInString s).1 +:+ l), a.
    split; [by rewrite str_app_assoc, <- E' |].
    split; [| done]. constructor; [by apply IsSpace_spec | done].
  - exists "", s. split; [done |]. split; [constructor | by right].
Qed.

Lemma DecodeLast_width (s : string) :
  s ≠ "" →
  (1 ≤ (DecodeLastRuneInString s).2 ≤ String.length s)%nat.
Proof.
  intros Hs. destruct (DecodeLast_spec s Hs) as (q & x & E & Hlen & Hx).
  assert (String.length s = (String.length q + String.length x)%nat) as Hl
    by (rewrite E at 1; apply str_length_app).
  split; [| lia].
  destruct Hx as [[Ed Hv] | [-> _]]; [| simpl; lia].
  destruct (decide (x = "")) as [-> | Hne].
  - rewrite <- Ed in Hv. vm_compute in Hv. destruct Hv; [lia | done].
  - rewrite <- Ed. by apply Decode_width.
Qed.

Lemma split_right (s : string) :
  ∃ a r, s = a +:+ r ∧ blank r
         ∧ (a = "" ∨ IsSpace (DecodeLastRuneInString a).1 = false).
Proof.
  remember (String.length s) as n eqn:Hn. revert s Hn.
  induction n as [n IH] using lt_wf_ind. intros s Hn.
  destruct (decide (s = "")) as [-> | Hs].
  { exists "", "". split; [done |]. split; [constructor | by left]. }
  destruct (IsSpace (DecodeLastRuneInString s).1) eqn:Esp.
  - destruct (DecodeLast_spec s Hs) as (q & x & E & Hlen & Hx).
    destruct (DecodeLast_width s Hs) as [Hw _].
    destruct Hx as [[Ed Hv] | [Ed _]];
      [| rewrite Ed in Esp; by vm_compute in Esp].
    rewrite <- Ed in Hv, Esp, Hlen.
    destruct (Decode_encode x Hv) as [Ex _].
    rewrite <- Hlen in Ex.
    replace (from (String.length x) x) with "" in Ex
      by (symmetry; apply str_length_zero; rewrite length_from; lia).
    rewrite str_app_nil_r in Ex.
    assert (String.length s = (String.length q + String.length x)%nat) as Hl
      by (rewrite E at 1; apply str_length_app).
    destruct (IH (String.length q) ltac:(rewrite Ed in Hlen; lia) q eq_refl)
      as (a & r & E' & Hr & Ha).
    exists a, (r +:+ x). split; [by rewrite <- str_app_assoc, <- E' |].
    split; [| done]. rewrite Ex. apply blank_snoc; [done |].
    by apply IsSpace_spec.
  - exists s, "". split; [by rewrite str_app_nil_r |].
    split; [constructor | by right].
Qed.

(** The loops, a rune at a time. *)
Lemma from_from (a b : nat) (s : string) : from a (from b s) = from (b + a) s.
Proof.
  revert s. induction b as [|b IH]; intros s; [done |].
  destruct s as [|c s]; simpl; [by destruct a | apply IH].
Qed.

Lemma upto_all (s : string) : upto (String.length s) s = s.
Proof. induction s as [|c s IH]; simpl; [done | by rewrite IH]. Qed.

Lemma upto_upto (j i : nat) (s : string) :
  (j ≤ i)%nat → upto j (upto i s) = upto j s.
Proof.
  revert i s. induction j as [|j IH]; intros i s Hj; [done |].
  destruct i as [|i]; [lia |]. destruct s as [|c s]; simpl; [done |].
  rewrite IH by lia. done.
Qed.

Lemma indexFunc_go_fuels (f : Z → bool) (b : bool) (fuel fuel' : nat)
    (t : string) (i : nat) :
  (String.length t ≤ fuel)%nat → (String.length t ≤ fuel')%nat →
  indexFunc_go fuel f b t i = indexFunc_go fuel' f b t i.
Proof.
  revert fuel' t i. induction fuel as [|fuel IH]; intros fuel' t i Hf Hf'.
  - destruct t; [by destruct fuel' | simpl in Hf; lia].
  - destruct t as [|c t]; [by destruct fuel' |].
    destruct fuel' as [|fuel']; [simpl in Hf'; lia |].
    pose proof (Decode_width (String c t) ltac:(done)) as [Hw _].
    cbn [indexFunc_go].
    destruct (DecodeRuneInString (String c t)) as [r size]. simpl in Hw.
    destruct (Bool.eqb (f r) b); [done |].
    apply IH; rewrite length_from; simpl in *; lia.
Qed.

Lemma indexFunc_go_fuel (f : Z → bool) (b : bool) (fuel : nat) (t : string)
    (i : nat) :
  (String.length t ≤ fuel)%nat →
  indexFunc_go fuel f b t i = indexFunc_go (String.length t) f b t i.
Proof. intros Hf. by apply indexFunc_go_fuels. Qed.

Lemma indexFunc_go_shift (f : Z → bool) (b : bool) (fuel : nat) (t : string)
    (i : nat) :
  -1 ≤ indexFunc_go fuel f b t 0
  ∧ indexFunc_go fuel f b t i
    = (if indexFunc_go fuel f b t 0 =? -1 then -1
       else indexFunc_go fuel f b t 0 + Z.of_nat i).
Proof.
  revert t i. induction fuel as [|fuel IH]; intros t i; [done |].
  destruct t as [|c t]; [done |]. cbn [indexFunc_go].
  destruct (DecodeRuneInString (String c t)) as [r size].
  destruct (Bool.eqb (f r) b); [simpl; split; lia |].
  destruct (IH (from size (String c t)) (0 + size)%nat) as [H0 E0].
  destruct (IH (from size (String c t)) (i + size)%nat) as [_ Ei].
  rewrite E0, Ei.
  destruct (Z.eqb_spec (indexFunc_go fuel f b (from size (String c t)) 0) (-1))
    as [E | E]; [done |].
  rewrite (proj2 (Z.eqb_neq _ (-1))) by lia. lia.
Qed.

Lemma TrimLeftFunc_step (s : string) (f : Z → bool) :
  s ≠ "" →
  TrimLeftFunc s f
  = if f (DecodeRuneInString s).1
    then TrimLeftFunc (from (DecodeRuneInString s).2 s) f else s.
Proof.
  intros Hs. destruct s as [|c t]; [done |].
  pose proof (Decode_width (String c t) ltac:(done)) as [Hw _].
  unfold TrimLeftFunc, indexFunc. cbn [String.length indexFunc_go].
  destruct (DecodeRuneInString (String c t)) as [r size]. cbn [fst snd] in *.
  destruct (f r); simpl Bool.eqb; cbv iota; [| done].
  rewrite indexFunc_go_fuel by (rewrite length_from; simpl in *; lia).
  destruct (indexFunc_go_shift f false
              (String.length (from size (String c t)))
              (from size (String c t)) (0 + size)) as [H0 ->].
  destruct (Z.eqb_spec
              (indexFunc_go (String.length (from size (String c t))) f false
                 (from size (String c t)) 0) (-1)) as [E | E]; [done |].
  rewrite (proj2 (Z.eqb_neq _ (-1))) by lia.
  rewrite from_from. f_equal. lia.
Qed.

Lemma TrimLeftFunc_nil (f : Z → bool) : TrimLeftFunc "" f = "".
Proof. done. Qed.

(** [TrimLeftFunc] takes leading white space off, and nothing else. *)
Lemma TrimLeft_unique (l a : string) :
  blank l → a = "" ∨ IsSpace (DecodeRuneInString a).1 = false →
  TrimLeftFunc (l +:+ a) IsSpace = a.
Proof.
  intros Hl Ha. induction Hl as [|r l Hr Hl IH]; simpl String.append.
  - destruct Ha as [-> | Ha]; [done |].
    destruct (decide (a = "")) as [-> | Hne]; [done |].
    by rewrite TrimLeftFunc_step, Ha.
  - rewrite str_app_assoc.
    rewrite TrimLeftFunc_step by (apply app_nonempty, Encode_nonempty).
    rewrite Decode_space by done. cbn [fst snd].
    rewrite (proj2 (IsSpace_spec r) Hr), from_app. done.
Qed.

Lemma lastIndexFunc_go_fuels (f : Z → bool) (b : bool) (fuel fuel' : nat)
    (s : string) (i : nat) :
  (i ≤ fuel)%nat → (i ≤ fuel')%nat → (i ≤ String.length s)%nat →
  lastIndexFunc_go fuel f b s i = lastIndexFunc_go fuel' f b s i.
Proof.
  revert fuel' i. induction fuel as [|fuel IH]; intros fuel' i Hf Hf' Hi.
  - replace i with 0%nat by lia. by destruct fuel'.
  - destruct i as [|i]; [by destruct fuel' |].
    destruct fuel' as [|fuel']; [lia |].
    cbn [lastIndexFunc_go]. change (S i =? 0)%nat with false. cbv iota.
    assert (upto (S i) s ≠ "") as Hne.
    { intros E. pose proof (length_upto (S i) s Hi) as Hl.
      rewrite E in Hl. simpl in Hl. lia. }
    pose proof (DecodeLast_width _ Hne) as Hw.
    rewrite length_upto in Hw by done.
    destruct (DecodeLastRuneInString (upto (S i) s)) as [r size].
    cbn [snd] in Hw.
    destruct (Bool.eqb (f r) b); [done |].
    apply IH; lia.
Qed.

Lemma lastIndexFunc_go_upto (f : Z → bool) (b : bool) (fuel : nat)
    (s : string) (i j : nat) :
  (i ≤ j)%nat →
  lastIndexFunc_go fuel f b s i = lastIndexFunc_go fuel f b (upto j s) i.
Proof.
  revert i. induction fuel as [|fuel IH]; intros i Hi; [done |].
  cbn [lastIndexFunc_go]. destruct (i =? 0)%nat; [done |].
  rewrite upto_upto by done.
  destruct (DecodeLastRuneInString (upto i s)) as [r size].
  destruct (Bool.eqb (f r) b); [done |].
  apply IH. lia.
Qed.

Lemma lastIndexFunc_go_prefix (f : Z → bool) (b : bool) (fuel : nat)
    (s : string) (i : nat) :
  (i ≤ fuel)%nat → (i ≤ String.length s)%nat →
  lastIndexFunc_go fuel f b s i = lastIndexFunc_go i f b (upto i s) i.
Proof.
  intros Hf Hi. rewrite (lastIndexFunc_go_fuels f b fuel i) by lia.
  by apply lastIndexFunc_go_upto.
Qed.

Lemma lastIndexFunc_step (q : string) (f : Z → bool) (b : bool) :
  q ≠ "" →
  lastIndexFunc q f b
  = if Bool.eqb (f (DecodeLastRuneInString q).1) b
    then Z.of_nat (String.length q - (DecodeLastRuneInString q).2)
    else lastIndexFunc
           (upto (String.length q - (DecodeLastRuneInString q).2) q) f b.
Proof.
  intros Hq. pose proof (DecodeLast_width q Hq) as Hw.
  unfold lastIndexFunc at 1.
  destruct (String.length q) as [|n] eqn:En; [lia |].
  cbn [lastIndexFunc_go]. change (S n =? 0)%nat with false. cbv iota.
  rewrite <- En, upto_all.
  destruct (DecodeLastRuneInString q) as [r size]. cbn [fst snd] in *.
  destruct (Bool.eqb (f r) b); [done |].
  rewrite lastIndexFunc_go_prefix by lia.
  unfold lastIndexFunc. by rewrite length_upto by lia.
Qed.

Lemma lastIndexFunc_nil (f : Z → bool) (b : bool) : lastIndexFunc "" f b = -1.
Proof. done. Qed.

(** White space, rune by rune from the right. *)
Lemma blank_rev_ind (P : string → Prop) :
  P "" →
  (∀ l r, blank l → r ∈ white_space → P l → P (l +:+ EncodeRune r)) →
  ∀ l, blank l → P l.
Proof.
  intros H0 Hstep l Hl.
  assert (∃ rs, Forall (λ r, r ∈ white_space) rs
                ∧ l = foldr (λ r acc, EncodeRune r +:+ acc) "" rs)
    as (rs & Hrs & ->).
  { induction Hl as [|r l Hr Hl (rs & Hrs & ->)]; [by exists [] |].
    exists (r :: rs). split; [by constructor | done]. }
  clear Hl.
  assert (Happ : ∀ a b, foldr (λ r acc, EncodeRune r +:+ acc) "" (a ++ b)
                 = foldr (λ r acc, EncodeRune r +:+ acc) "" a
                   +:+ foldr (λ r acc, EncodeRune r +:+ acc) "" b).
  { intros a b. induction a as [|x a IH]; simpl; [done |].
    by rewrite IH, str_app_assoc. }
  assert (Hbl : ∀ a, Forall (λ r, r ∈ white_space) a →
                 blank (foldr (λ r acc, EncodeRune r +:+ acc) "" a)).
  { intros a Ha. induction Ha; simpl; by constructor. }
  induction rs as [|r rs IH] using rev_ind; [done |].
  apply Forall_app in Hrs as [Hrs Hr].
  rewrite Happ. simpl. rewrite str_app_nil_r.
  apply Hstep; [by apply Hbl | exact (Forall_inv Hr) | by apply IH].
Qed.

Lemma lastIndexFunc_blank (a rest : string) :
  blank rest →
  lastIndexFunc (a +:+ rest) IsSpace false = lastIndexFunc a IsSpace false.
Proof.
  intros Hr. induction Hr as [|l r Hl Hr IH] using blank_rev_ind;
    [by rewrite str_app_nil_r |].
  rewrite <- str_app_assoc.
  rewrite lastIndexFunc_step by (destruct (a +:+ l); [apply Encode_nonempty | done]).
  rewrite DecodeLast_space by done. cbn [fst snd].
  rewrite (proj2 (IsSpace_spec r) Hr). simpl Bool.eqb. cbv iota.
  rewrite str_length_app, Nat.add_sub.
  by rewrite upto_app.
Qed.

Lemma Decode_before_blank (c : ascii) (rest : string) :
  0x80 ≤ byte c → blank rest →
  DecodeRuneInString (String c rest) = (RuneError, 1%nat).
Proof.
  intros Hc Hr. unfold DecodeRuneInString, RuneSelf.
  rewrite (proj2 (Z.ltb_ge _ _)) by lia.
  destruct (first (byte c)) as [[[sz lo] hi]|] eqn:Ef; [| done].
  apply first_spec in Ef as (Hlo & Hhi & _).
  destruct rest as [|c1 t1]; [done |].
  pose proof (blank_head c1 t1 Hr) as Hh.
  assert ((byte c1 <? lo) || (hi <? byte c1) = true) as ->; [| done].
  apply orb_true_iff. rewrite !Z.ltb_lt. lia.
Qed.

(** [TrimRightFunc] takes trailing white space off, and nothing else. *)
Lemma TrimRight_unique (a rest : string) :
  blank rest → a = "" ∨ IsSpace (DecodeLastRuneInString a).1 = false →
  TrimRightFunc (a +:+ rest) IsSpace = a.
Proof.
  intros Hr Ha. unfold TrimRightFunc. rewrite lastIndexFunc_blank by done.
  destruct (decide (a = "")) as [-> | Hne]; [done |].
  destruct Ha as [-> | Ha]; [done |].
  rewrite lastIndexFunc_step, Ha by done. simpl Bool.eqb. cbv iota.
  destruct (DecodeLast_spec a Hne) as (q & x & E & Hlen & Hx).
  assert (String.length a = (String.length q + String.length x)%nat) as Hl
    by (rewrite E at 1; apply str_length_app).
  rewrite <- Hlen, Hl, Nat.add_sub.
  rewrite (proj2 (Z.leb_le 0 _)) by lia. rewrite Nat2Z.id.
  assert (Hsplit : a +:+ rest = q +:+ (x +:+ rest))
    by (rewrite E at 1; apply str_app_assoc).
  rewrite Hsplit, from_app.
  replace (Z.of_nat (String.length q)) with (Z.of_nat (String.length q) + 0)
    at 1 by lia.
  rewrite at_app by lia.
  assert (Hdone : ∀ n, n = String.length x →
            upto (Z.to_nat (Z.of_nat (String.length q) + Z.of_nat n))
              (q +:+ (x +:+ rest)) = a).
  { intros n ->. rewrite <- Nat2Z.inj_add, Nat2Z.id, <- str_app_assoc.
    rewrite <- str_length_app, upto_app. done. }
  destruct Hx as [[Ed Hv] | [Ed (c & -> & Hc)]].
  - rewrite <- Ed in Hv, Hlen.
    rewrite (Decode_app x rest) by done.
    destruct (DecodeRune_spec x) as [| c t Hc | c t Hc | c0 c1 t H0 H1
      | c0 c1 c2 t H0 H1 Hlo Hhi H2 | c0 c1 c2 c3 t H0 H1 Hlo Hhi H2 H3];
      cbn [fst snd] in *.
    + unfold valid, RuneError in Hv. lia.
    + change (at_ (String c t +:+ rest) 0) with (byte c). unfold RuneSelf.
      rewrite (proj2 (Z.leb_gt _ _)) by lia. rewrite andb_false_r.
      apply (Hdone 1%nat). done.
    + unfold valid, RuneError in Hv. lia.
    + change (at_ (String c0 (String c1 t) +:+ rest) 0) with (byte c0).
      unfold RuneSelf. rewrite (proj2 (Z.leb_le _ _)) by lia.
      simpl andb. cbv iota. by apply Hdone.
    + change (at_ (String c0 (String c1 (String c2 t)) +:+ rest) 0)
        with (byte c0).
      unfold RuneSelf. rewrite (proj2 (Z.leb_le _ _)) by lia.
      simpl andb. cbv iota. by apply Hdone.
    + change (at_ (String c0 (String c1 (String c2 (String c3 t))) +:+ rest) 0)
        with (byte c0).
      unfold RuneSelf. rewrite (proj2 (Z.leb_le _ _)) by lia.
      simpl andb. cbv iota. by apply Hdone.
  - change (at_ (String c "" +:+ rest) 0) with (byte c). unfold RuneSelf.
    rewrite (proj2 (Z.leb_le _ _)) by lia. simpl andb. cbv iota.
    change (String c "" +:+ rest) with (String c rest).
    rewrite Decode_before_blank by done. cbn [snd].
    change (String c rest) with (String c "" +:+ rest). by apply Hdone.
Qed.

Lemma TrimLeft_blank (l t : string) :
  blank l → TrimLeftFunc (l +:+ t) IsSpace = TrimLeftFunc t IsSpace.
Proof.
  intros Hl. induction Hl as [|r l Hr Hl IH]; [done |].
  rewrite str_app_assoc.
  rewrite TrimLeftFunc_step by (apply app_nonempty, Encode_nonempty).
  rewrite Decode_space by done. cbn [fst snd].
  by rewrite (proj2 (IsSpace_spec r) Hr), from_app.
Qed.

Lemma TrimRight_blank (u r : string) :
  blank r → TrimRightFunc (u +:+ r) IsSpace = TrimRightFunc u IsSpace.
Proof.
  intros Hr. destruct (split_right u) as (a & r' & E & Hr' & Ha).
  subst u. rewrite str_app_assoc.
  rewrite !TrimRight_unique; auto using blank_app.
Qed.

Lemma DecodeLast_ascii (q : string) (c : ascii) :
  byte c < 0x80 →
  DecodeLastRuneInString (q +:+ String c "") = (byte c, 1%nat).
Proof.
  intros Hc. rewrite DecodeLast_app; rewrite ?Decode_ascii by done;
    [done | done | by right].
Qed.

(** The two ASCII loops of [TrimSpace]. *)
Lemma trimSpace_start_spec (s : string) :
  ∃ l, s = l +:+ (trimSpace_start s).1 ∧ blank l
       ∧ ((trimSpace_start s).2 = false →
          (trimSpace_start s).1 = ""
          ∨ ∃ c t, (trimSpace_start s).1 = String c t
                   ∧ byte c < 0x80 ∧ asciiSpace c = false).
Proof.
  induction s as [|c s (l & E & Hl & Hs)]; simpl.
  - exists "". split; [done |]. split; [constructor | by left].
  - unfold RuneSelf. destruct (Z.leb_spec 0x80 (byte c)) as [Hc | Hc].
    + exists "". split; [done |]. split; [constructor | done].
    + destruct (asciiSpace c) eqn:Ec.
      * exists (String c "" +:+ l). split; [simpl; f_equal; exact E |].
        split; [| done]. apply blank_app; [| done].
        by apply asciiSpace_blank.
      * exists "". split; [done |]. split; [constructor |].
        intros _. right. by exists c, s.
Qed.

Lemma trimSpace_stop_spec (t : string) :
  ∃ r, t = (trimSpace_stop t).1 +:+ r ∧ blank r
       ∧ (((trimSpace_stop t).1 = "" ∧ (trimSpace_stop t).2 = false)
          ∨ ∃ q c, (trimSpace_stop t).1 = q +:+ String c ""
                   ∧ if (trimSpace_stop t).2 then 0x80 ≤ byte c
                     else byte c < 0x80 ∧ asciiSpace c = false).
Proof.
  induction t as [|c t (r & E & Hr & Ht)]; simpl.
  - exists "". split; [done |]. split; [constructor | by left].
  - destruct (trimSpace_stop t) as [u fl]. cbn [fst snd] in *.
    destruct u as [|c' u].
    + destruct Ht as [[_ ->] | (q & c0 & Hq & _)];
        [| by destruct q]. simpl in E. subst r.
      unfold RuneSelf. destruct (Z.leb_spec 0x80 (byte c)) as [Hc | Hc].
      * exists t. split; [done |]. split; [done |]. right. by exists "", c.
      * destruct (asciiSpace c) eqn:Ec.
        -- exists (String c t). split; [done |]. split; [| by left].
           change (String c t) with (String c "" +:+ t).
           apply blank_app; [by apply asciiSpace_blank | done].
        -- exists t. split; [done |]. split; [done |]. right.
           by exists "", c.
    + exists r. split; [simpl; f_equal; exact E |]. split; [done |].
      right. destruct Ht as [[? _] | (q & c0 & Hq & Hfl)]; [done |].
      exists (String c q), c0. split; [simpl; f_equal; exact Hq | done].
Qed.

(** The ASCII fast path of [TrimSpace] changes nothing: it is [TrimFunc]
    with [unicode.IsSpace]. *)
Lemma TrimSpace_TrimFunc (s : string) : TrimSpace s = TrimFunc s IsSpace.
Proof.
  unfold TrimSpace, TrimFunc.
  destruct (trimSpace_start_spec s) as (l & E & Hl & Hs).
  destruct (trimSpace_start s) as [t fl]. cbn [fst snd] in *.
  subst s. destruct fl; [by rewrite TrimLeft_blank |].
  assert (t = "" ∨ IsSpace (DecodeRuneInString t).1 = false) as Hfirst.
  { destruct (Hs eq_refl) as [-> | (c & t' & -> & Hc & Hsp)]; [by left |].
    right. rewrite Decode_ascii by done. cbn [fst].
    by rewrite IsSpace_ascii. }
  rewrite TrimLeft_unique by done.
  destruct (trimSpace_stop_spec t) as (r & Et & Hr & Hu).
  destruct (trimSpace_stop t) as [u fl]. cbn [fst snd] in *.
  rewrite Et. clear Et Hfirst Hs. destruct fl; [by rewrite TrimRight_blank |].
  rewrite TrimRight_unique; [done | done |].
  destruct Hu as [[-> _] | (q & c & -> & Hc & Hsp)]; [by left |].
  right. rewrite DecodeLast_ascii by done. cbn [fst].
  by rewrite IsSpace_ascii.
Qed.

(** What [TrimSpace] returns, and that nothing else could be returned. *)
Lemma TrimSpace_split (s : string) :
  ∃ l r, s = l +:+ TrimSpace s +:+ r ∧ blank l ∧ blank r.
Proof.
  rewrite TrimSpace_TrimFunc. unfold TrimFunc.
  destruct (split_left s) as (l & a0 & E & Hl & Ha0).
  destruct (split_right a0) as (a & r & E' & Hr & Ha).
  exists l, r. subst s. rewrite TrimLeft_unique by done.
  subst a0. by rewrite TrimRight_unique by done.
Qed.

Lemma TrimSpace_unique (l m r : string) :
  blank l → blank r →
  IsSpace (DecodeRuneInString (m +:+ r)).1 = false →
  IsSpace (DecodeLastRuneInString m).1 = false →
  TrimSpace (l +:+ m +:+ r) = m.
Proof.
  intros Hl Hr Hfirst Hlast. rewrite TrimSpace_TrimFunc. unfold TrimFunc.
  rewrite TrimLeft_unique by auto. apply TrimRight_unique; auto.
Qed.

End TrimFacts.

(** *** Lower case *)

Module LowerFacts.
Import Strings Utf8 Unicode StringFacts Utf8Facts UnicodeFacts TrimFacts.
Local Open Scope Z_scope.
Local Arguments String.append _ _ : simpl nomatch.

Lemma Map_go_fuels (f : Z → Z) (fuel fuel' : nat) (t : string) :
  (String.length t ≤ fuel)%nat → (String.length t ≤ fuel')%nat →
  Map_go fuel f t = Map_go fuel' f t.
Proof.
  revert fuel' t. induction fuel as [|fuel IH]; intros fuel' t Hf Hf'.
  - destruct t; [by destruct fuel' | simpl in Hf; lia].
  - destruct t as [|c t]; [by destruct fuel' |].
    destruct fuel' as [|fuel']; [simpl in Hf'; lia |].
    pose proof (Decode_width (String c t) ltac:(done)) as [Hw _].
    cbn [Map_go].
    destruct (DecodeRuneInString (String c t)) as [r size]. simpl in Hw.
    f_equal. apply IH; rewrite length_from; simpl in *; lia.
Qed.

Lemma Map_step (f : Z → Z) (s : string) :
  s ≠ "" →
  Map f s
  = (if 0 <=? f (DecodeRuneInString s).1
     then EncodeRune (f (DecodeRuneInString s).1) else "")
    +:+ Map f (from (DecodeRuneInString s).2 s).
Proof.
  intros Hs. destruct s as [|c t]; [done |].
  pose proof (Decode_width (String c t) ltac:(done)) as [Hw _].
  unfold Map. cbn [String.length Map_go].
  destruct (DecodeRuneInString (String c t)) as [r size]. cbn [fst snd] in *.
  f_equal. apply Map_go_fuels; rewrite ?length_from; simpl in *; lia.
Qed.

Lemma Map_nil (f : Z → Z) : Map f "" = "".
Proof. done. Qed.

(** The ASCII path of [ToLower] is [Map] with [unicode.ToLower]. *)
Lemma lower_ascii_chunk (c : ascii) :
  byte c < 0x80 →
  (if 0 <=? Unicode.ToLower (byte c)
   then EncodeRune (Unicode.ToLower (byte c)) else "")
  = String (lowerByte c) "".
Proof.
  destruct c as [[] [] [] [] [] [] [] []]; intros H; try reflexivity;
    by vm_compute in H.
Qed.

Lemma isASCII_cons (c : ascii) (s : string) :
  isASCII (String c s) = true ↔ byte c < 0x80 ∧ isASCII s = true.
Proof.
  simpl. rewrite andb_true_iff, Nat.ltb_lt. unfold byte. split; intros [? ?];
    (split; [lia | done]).
Qed.

Lemma lowerASCII_Map (s : string) :
  isASCII s = true → lowerASCII s = Map Unicode.ToLower s.
Proof.
  induction s as [|c s IH]; [done |].
  intros [Hc Hs]%isASCII_cons.
  rewrite Map_step by done. rewrite Decode_ascii by done. cbn [fst snd].
  rewrite lower_ascii_chunk by done. simpl. by rewrite IH.
Qed.

Lemma lowerASCII_same (s : string) : hasUpper s = false → lowerASCII s = s.
Proof.
  induction s as [|c s IH]; [done |]. intros H.
  change (hasUpper (String c s))
    with (((65 <=? nat_of_ascii c) && (nat_of_ascii c <=? 90))%nat
          || hasUpper s) in H.
  apply orb_false_iff in H as [Hc Hs].
  change (lowerASCII (String c s))
    with (String (lowerByte c) (lowerASCII s)).
  unfold lowerByte. rewrite Hc. by rewrite IH.
Qed.

Lemma ToLower_Map (s : string) :
  Strings.ToLower s = Map Unicode.ToLower s.
Proof.
  unfold Strings.ToLower. destruct (isASCII s) eqn:Ha; [| done].
  rewrite <- lowerASCII_Map by done.
  destruct (hasUpper s) eqn:Hu; [done |]. by rewrite lowerASCII_same.
Qed.

(** What a rune leaves in the output of [Map]. *)
Lemma Decode_nonneg (s : string) : 0 ≤ (DecodeRuneInString s).1.
Proof.
  destruct (DecodeRune_spec s) as [| c t Hc | c t Hc | c0 c1 t H0 H1
    | c0 c1 c2 t H0 H1 Hlo Hhi H2 | c0 c1 c2 c3 t H0 H1 Hlo Hhi H2 H3];
    cbn [fst]; unfold RuneError; try lia.
  pose proof (byte_range c). lia.
Qed.

Lemma Encode_first (r : Z) :
  0x80 ≤ r → ∃ c t, EncodeRune r = String c t ∧ 0x80 ≤ byte c.
Proof.
  intros Hr. unfold EncodeRune.
  rewrite (proj2 (Z.leb_le 0 r)) by lia.
  rewrite (proj2 (Z.leb_gt r 0x7F)) by lia. simpl andb. cbv iota.
  destruct (Z.leb_spec r 0x7FF) as [H2 | H2].
  - eexists _, _. split; [done |].
    rewrite Z.shiftr_div_pow2 by lia.
    assert (0 ≤ r / 2 ^ 6 < 2 ^ 6) as Hq
      by (split; [apply Z.div_pos | apply Z.div_lt_upper_bound]; lia).
    rewrite (lor_lead 0xC0 _ 6) by (done || lia).
    rewrite byte_to_byte; lia.
  - simpl andb. cbv iota zeta.
    match goal with
    | |- context [if ?c then RuneError else r] =>
        set (r' := if c then RuneError else r)
    end.
    assert (0 ≤ r' ≤ MaxRune) as Hr'.
    { subst r'. destruct (_ || _) eqn:E; [by vm_compute |].
      apply orb_false_iff in E as [E _].
      apply orb_false_iff in E as [_ E%Z.ltb_ge]. lia. }
    clearbody r'. unfold MaxRune in Hr'.
    destruct (Z.leb_spec r' 0xFFFF) as [H3 | H3].
    + eexists _, _. split; [done |].
      rewrite Z.shiftr_div_pow2 by lia.
      assert (0 ≤ r' / 2 ^ 12 < 2 ^ 4) as Hq
        by (split; [apply Z.div_pos | apply Z.div_lt_upper_bound]; lia).
      rewrite (lor_lead 0xE0 _ 4) by (done || lia).
      rewrite byte_to_byte; lia.
    + eexists _, _. split; [done |].
      rewrite Z.shiftr_div_pow2 by lia.
      assert (0 ≤ r' / 2 ^ 18 < 2 ^ 3) as Hq
        by (split; [apply Z.div_pos | apply Z.div_lt_upper_bound]; lia).
      rewrite (lor_lead 0xF0 _ 3) by (done || lia).
      rewrite byte_to_byte; lia.
Qed.

Lemma lower_chunk (t : string) :
  t ≠ "" →
  0 ≤ Unicode.ToLower (DecodeRuneInString t).1
  ∧ ((Unicode.ToLower (DecodeRuneInString t).1 < 0x80
      ∧ valid (DecodeRuneInString t).1 (DecodeRuneInString t).2)
     ∨ ∃ c u, EncodeRune (Unicode.ToLower (DecodeRuneInString t).1)
              = String c u ∧ 0x80 ≤ byte c).
Proof.
  intros Ht. pose proof (Decode_nonneg t) as H0.
  destruct (decide ((1 < (DecodeRuneInString t).2)%nat
                    ∨ (DecodeRuneInString t).1 < 0x80)) as [Hv | Hv].
  - destruct (Z.lt_ge_cases (DecodeRuneInString t).1 0x80) as [Hlt | Hge].
    + assert (0 ≤ Unicode.ToLower (DecodeRuneInString t).1 < 0x80) as Hl.
      { unfold Unicode.ToLower.
        rewrite (proj2 (Z.leb_le _ 0x7F)) by lia.
        destruct (Z.leb_spec 0x41 (DecodeRuneInString t).1),
          (Z.leb_spec (DecodeRuneInString t).1 0x5A); simpl; lia. }
      split; [lia |]. left. split; [lia | done].
    + destruct (decide ((DecodeRuneInString t).1 = 0x130)) as [E | N1];
        [rewrite E; split; [by vm_compute |];
         left; split; [by vm_compute | by rewrite <- E] |].
      destruct (decide ((DecodeRuneInString t).1 = 0x212A)) as [E | N2];
        [rewrite E; split; [by vm_compute |];
         left; split; [by vm_compute | by rewrite <- E] |].
      pose proof (ToLower_above _ Hge N1 N2) as Ha.
      split; [lia |]. right. by apply Encode_first.
  - destruct (Decode_invalid t Ht Hv) as [E _]. rewrite E. cbn [fst].
    split; [by vm_compute |]. right. apply Encode_first. by vm_compute.
Qed.

(** The forms of a small letter. *)
Lemma not_space (r : Z) : r ∉ white_space → IsSpace r = false.
Proof.
  intros Hr. destruct (IsSpace r) eqn:E; [| done].
  by apply IsSpace_spec in E.
Qed.

Lemma form_decode (y : ascii) (x t : string) :
  97 ≤ byte y ≤ 122 → x ∈ letter_forms y →
  ∃ r, DecodeRuneInString (x +:+ t) = (r, String.length x)
       ∧ DecodeRuneInString x = (r, String.length x)
       ∧ valid r (String.length x)
       ∧ Unicode.ToLower r = byte y
       ∧ 65 ≤ r ∧ r ∉ white_space.
Proof.
  intros Hy Hx. unfold letter_forms in Hx.
  apply elem_of_cons in Hx as [-> | Hx]; [| apply elem_of_cons in Hx as [-> | Hx]].
  - exists (byte y). simpl String.append. rewrite !Decode_ascii by lia.
    split; [done |]. split; [done |]. split; [right; lia |].
    split; [| split; [lia |]].
    + unfold Unicode.ToLower. rewrite (proj2 (Z.leb_le _ 0x7F)) by lia.
      rewrite (proj2 (Z.leb_gt _ 0x5A)) by lia. by rewrite andb_false_r.
    + unfold white_space. rewrite !elem_of_cons, elem_of_nil. lia.
  - set (Y := ascii_of_nat (nat_of_ascii y - 32)).
    assert (byte Y = byte y - 32) as EY.
    { unfold Y, byte in *. pose proof (nat_ascii_bounded y).
      rewrite nat_ascii_embedding by lia. lia. }
    exists (byte Y). simpl String.append. rewrite !Decode_ascii by lia.
    split; [done |]. split; [done |]. split; [right; lia |].
    split; [| split; [lia |]].
    + unfold Unicode.ToLower. rewrite (proj2 (Z.leb_le _ 0x7F)) by lia.
      rewrite (proj2 (Z.leb_le 0x41 _)) by lia.
      rewrite (proj2 (Z.leb_le _ 0x5A)) by lia. simpl. lia.
    + unfold white_space. rewrite !elem_of_cons, elem_of_nil. lia.
  - apply elem_of_app in Hx as [Hx | Hx].
    + destruct (Ascii.eqb_spec y "i") as [-> | _];
        [| by apply elem_of_nil in Hx].
      apply elem_of_cons in Hx as [-> | Hx]; [| by apply elem_of_nil in Hx].
      exists 0x130.
      split; [reflexivity |]. split; [reflexivity |].
      split; [left; simpl; lia |]. split; [reflexivity |]. split; [lia |].
      unfold white_space. rewrite !elem_of_cons, elem_of_nil. lia.
    + destruct (Ascii.eqb_spec y "k") as [-> | _];
        [| by apply elem_of_nil in Hx].
      apply elem_of_cons in Hx as [-> | Hx]; [| by apply elem_of_nil in Hx].
      exists 0x212A.
      split; [reflexivity |]. split; [reflexivity |].
      split; [left; simpl; lia |]. split; [reflexivity |]. split; [lia |].
      unfold white_space. rewrite !elem_of_cons, elem_of_nil. lia.
Qed.

Lemma form_nonempty (y : ascii) (x : string) : x ∈ letter_forms y → x ≠ "".
Proof.
  unfold letter_forms. intros Hx.
  apply elem_of_cons in Hx as [-> | Hx]; [done |].
  apply elem_of_cons in Hx as [-> | Hx]; [done |].
  apply elem_of_app in Hx as [Hx | Hx].
  - destruct (Ascii.eqb y "i"); [| by apply elem_of_nil in Hx].
    by apply elem_of_cons in Hx as [-> | Hx]; [| apply elem_of_nil in Hx].
  - destruct (Ascii.eqb y "k"); [| by apply elem_of_nil in Hx].
    by apply elem_of_cons in Hx as [-> | Hx]; [| apply elem_of_nil in Hx].
Qed.

Lemma small_byte (y : ascii) :
  (97 ≤ nat_of_ascii y ≤ 122)%nat ↔ 97 ≤ byte y ≤ 122.
Proof. unfold byte. lia. Qed.

(** A word in any of its spellings lowers to the word. *)
Lemma Map_spelt (w m : string) :
  small_letters w → spelt m w → Map Unicode.ToLower m = w.
Proof.
  revert m. induction w as [|y w IH]; intros m Hw Hm; simpl in *.
  - by subst m.
  - destruct Hw as [Hy%small_byte Hw]. destruct Hm as (x & m' & -> & Hx & Hm).
    destruct (form_decode y x m' Hy Hx) as (r & Ed & _ & _ & El & _).
    rewrite Map_step by (apply app_nonempty; by eapply form_nonempty).
    rewrite Ed. cbn [fst snd]. rewrite El.
    rewrite (proj2 (Z.leb_le 0 _)) by lia.
    rewrite Encode_ascii by lia. rewrite from_app.
    rewrite (IH m') by done. done.
Qed.

(** And nothing else lowers to it. *)
Lemma spelt_Map (w t : string) :
  small_letters w → Map Unicode.ToLower t = w → spelt t w.
Proof.
  revert t. induction w as [|y w IH]; intros t Hw Ht.
  - destruct (decide (t = "")) as [-> | Hne]; [done |]. exfalso.
    rewrite Map_step in Ht by done.
    destruct (lower_chunk t Hne) as [H0 _].
    rewrite (proj2 (Z.leb_le 0 _)) in Ht by done.
    pose proof (Encode_nonempty (Unicode.ToLower (DecodeRuneInString t).1)).
    by destruct (EncodeRune (Unicode.ToLower (DecodeRuneInString t).1)).
  - destruct Hw as [Hy%small_byte Hw].
    destruct (decide (t = "")) as [-> | Hne]; [done |].
    rewrite Map_step in Ht by done.
    destruct (lower_chunk t Hne) as [H0 Hc].
    rewrite (proj2 (Z.leb_le 0 _)) in Ht by done.
    destruct Hc as [[Hlt Hv] | (c & u & Ec & Hc)].
    + unfold EncodeRune in Ht.
      rewrite (proj2 (Z.leb_le 0 _)) in Ht by done.
      rewrite (proj2 (Z.leb_le _ 0x7F)) in Ht by lia. simpl in Ht.
      injection Ht as Ey Et.
      assert (Unicode.ToLower (DecodeRuneInString t).1 = byte y) as El
        by (rewrite <- Ey; rewrite byte_to_byte; lia).
      destruct (Decode_encode t Hv) as [Esplit _].
      exists (EncodeRune (DecodeRuneInString t).1),
        (from (DecodeRuneInString t).2 t).
      split; [done |]. split; [| by apply IH].
      unfold letter_forms.
      destruct (ToLower_small _ _ Hy El) as [E | [E | [[E Ei] | [E Ek]]]];
        rewrite E.
      * rewrite Encode_ascii by lia. apply elem_of_cons. by left.
      * apply elem_of_cons. right. apply elem_of_cons. left.
        unfold EncodeRune. rewrite (proj2 (Z.leb_le 0 _)) by lia.
        rewrite (proj2 (Z.leb_le _ 0x7F)) by lia. simpl. f_equal.
        unfold to_byte, byte in *. rewrite Z.mod_small by lia. f_equal. lia.
      * assert (y = "i"%char) as -> by (by apply byte_inj).
        apply elem_of_cons. right. apply elem_of_cons. right. simpl.
        apply elem_of_cons. left. reflexivity.
      * assert (y = "k"%char) as -> by (by apply byte_inj).
        apply elem_of_cons. right. apply elem_of_cons. right. simpl.
        apply elem_of_cons. left. reflexivity.
    + rewrite Ec in Ht. simpl in Ht. injection Ht as -> _. lia.
Qed.

Lemma spelt_last (w m : string) :
  w ≠ "" → small_letters w → spelt m w →
  ∃ m0 x y, m = m0 +:+ x ∧ x ∈ letter_forms y ∧ 97 ≤ byte y ≤ 122.
Proof.
  revert m. induction w as [|y w IH]; intros m Hne Hw Hm; [done |].
  destruct Hw as [Hy%small_byte Hw]. destruct Hm as (x & m' & -> & Hx & Hm).
  destruct (decide (w = "")) as [-> | Hw'].
  - simpl in Hm. subst m'. exists "", x, y. by rewrite str_app_nil_r.
  - destruct (IH m' Hw' Hw Hm) as (m0 & x' & y' & -> & Hx' & Hy').
    exists (x +:+ m0), x', y'. by rewrite str_app_assoc.
Qed.

(** The string [ParseLevel] switches on is a word of small letters exactly
    when the level string names it. *)
Lemma normalized_names (s w : string) :
  w ≠ "" → small_letters w →
  Strings.ToLower (TrimSpace s) = w ↔ names s w.
Proof.
  intros Hne Hw. rewrite ToLower_Map. split.
  - intros E. destruct (TrimSpace_split s) as (l & r & Es & Hl & Hr).
    exists l, (TrimSpace s), r. repeat split; try done. by apply spelt_Map.
  - intros (l & m & r & -> & Hl & Hr & Hm).
    rewrite TrimSpace_unique; [by apply Map_spelt | done | done | |].
    + destruct w as [|y w]; [done |]. destruct Hw as [Hy%small_byte Hw].
      destruct Hm as (x & m' & -> & Hx & Hm). rewrite str_app_assoc.
      destruct (form_decode y x (m' +:+ r) Hy Hx)
        as (c & -> & _ & _ & _ & _ & Hc).
      by apply not_space.
    + destruct (spelt_last w m Hne Hw Hm) as (m0 & x & y & -> & Hx & Hy).
      destruct (form_decode y x "" Hy Hx) as (c & _ & Ed & Hv & _ & _ & Hc).
      rewrite DecodeLast_app; rewrite Ed; [| done | done].
      by apply not_space.
Qed.

End LowerFacts.

Lemma ParseLevel_switch (s : string) :
  let n := Strings.ToLower (Strings.TrimSpace s) in
  (n = "debug" → ParseLevel s = LevelDebug)
  ∧ (n = "info" → ParseLevel s = LevelInfo)
  ∧ (n = "warn" ∨ n = "warning" → ParseLevel s = LevelWarn)
  ∧ (n = "error" → ParseLevel s = LevelError)
  ∧ (n ≠ "debug" → n ≠ "warn" → n ≠ "warning" → n ≠ "error" →
     ParseLevel s = LevelInfo).
Proof.
  intros n. unfold ParseLevel. fold n.
  repeat split.
  - by intros ->.
  - by intros ->.
  - by intros [-> | ->].
  - by intros ->.
  - intros H1 H2 H3 H4.
    rewrite (proj2 (String.eqb_neq n "debug") H1).
    rewrite (proj2 (String.eqb_neq n "warn") H2).
    rewrite (proj2 (String.eqb_neq n "warning") H3).
    rewrite (proj2 (String.eqb_neq n "error") H4).
    by destruct (String.eqb n "info").
Qed.

(** C6, as amended. A level string parses to Debug, Info, Warn or Error
    when it is "debug", "info", "warn" or "warning", or "error", in any
    letter case (U+0130 counts as an "i" and U+212A as a "k", since Go
    lowers them to these) and between any Unicode white space; every other
    string parses to Info. *)
Theorem ParseLevel_vocabulary (s : string) :
  (names s "debug" → ParseLevel s = LevelDebug)
  ∧ (names s "info" → ParseLevel s = LevelInfo)
  ∧ (names s "warn" ∨ names s "warning" → ParseLevel s = LevelWarn)
  ∧ (names s "error" → ParseLevel s = LevelError)
  ∧ (¬ names s "debug" → ¬ names s "warn" → ¬ names s "warning" →
     ¬ names s "error" → ParseLevel s = LevelInfo).
Proof.
  assert (Hn : ∀ w, w ≠ "" → small_letters w →
            Strings.ToLower (Strings.TrimSpace s) = w ↔ names s w)
    by (intros; by apply LowerFacts.normalized_names).
  assert (small : ∀ w, w ∈ ["debug"; "info"; "warn"; "warning"; "error"] →
            w ≠ "" ∧ small_letters w).
  { intros w. rewrite !elem_of_cons, elem_of_nil.
    intros [-> | [-> | [-> | [-> | [-> | []]]]]]; (split; [done |]);
      simpl; repeat split; vm_compute; lia. }
  assert (Hw : ∀ w, w ∈ ["debug"; "info"; "warn"; "warning"; "error"] →
            Strings.ToLower (Strings.TrimSpace s) = w ↔ names s w).
  { intros w Hin. destruct (small w Hin). by apply Hn. }
  destruct (ParseLevel_switch s) as (D & I & W & E & O). simpl in *.
  rewrite <- (Hw "debug"), <- (Hw "info"), <- (Hw "warn"), <- (Hw "warning"),
    <- (Hw "error") by (rewrite !elem_of_cons; auto 10).
  auto.
Qed.

Lemma ParseLevel_vocabulary_witness :
  ParseLevel (Utf8.EncodeRune 0xA0 +:+ "WARN" +:+ Utf8.EncodeRune 0x130
              +:+ "ng" +:+ Utf8.EncodeRune 0x3000 +:+ " ")
  = LevelWarn.
Proof.
  apply (proj1 (proj2 (proj2 (ParseLevel_vocabulary _)))).
  right.
  exists (Utf8.EncodeRune 0xA0),
    ("WARN" +:+ Utf8.EncodeRune 0x130 +:+ "ng"),
    (Utf8.EncodeRune 0x3000 +:+ Utf8.EncodeRune 0x20).
  split; [reflexivity |].
  split; [apply TrimFacts.blank_one; unfold white_space;
          rewrite !elem_of_cons; auto 30 |].
  split; [apply TrimFacts.blank_app; apply TrimFacts.blank_one;
          unfold white_space; rewrite !elem_of_cons; auto 30 |].
  exists "W", ("ARN" +:+ Utf8.EncodeRune 0x130 +:+ "ng").
  split; [reflexivity |].
  split; [apply elem_of_cons; right; apply elem_of_cons; by left |].
  exists "A", ("RN" +:+ Utf8.EncodeRune 0x130 +:+ "ng").
  split; [reflexivity |].
  split; [apply elem_of_cons; right; apply elem_of_cons; by left |].
  exists "R", ("N" +:+ Utf8.EncodeRune 0x130 +:+ "ng").
  split; [reflexivity |].
  split; [apply elem_of_cons; right; apply elem_of_cons; by left |].
  exists "N", (Utf8.EncodeRune 0x130 +:+ "ng").
  split; [reflexivity |].
  split; [apply elem_of_cons; right; apply elem_of_cons; by left |].
  exists (Utf8.EncodeRune 0x130), "ng".
  split; [reflexivity |].
  split; [apply elem_of_cons; right; apply elem_of_cons; right;
          apply elem_of_cons; by left |].
  exists "n", "g".
  split; [reflexivity |]. split; [apply elem_of_cons; by left |].
  exists "g", "".
  split; [reflexivity |]. split; [apply elem_of_cons; by left |].
  reflexivity.
Defined.

Lemma same_letter_apart (x y : ascii) :
  nat_of_ascii x ≠ nat_of_ascii y →
  nat_of_ascii y ≠ nat_of_ascii x + 32 →
  nat_of_ascii x ≠ nat_of_ascii y + 32 → ¬ same_letter x y.
Proof. intros H1 H2 H3 [-> | [[_ ?] | [_ ?]]]; [done | lia | lia]. Qed.

Ltac refute_spells H :=
  lazymatch type of H with
  | False => exact H
  | _ ∧ _ =>
      let H1 := fresh in
      destruct H as [H1 H];
      first [ by (revert H1; apply same_letter_apart; vm_compute; lia)
            | refute_spells H ]
  end.

(** C6, as stated, fails: "warning" is none of the four names in any
    letter case, and neither is " debug", yet they parse to Warn and to
    Debug, not to Info. *)
Lemma ParseLevel_outside_vocabulary :
  (¬ spells "warning" "debug" ∧ ¬ spells "warning" "info"
   ∧ ¬ spells "warning" "warn" ∧ ¬ spells "warning" "error"
   ∧ ParseLevel "warning" = LevelWarn ∧ LevelWarn ≠ LevelInfo)
  ∧ (¬ spells " debug" "debug" ∧ ¬ spells " debug" "info"
     ∧ ¬ spells " debug" "warn" ∧ ¬ spells " debug" "error"
     ∧ ParseLevel " debug" = LevelDebug ∧ LevelDebug ≠ LevelInfo).
Proof.
  split; repeat split; try done; simpl; intros H; refute_spells H.
Qed.

(** ** The cached values *)

Local Open Scope Z_scope.

Lemma ParseLevel_range (s : string) :
  ParseLevel s = LevelDebug ∨ ParseLevel s = LevelInfo
  ∨ ParseLevel s = LevelWarn ∨ ParseLevel s = LevelError.
Proof.
  unfold ParseLevel.
  repeat match goal with |- context [if ?b then _ else _] => destruct b end; auto.
Qed.

Lemma ParseLevel_le_Error (s : string) : ParseLevel s ≤ LevelError.
Proof.
  destruct (ParseLevel_range s) as [-> | [-> | [-> | ->]]];
    unfold LevelDebug, LevelInfo, LevelWarn, LevelError; lia.
Qed.

Lemma IsSourceFilter_spec (f : LogFilter) :
  IsSourceFilter f = true
  ↔ Type_ f = "source:file" ∨ Type_ f = "source:function".
Proof.
  unfold IsSourceFilter, IsSourceFileFilter, IsSourceFunctionFilter.
  by rewrite orb_true_iff, !String.eqb_eq.
Qed.

(** The loop of [updateLowestLevel], from any starting pair. *)
Lemma updateStep_fold (now : Time) (L : list LogFilter) (acc : slog_Level * bool) :
  let res := fold_left (updateStep now) L acc in
  (∀ f, f ∈ L → IsActive now f = true → fst res ≤ ParseLevel (Level f))
  ∧ fst res ≤ fst acc
  ∧ (fst res = fst acc
     ∨ ∃ f, f ∈ L ∧ IsActive now f = true ∧ ParseLevel (Level f) = fst res)
  ∧ (snd res = true
     ↔ snd acc = true
       ∨ ∃ f, f ∈ L ∧ IsActive now f = true ∧ IsSourceFilter f = true).
Proof.
  revert acc. induction L as [|g L IH]; intros acc; simpl.
  - repeat split; try lia; auto.
    + intros f Hf. by apply elem_of_nil in Hf.
    + intros [? | (f & Hf & _)]; [done | by apply elem_of_nil in Hf].
  - destruct (IH (updateStep now acc g)) as (H1 & H2 & H3 & H4).
    assert (Hstep : fst (updateStep now acc g) ≤ fst acc
      ∧ (IsActive now g = true → fst (updateStep now acc g) ≤ ParseLevel (Level g))
      ∧ (fst (updateStep now acc g) = fst acc
         ∨ IsActive now g = true ∧ ParseLevel (Level g) = fst (updateStep now acc g))
      ∧ (snd (updateStep now acc g) = true
         ↔ snd acc = true ∨ IsActive now g = true ∧ IsSourceFilter g = true)).
    { unfold updateStep. destruct (IsActive now g); simpl.
      - destruct (Z.ltb_spec (ParseLevel (Level g)) (fst acc));
          destruct (IsSourceFilter g); simpl; repeat split; try lia; auto;
          try tauto; intuition congruence.
      - repeat split; try lia; auto; try tauto; intuition congruence. }
    destruct Hstep as (S1 & S2 & S3 & S4).
    repeat split.
    + intros f Hf Ha. apply elem_of_cons in Hf as [-> | Hf]; [| by apply H1].
      specialize (S2 Ha). lia.
    + lia.
    + destruct H3 as [E | (f & Hf & Ha & E)].
      * destruct S3 as [E' | [Ha E']]; [left; congruence |].
        right. exists g. rewrite elem_of_cons. split; [by left |]. split; [done | congruence].
      * right. exists f. rewrite elem_of_cons. auto.
    + intros Hs. apply H4 in Hs as [Hs | (f & Hf & Ha & Hsrc)].
      * apply S4 in Hs as [Hs | [Ha Hsrc]]; [by left |].
        right. exists g. rewrite elem_of_cons. auto.
      * right. exists f. rewrite elem_of_cons. auto.
    + intros [Hs | (f & Hf & Ha & Hsrc)]; apply H4.
      * left. apply S4. by left.
      * apply elem_of_cons in Hf as [-> | Hf].
        -- left. apply S4. auto.
        -- right. eauto.
Qed.

Lemma deref_store (w : World) (h : nat) (hd : Handler) :
  (h < length (handlers w))%nat → deref (store w h hd) h = hd.
Proof.
  intros Hh. unfold deref, store; simpl.
  by rewrite list_lookup_insert_eq.
Qed.

Lemma deref_store_ne (w : World) (h k : nat) (hd : Handler) :
  h ≠ k → deref (store w h hd) k = deref w k.
Proof.
  intros Hh. unfold deref, store; simpl.
  by rewrite list_lookup_insert_ne.
Qed.

Lemma length_handlers_store (w : World) (h : nat) (hd : Handler) :
  length (handlers (store w h hd)) = length (handlers w).
Proof. unfold store; simpl. apply length_insert. Qed.

Lemma filtersOf_set_filters (w : World) (h : nat) (s : Slice) :
  (h < length (handlers w))%nat →
  filtersOf (set_filters w h s) h = elems (filterArrays w) s.
Proof.
  intros Hh. unfold filtersOf, set_filters. by rewrite deref_store.
Qed.

Lemma filtersOf_updateLowestLevel (w : World) (h : nat) (now : Time) :
  filtersOf (updateLowestLevel w h now) h = filtersOf w h.
Proof.
  unfold updateLowestLevel.
  destruct (fold_left _ _ _) as [lo hs].
  unfold filtersOf at 1. simpl.
  destruct (decide (h < length (handlers w))%nat) as [Hh | Hh].
  - by rewrite deref_store.
  - unfold deref, store; simpl.
    rewrite list_insert_ge by lia. done.
Qed.

Lemma cache_updateLowestLevel (w : World) (h : nat) (now : Time) :
  (h < length (handlers w))%nat →
  (lowestLevel (deref (updateLowestLevel w h now) h),
   hasSourceFilters (deref (updateLowestLevel w h now) h))
  = fold_left (updateStep now) (filtersOf w h) (LevelError + 1, false).
Proof.
  intros Hh. unfold updateLowestLevel.
  destruct (fold_left _ _ _) as [lo hs]. by rewrite deref_store.
Qed.

Lemma mutate_cache (rt : Runtime) (w : World) (h : nat) (m : Mutation) (now : Time) :
  (h < length (handlers w))%nat →
  (lowestLevel (deref (mutate rt w h m now) h),
   hasSourceFilters (deref (mutate rt w h m now) h))
  = fold_left (updateStep now) (filtersOf (mutate rt w h m now) h)
              (LevelError + 1, false).
Proof.
  intros Hh. destruct m as [fs | f | t p |]; simpl.
  - unfold SetFilters. destruct (make_from _ _ _ _) as [arrays s].
    rewrite filtersOf_updateLowestLevel. apply cache_updateLowestLevel.
    unfold set_filters. by rewrite length_handlers_store.
  - unfold AddFilter. destruct (append _ _ _ _ _) as [arrays s].
    rewrite filtersOf_updateLowestLevel. apply cache_updateLowestLevel.
    unfold set_filters. by rewrite length_handlers_store.
  - unfold RemoveFilter. destruct (make_from _ _ _ _) as [arrays s].
    rewrite filtersOf_updateLowestLevel. apply cache_updateLowestLevel.
    unfold set_filters. by rewrite length_handlers_store.
  - unfold ClearFilters, filtersOf. by rewrite deref_store.
Qed.

(** ** The store of backing arrays *)

Lemma length_write_at {A} (xs arr : list A) (i : nat) :
  length (write_at i xs arr) = length arr.
Proof.
  revert i arr. induction xs as [|x xs IH]; intros i arr; simpl; [done |].
  by rewrite IH, length_insert.
Qed.

Lemma take_write_at {A} (xs arr : list A) (i j : nat) :
  (j ≤ i)%nat → take j (write_at i xs arr) = take j arr.
Proof.
  revert i arr. induction xs as [|x xs IH]; intros i arr Hj; simpl; [done |].
  rewrite IH by lia. apply take_insert_ge. lia.
Qed.

Lemma write_at_app {A} (xs arr : list A) (i : nat) :
  (i + length xs ≤ length arr)%nat →
  take (i + length xs) (write_at i xs arr) = take i arr ++ xs.
Proof.
  revert i arr. induction xs as [|x xs IH]; intros i arr Hl; simpl in *.
  - by rewrite Nat.add_0_r, app_nil_r.
  - replace (i + S (length xs))%nat with (S i + length xs)%nat by lia.
    rewrite IH by (rewrite length_insert; lia).
    rewrite (take_S_r _ _ x) by (apply list_lookup_insert_eq; lia).
    rewrite take_insert_ge by lia. by rewrite <- app_assoc.
Qed.

Lemma extends_refl {A} (arrays : list (list A)) : extends arrays arrays.
Proof. intros b arr H. eauto. Qed.

Lemma extends_app {A} (arrays more : list (list A)) :
  extends arrays (arrays ++ more).
Proof.
  intros b arr H. exists arr. split; [| done].
  by apply lookup_app_l_Some.
Qed.

Lemma extends_alter {A} (arrays : list (list A)) (f : list A → list A) (b : nat) :
  (∀ arr, length (f arr) = length arr) → extends arrays (alter f b arrays).
Proof.
  intros Hf c arr H. destruct (decide (b = c)) as [-> | Hne].
  - exists (f arr). by rewrite list_lookup_alter_eq, H.
  - exists arr. by rewrite list_lookup_alter_ne.
Qed.

Lemma slice_ok_extends {A} (arrays arrays' : list (list A)) (s : Slice) :
  extends arrays arrays' → slice_ok arrays s → slice_ok arrays' s.
Proof.
  intros He [H | (arr & Ha & Hl & Hc)]; [by left |].
  destruct (He _ _ Ha) as (arr' & Ha' & Hlen).
  right. exists arr'. rewrite Hlen. done.
Qed.

Lemma length_elems {A} (arrays : list (list A)) (s : Slice) :
  (length (elems arrays s) ≤ len s)%nat.
Proof. unfold elems. rewrite length_take. lia. Qed.

Lemma elems_make_from {A} (zero : A) (arrays : list (list A)) (xs : list A)
    (c : nat) :
  elems (fst (make_from zero arrays xs c)) (snd (make_from zero arrays xs c)) = xs.
Proof.
  unfold make_from, elems; simpl.
  rewrite list_lookup_middle by done. simpl.
  by rewrite take_app_length.
Qed.

Lemma make_from_ok {A} (zero : A) (arrays : list (list A)) (xs : list A)
    (c : nat) :
  (length xs ≤ c)%nat →
  extends arrays (fst (make_from zero arrays xs c))
  ∧ slice_ok (fst (make_from zero arrays xs c)) (snd (make_from zero arrays xs c)).
Proof.
  intros Hc. unfold make_from; simpl. split; [apply extends_app |].
  right. exists (xs ++ replicate (c - length xs) zero).
  rewrite list_lookup_middle by done. simpl.
  rewrite length_app, length_replicate. repeat split; lia.
Qed.

Lemma append_ok {A} (zero : A) (rt : Runtime) (arrays : list (list A))
    (s : Slice) (xs : list A) :
  slice_ok arrays s →
  extends arrays (fst (append zero rt arrays s xs))
  ∧ slice_ok (fst (append zero rt arrays s xs)) (snd (append zero rt arrays s xs))
  ∧ elems (fst (append zero rt arrays s xs)) (snd (append zero rt arrays s xs))
    = elems arrays s ++ xs
  ∧ elems (fst (append zero rt arrays s xs)) s = elems arrays s.
Proof.
  intros Hs. unfold append.
  destruct (Nat.leb_spec (len s + length xs) (cap s)) as [Hfit | Hgrow].
  - simpl. split; [apply extends_alter; intros; apply length_write_at |].
    destruct Hs as [[Hl Hc] | (arr & Ha & Hl & Hc)].
    + assert (length xs = 0)%nat as Hx by lia.
      apply nil_length_inv in Hx as ->.
      split; [left; simpl; lia |].
      unfold elems; simpl. rewrite Hl, Nat.add_0_r. simpl. done.
    + split.
      { right. exists (write_at (len s) xs arr). simpl.
        rewrite list_lookup_alter_eq, Ha, length_write_at. done. }
      unfold elems; simpl. rewrite list_lookup_alter_eq, Ha. simpl.
      split; [apply write_at_app; lia | apply take_write_at; lia].
  - pose proof (length_elems arrays s) as Hle.
    destruct (make_from_ok zero arrays (elems arrays s ++ xs)
                (len s + length xs + growslice_spare rt (cap s) (len s + length xs)))
      as [He Hok]; [rewrite length_app; lia |].
    split; [done |]. split; [done |]. split; [apply elems_make_from |].
    unfold make_from, elems; simpl.
    destruct Hs as [[Hl Hc] | (arr & Ha & Hl & Hc)].
    + by rewrite Hl.
    + by rewrite (lookup_app_l_Some _ _ _ _ Ha), Ha.
Qed.

Lemma elems_app_ok {A} (arrays more : list (list A)) (s : Slice) :
  slice_ok arrays s → elems (arrays ++ more) s = elems arrays s.
Proof.
  intros [[Hl _] | (arr & Ha & _)]; unfold elems.
  - by rewrite Hl.
  - by rewrite (lookup_app_l_Some _ _ _ _ Ha), Ha.
Qed.

(** An [append] to one slice leaves what another slice shows alone, unless
    it stays in place in the array both name, below the other's length. *)
Lemma elems_append_other {A} (zero : A) (rt : Runtime) (arrays : list (list A))
    (sk sh : Slice) (xs : list A) :
  slice_ok arrays sh →
  ¬ (base sk = base sh ∧ (len sk < len sh)%nat
     ∧ (len sk + length xs ≤ cap sk)%nat) →
  elems (fst (append zero rt arrays sk xs)) sh = elems arrays sh.
Proof.
  intros Hok Hno. unfold append.
  destruct (Nat.leb_spec (len sk + length xs) (cap sk)) as [Hfit | Hfit];
    simpl; [| by apply elems_app_ok].
  unfold elems. destruct (decide (base sk = base sh)) as [E | E].
  - rewrite <- E, list_lookup_alter_eq.
    destruct (arrays !! base sk) as [arr|]; simpl; [| done].
    apply take_write_at. lia.
  - by rewrite list_lookup_alter_ne.
Qed.

(** ** Reachable worlds are well formed *)

Lemma lookup_store (w : World) (h k : nat) (hd hd' : Handler) :
  handlers (store w h hd) !! k = Some hd' →
  (k = h ∧ hd' = hd) ∨ handlers w !! k = Some hd'.
Proof.
  unfold store; simpl. intros H.
  destruct (decide (h = k)) as [-> | Hne].
  - apply list_lookup_insert_Some in H as [(_ & -> & _) | [? _]]; [by left | done].
  - rewrite list_lookup_insert_ne in H by done. by right.
Qed.

Lemma deref_lookup (w : World) (h : nat) (hd : Handler) :
  handlers w !! h = Some hd → deref w h = hd.
Proof. unfold deref. by intros ->. Qed.

Lemma lookup_deref (w : World) (h : nat) :
  (h < length (handlers w))%nat → handlers w !! h = Some (deref w h).
Proof.
  intros Hh. unfold deref.
  destruct (lookup_lt_is_Some_2 _ _ Hh) as [hd ->]. done.
Qed.

Lemma arrays_updateLowestLevel (w : World) (h : nat) (now : Time) :
  filterArrays (updateLowestLevel w h now) = filterArrays w
  ∧ attrArrays (updateLowestLevel w h now) = attrArrays w.
Proof. unfold updateLowestLevel. by destruct (fold_left _ _ _). Qed.

(** Installing a fitting slice as [h.filters] and recomputing the cache
    keeps the world well formed. *)
Lemma install_ok (w : World) (h : nat) (arrays : list (list LogFilter))
    (s : Slice) (now : Time) :
  World_ok w → extends (filterArrays w) arrays → slice_ok arrays s →
  World_ok (updateLowestLevel (set_filters (with_filterArrays w arrays) h s) h now).
Proof.
  intros Hw He Hs k hd Hk.
  destruct (arrays_updateLowestLevel
              (set_filters (with_filterArrays w arrays) h s) h now) as [-> ->].
  change (slice_ok arrays (filters hd)
          ∧ slice_ok (attrArrays w) (preformattedAttrs hd)).
  unfold updateLowestLevel in Hk. destruct (fold_left _ _ _) as [lo hs].
  apply lookup_store in Hk.
  assert (Hold : ∀ k hd, handlers w !! k = Some hd →
            slice_ok arrays (filters hd)
            ∧ slice_ok (attrArrays w) (preformattedAttrs hd)).
  { intros k' hd' H'. destruct (Hw _ _ H') as [H1 H2].
    split; [by apply (slice_ok_extends (filterArrays w)) | done]. }
  assert (Hmid : ∀ k hd,
            handlers (set_filters (with_filterArrays w arrays) h s) !! k = Some hd →
            slice_ok arrays (filters hd)
            ∧ slice_ok (attrArrays w) (preformattedAttrs hd)).
  { intros k' hd' H'. unfold set_filters in H'.
    apply lookup_store in H' as [[-> ->] | H']; [| by apply (Hold k')].
    simpl. split; [done |].
    destruct (handlers w !! h) as [hd0|] eqn:E0.
    - rewrite (deref_lookup (with_filterArrays w arrays) h hd0) by done.
      by destruct (Hold _ _ E0).
    - unfold deref; simpl. rewrite E0. simpl. left. done. }
  simpl. destruct Hk as [[-> ->] | Hk]; [| by apply (Hmid k)].
  simpl.
  destruct (handlers (set_filters (with_filterArrays w arrays) h s) !! h)
    as [hd0|] eqn:E0.
  - rewrite (deref_lookup _ h hd0) by done. by apply (Hmid h).
  - unfold deref. rewrite E0. simpl. split; left; done.
Qed.

Lemma filtersOf_install (w : World) (h : nat) (arrays : list (list LogFilter))
    (s : Slice) (now : Time) :
  (h < length (handlers w))%nat →
  filtersOf (updateLowestLevel (set_filters (with_filterArrays w arrays) h s) h now) h
  = elems arrays s.
Proof.
  intros Hh. rewrite filtersOf_updateLowestLevel.
  by rewrite filtersOf_set_filters.
Qed.

Lemma keeps_filters_after (t p : string) (old : list LogFilter) :
  List.filter (keeps t p) old = filters_after (DoRemoveFilter t p) old.
Proof.
  simpl. apply List.filter_ext. intros f. unfold keeps.
  by rewrite negb_andb.
Qed.

(** Each mutating operation keeps the world well formed and leaves the
    handler with the list the operation stands for: the given list, the old
    list with the rule at its end, the old list without the rules of that
    type and pattern, the empty list. *)
Lemma mutate_ok (rt : Runtime) (w : World) (h : nat) (m : Mutation) (now : Time) :
  World_ok w → (h < length (handlers w))%nat →
  World_ok (mutate rt w h m now)
  ∧ filtersOf (mutate rt w h m now) h = filters_after m (filtersOf w h).
Proof.
  intros Hw Hh. destruct m as [fs | f | t p |].
  - cbn [mutate filters_after]. unfold SetFilters.
    destruct (make_from_ok zeroFilter (filterArrays w) fs (length fs)) as [He Hs];
      [lia |].
    pose proof (elems_make_from zeroFilter (filterArrays w) fs (length fs)) as Hel.
    destruct (make_from _ _ _ _) as [arrays s]. simpl in *.
    split; [by apply install_ok |]. by rewrite filtersOf_install.
  - cbn [mutate filters_after]. unfold AddFilter.
    destruct (Hw h _ (lookup_deref w h Hh)) as [Hf _].
    destruct (append_ok zeroFilter rt (filterArrays w) (filters (deref w h)) [f] Hf)
      as (He & Hs & Hel & _).
    destruct (append _ _ _ _ _) as [arrays s]. simpl in *.
    split; [by apply install_ok |]. by rewrite filtersOf_install.
  - cbn [mutate]. rewrite <- keeps_filters_after. unfold RemoveFilter.
    destruct (make_from_ok zeroFilter (filterArrays w)
                (List.filter (keeps t p) (filtersOf w h))
                (len (filters (deref w h))))
      as [He Hs].
    { pose proof (List.filter_length_le (keeps t p) (filtersOf w h)).
      pose proof (length_elems (filterArrays w) (filters (deref w h))).
      unfold filtersOf in *. lia. }
    pose proof (elems_make_from zeroFilter (filterArrays w)
                  (List.filter (keeps t p) (filtersOf w h))
                  (len (filters (deref w h)))) as Hel.
    destruct (make_from _ _ _ _) as [arrays s]. simpl in *.
    split; [by apply install_ok |]. by rewrite filtersOf_install.
  - cbn [mutate filters_after]. unfold ClearFilters. split.
    + intros k hd Hk. apply lookup_store in Hk as [[-> ->] | Hk]; [| by apply (Hw k)].
      simpl. split; [by left |].
      by destruct (Hw h _ (lookup_deref w h Hh)).
    + unfold filtersOf. by rewrite deref_store.
Qed.

Lemma derive_ok (w : World) (hd : Handler) (arrays : list (list Attr)) :
  World_ok w → extends (attrArrays w) arrays →
  slice_ok (filterArrays w) (filters hd) →
  slice_ok arrays (preformattedAttrs hd) →
  World_ok (mkWorld (levelVars w) (filterArrays w) arrays
                    (handlers w ++ [hd]) (contextExtractors w)).
Proof.
  intros Hw He Hf Hp k hd' Hk. simpl in *.
  apply lookup_app_Some in Hk as [Hk | [_ Hk]].
  - destruct (Hw _ _ Hk) as [H1 H2].
    split; [done | by apply (slice_ok_extends (attrArrays w))].
  - apply list_lookup_singleton_Some in Hk as [_ <-]. done.
Qed.

Lemma Reachable_ok (rt : Runtime) (w : World) : Reachable rt w → World_ok w.
Proof.
  induction 1 as [levels | w sink lv _ IH | w h m now _ IH Hh
                 | w h attrs _ IH Hh | w h name _ IH Hh
                 | w lv level _ IH | w key e _ IH | w key _ IH].
  - intros k hd Hk. simpl in Hk. by rewrite lookup_nil in Hk.
  - unfold NewHandler. simpl.
    apply (derive_ok w _ (attrArrays w)); try done.
    + apply extends_refl.
    + by left.
    + by left.
  - by apply mutate_ok.
  - unfold WithAttrs.
    destruct (IH h _ (lookup_deref w h Hh)) as [Hf Hp].
    destruct (append_ok zeroAttr rt (attrArrays w)
                (preformattedAttrs (deref w h)) attrs Hp) as (He & Hs & _).
    destruct (append _ _ _ _ _) as [arrays s]. simpl in *.
    by apply derive_ok.
  - unfold WithGroup. simpl.
    destruct (IH h _ (lookup_deref w h Hh)) as [Hf Hp].
    apply (derive_ok w _ (attrArrays w)); try done. apply extends_refl.
  - done.
  - done.
  - done.
Qed.

(** ** The cached values after a mutation *)

(** C7. After each of the four mutating operations, at the instant it ran:
    [lowestLevel] is the level just above Error when no rule of the handler
    is active, and otherwise the least parsed level of its active rules;
    [hasSourceFilters] holds exactly when an active rule has the type
    "source:file" or "source:function".  (In a well-formed world those
    rules are the list the operation stands for.) *)
Theorem cache_after_mutation (rt : Runtime) (w : World) (h : nat)
    (m : Mutation) (now : Time) :
  (h < length (handlers w))%nat →
  let w' := mutate rt w h m now in
  let rules := filtersOf w' h in
  let hd := deref w' h in
  ((∀ f, f ∈ rules → IsActive now f = false) →
     lowestLevel hd = LevelError + 1)
  ∧ ((∃ f, f ∈ rules ∧ IsActive now f = true) →
     (∃ f, f ∈ rules ∧ IsActive now f = true
           ∧ ParseLevel (Level f) = lowestLevel hd)
     ∧ (∀ f, f ∈ rules → IsActive now f = true →
           lowestLevel hd ≤ ParseLevel (Level f)))
  ∧ (hasSourceFilters hd = true
     ↔ ∃ f, f ∈ rules ∧ IsActive now f = true
            ∧ (Type_ f = "source:file" ∨ Type_ f = "source:function"))
  ∧ (World_ok w → rules = filters_after m (filtersOf w h)).
Proof.
  intros Hh w' rules hd.
  pose proof (mutate_cache rt w h m now Hh) as Hc.
  fold w' in Hc. fold rules in Hc. fold hd in Hc.
  destruct (updateStep_fold now rules (LevelError + 1, false))
    as (H1 & H2 & H3 & H4).
  rewrite <- Hc in H1, H2, H3, H4. simpl in H1, H2, H3, H4.
  split; [| split; [| split]]; [| | | intros Hw; by apply mutate_ok].
  - intros Hnone. destruct H3 as [E | (f & Hf & Ha & _)]; [done |].
    rewrite (Hnone f Hf) in Ha. done.
  - intros (g & Hg & Hga). split; [| done].
    destruct H3 as [E | H3]; [| done].
    specialize (H1 g Hg Hga). pose proof (ParseLevel_le_Error (Level g)).
    unfold LevelError in *. lia.
  - rewrite H4. split.
    + intros [? | (f & Hf & Ha & Hs)]; [done |].
      exists f. by rewrite <- IsSourceFilter_spec.
    + intros (f & Hf & Ha & Hs). right. exists f.
      by rewrite IsSourceFilter_spec.
Qed.

(** ** The fast path *)

Lemma IsActive_earlier (t0 t : Time) (f : LogFilter) :
  t0 ≤ t → IsActive t f = true → IsActive t0 f = true.
Proof.
  intros Ht. unfold IsActive, IsExpired, Time_After.
  destruct (Enabled f); [simpl | done].
  destruct (ExpiresAt f) as [e|]; [| done].
  destruct (Time_IsZero e); [done |].
  rewrite !negb_true_iff, !Z.ltb_ge. lia.
Qed.

Lemma scanFilters_Some (hit : LogFilter → bool) (L : list LogFilter) (i j : nat)
    (f : LogFilter) :
  scanFilters hit i L = Some (j, f) →
  ∃ pre post, L = pre ++ f :: post ∧ j = (i + length pre)%nat
              ∧ Forall (λ g, hit g = false) pre ∧ hit f = true.
Proof.
  revert i. induction L as [|g L IH]; intros i; simpl; [done |].
  destruct (hit g) eqn:E.
  - intros [= <- <-]. exists [], L. repeat split; auto; simpl; lia.
  - intros H. apply IH in H as (pre & post & -> & -> & Hpre & Hf).
    exists (g :: pre), post. repeat split; auto; simpl; lia.
Qed.

Lemma scanFilters_first (hit : LogFilter → bool) (pre post : list LogFilter)
    (f : LogFilter) (i : nat) :
  Forall (λ g, hit g = false) pre → hit f = true →
  scanFilters hit i (pre ++ f :: post) = Some ((i + length pre)%nat, f).
Proof.
  revert i. induction pre as [|g pre IH]; intros i Hpre Hf; simpl.
  - rewrite Hf. do 2 f_equal. lia.
  - inversion Hpre as [|? ? Hg Hpre']; subst. rewrite Hg.
    rewrite IH by done. do 2 f_equal. lia.
Qed.

Lemma scanFilters_None (hit : LogFilter → bool) (L : list LogFilter) (i : nat) :
  scanFilters hit i L = None ↔ Forall (λ g, hit g = false) L.
Proof.
  revert i. induction L as [|g L IH]; intros i; simpl.
  - split; auto.
  - destruct (hit g) eqn:E.
    + split; [done |]. intros H. inversion H; congruence.
    + rewrite IH. split; [by constructor | by inversion 1].
Qed.

Lemma hits_active reg attrs sf sfn ctx now f :
  hits reg attrs sf sfn ctx now f = true → IsActive now f = true.
Proof. unfold hits. by intros [? _]%andb_true_iff. Qed.

Lemma length_handlers_updateLowestLevel (w : World) (h : nat) (now : Time) :
  length (handlers (updateLowestLevel w h now)) = length (handlers w).
Proof.
  unfold updateLowestLevel. destruct (fold_left _ _ _).
  apply length_handlers_store.
Qed.

Lemma length_handlers_mutate (rt : Runtime) (w : World) (h : nat)
    (m : Mutation) (now : Time) :
  length (handlers (mutate rt w h m now)) = length (handlers w).
Proof.
  destruct m; simpl; unfold SetFilters, AddFilter, RemoveFilter, ClearFilters.
  - destruct (make_from _ _ _ _).
    rewrite length_handlers_updateLowestLevel. unfold set_filters.
    by rewrite length_handlers_store.
  - destruct (append _ _ _ _ _).
    rewrite length_handlers_updateLowestLevel. unfold set_filters.
    by rewrite length_handlers_store.
  - destruct (make_from _ _ _ _).
    rewrite length_handlers_updateLowestLevel. unfold set_filters.
    by rewrite length_handlers_store.
  - apply length_handlers_store.
Qed.

Lemma CacheCovers_mutate (rt : Runtime) (w : World) (h : nat) (m : Mutation)
    (t0 : Time) :
  (h < length (handlers w))%nat → CacheCovers t0 (mutate rt w h m t0) h.
Proof.
  intros Hh.
  pose proof (mutate_cache rt w h m t0 Hh) as Hc.
  destruct (updateStep_fold t0 (filtersOf (mutate rt w h m t0) h)
              (LevelError + 1, false)) as (H1 & _ & _ & H4).
  rewrite <- Hc in H1, H4. simpl in H1, H4.
  split; [| split].
  - by rewrite length_handlers_mutate.
  - done.
  - intros f Hf Ha Hs. apply H4. right. eauto.
Qed.

Lemma deref_app_old (w : World) (h : nat) (hs : list Handler) lv fa aa reg :
  (h < length (handlers w))%nat →
  deref (mkWorld lv fa aa (handlers w ++ hs) reg) h = deref w h.
Proof. intros Hh. unfold deref; simpl. by rewrite lookup_app_l. Qed.

Lemma deref_app_new (w : World) (hd : Handler) lv fa aa reg :
  deref (mkWorld lv fa aa (handlers w ++ [hd]) reg) (length (handlers w)) = hd.
Proof.
  unfold deref; simpl. by rewrite list_lookup_middle.
Qed.

Lemma deref_updateLowestLevel_ne (w : World) (k h : nat) (now : Time) :
  k ≠ h → deref (updateLowestLevel w k now) h = deref w h.
Proof.
  intros Hne. unfold updateLowestLevel. destruct (fold_left _ _ _).
  by apply deref_store_ne.
Qed.

Lemma install_other (w : World) (k h : nat) (arrays : list (list LogFilter))
    (s : Slice) (now : Time) :
  k ≠ h →
  let w' := updateLowestLevel (set_filters (with_filterArrays w arrays) k s) k now in
  deref w' h = deref w h ∧ filterArrays w' = arrays.
Proof.
  intros Hne w'. subst w'. split.
  - rewrite deref_updateLowestLevel_ne by done.
    unfold set_filters. by rewrite deref_store_ne.
  - by destruct (arrays_updateLowestLevel
                   (set_filters (with_filterArrays w arrays) k s) k now) as [-> _].
Qed.

(** A mutating operation on handler [k] leaves another handler [h] as it
    was, fields and filters, unless it is an [AddFilter] that writes into
    the list [h] shows. *)
Lemma mutate_other (rt : Runtime) (w : World) (k h : nat) (m : Mutation)
    (now : Time) :
  World_ok w → (h < length (handlers w))%nat → k ≠ h →
  (∀ f, m = DoAddFilter f → ¬ writes_into w k h) →
  deref (mutate rt w k m now) h = deref w h
  ∧ filtersOf (mutate rt w k m now) h = filtersOf w h.
Proof.
  intros Hw Hh Hne Hadd.
  destruct (Hw h _ (lookup_deref w h Hh)) as [Hok _].
  destruct m as [fs | f | t p |]; cbn [mutate].
  - unfold SetFilters.
    destruct (make_from zeroFilter (filterArrays w) fs (length fs))
      as [arrays s] eqn:E.
    destruct (install_other w k h arrays s now Hne) as [Hd Ha].
    split; [done |]. unfold filtersOf. rewrite Hd, Ha.
    unfold make_from in E. injection E as <- _. by apply elems_app_ok.
  - unfold AddFilter.
    pose proof (elems_append_other zeroFilter rt (filterArrays w)
                  (filters (deref w k)) (filters (deref w h)) [f] Hok) as He.
    assert (elems (append zeroFilter rt (filterArrays w)
                     (filters (deref w k)) [f]).1 (filters (deref w h))
            = elems (filterArrays w) (filters (deref w h))) as He'.
    { apply He. intros (Hb & Hl & Hc). apply (Hadd f eq_refl).
      unfold writes_into. simpl in Hc. repeat split; [done | done | lia]. }
    clear He. rename He' into He.
    destruct (append zeroFilter rt (filterArrays w) (filters (deref w k)) [f])
      as [arrays s].
    destruct (install_other w k h arrays s now Hne) as [Hd Ha].
    split; [done |]. unfold filtersOf. by rewrite Hd, Ha.
  - unfold RemoveFilter.
    destruct (make_from zeroFilter (filterArrays w) _ _) as [arrays s] eqn:E.
    destruct (install_other w k h arrays s now Hne) as [Hd Ha].
    split; [done |]. unfold filtersOf. rewrite Hd, Ha.
    unfold make_from in E. injection E as <- _. by apply elems_app_ok.
  - unfold ClearFilters. split.
    + by apply deref_store_ne.
    + unfold filtersOf. by rewrite deref_store_ne.
Qed.

Lemma length_handlers_WithAttrs (rt : Runtime) (w : World) (k : nat)
    (attrs : list Attr) :
  length (handlers (fst (WithAttrs rt w k attrs))) = S (length (handlers w))
  ∧ snd (WithAttrs rt w k attrs) = length (handlers w).
Proof.
  unfold WithAttrs. destruct (append _ _ _ _ _). simpl.
  rewrite length_app. simpl. split; [lia | done].
Qed.

Lemma CachedAt_reachable (rt : Runtime) (t0 : Time) (w : World) (h : nat) :
  CachedAt rt t0 w h → Reachable rt w ∧ (h < length (handlers w))%nat.
Proof.
  induction 1 as [w h m Hr Hh | w h k m now _ [IHr IHh] Hk Hne Hadd
                 | w h k attrs _ [IHr IHh] Hk | w h attrs _ [IHr IHh]
                 | w h k name _ [IHr IHh] Hk | w h name _ [IHr IHh]
                 | w h sink lv _ [IHr IHh] | w h lv level _ [IHr IHh]
                 | w h key e _ [IHr IHh] | w h key _ [IHr IHh]].
  - split; [by constructor | by rewrite length_handlers_mutate].
  - split; [by constructor | by rewrite length_handlers_mutate].
  - split; [by constructor |].
    destruct (length_handlers_WithAttrs rt w k attrs) as [-> _]. lia.
  - split; [by constructor |].
    destruct (length_handlers_WithAttrs rt w h attrs) as [-> ->]. lia.
  - split; [by constructor |]. unfold WithGroup; simpl.
    rewrite length_app. lia.
  - split; [by constructor |]. unfold WithGroup; simpl.
    rewrite length_app. simpl. lia.
  - split; [by constructor |]. unfold NewHandler; simpl.
    rewrite length_app. lia.
  - split; [by constructor | done].
  - split; [by constructor | done].
  - split; [by constructor | done].
Qed.

Lemma CachedAt_covers (rt : Runtime) (t0 : Time) (w : World) (h : nat) :
  CachedAt rt t0 w h → CacheCovers t0 w h.
Proof.
  induction 1 as [w h m Hr Hh | w h k m now Hc IH Hk Hne Hadd
                 | w h k attrs _ IH Hk | w h attrs _ IH
                 | w h k name _ IH Hk | w h name _ IH
                 | w h sink lv _ IH | w h lv level _ IH
                 | w h key e _ IH | w h key _ IH].
  - by apply CacheCovers_mutate.
  - destruct IH as (Hh & H1 & H2).
    destruct (CachedAt_reachable _ _ _ _ Hc) as [Hr%Reachable_ok _].
    destruct (mutate_other rt w k h m now Hr Hh Hne Hadd) as [Hd Hf].
    unfold CacheCovers. rewrite Hd, Hf, length_handlers_mutate. done.
  - destruct IH as (Hh & H1 & H2). unfold WithAttrs.
    destruct (append _ _ _ _ _) as [arrays s]. simpl.
    unfold CacheCovers, filtersOf. simpl. rewrite deref_app_old by done.
    split; [rewrite length_app; lia | done].
  - destruct IH as (Hh & H1 & H2). unfold WithAttrs.
    destruct (append _ _ _ _ _) as [arrays s]. simpl.
    unfold CacheCovers, filtersOf. simpl. rewrite deref_app_new. simpl.
    split; [rewrite length_app; simpl; lia | done].
  - destruct IH as (Hh & H1 & H2). unfold WithGroup. simpl.
    unfold CacheCovers, filtersOf. simpl. rewrite deref_app_old by done.
    split; [rewrite length_app; lia | done].
  - destruct IH as (Hh & H1 & H2). unfold WithGroup. simpl.
    unfold CacheCovers, filtersOf. simpl. rewrite deref_app_new. simpl.
    split; [rewrite length_app; simpl; lia | done].
  - destruct IH as (Hh & H1 & H2). unfold NewHandler. simpl.
    unfold CacheCovers, filtersOf. simpl. rewrite deref_app_old by done.
    split; [rewrite length_app; lia | done].
  - done.
  - done.
  - done.
Qed.

Lemma matchedFilter_Some (rt : Runtime) (w : World) (h : nat) ctx r now i f :
  matchedFilter rt w h ctx r now = Some (i, f) →
  f ∈ filtersOf w h ∧ ruleHits rt w h ctx r now f = true.
Proof.
  unfold matchedFilter. intros (pre & post & E & _ & _ & Hf)%scanFilters_Some.
  split; [| done]. rewrite E. apply elem_of_app. right. by left.
Qed.

(** X8. What holds of the fast path. For a handler whose cached values date
    from a mutating operation at [t0] and whose filters nothing has written
    since ([CachedAt]), and a record evaluated at [t ≥ t0]: when [Enabled]
    answers false for the record's level, [Handle] suppresses the record.
    Rules only leave the active set as time passes, so the cached minimum
    stays below the level of every rule the loop can break at. *)
Lemma fast_reject_sound (rt : Runtime) (t0 t : Time) (w : World) (h : nat)
    (ctx : option Context) (r : slog_Record) :
  CachedAt rt t0 w h → t0 ≤ t →
  Handler_Enabled w h ctx (r_Level r) = false →
  Handle rt w h ctx r t = Suppress.
Proof.
  intros (Hh & Hlow & _)%CachedAt_covers Ht.
  unfold Handler_Enabled.
  destruct (Z.leb_spec (globalLevelOf w h) (r_Level r)) as [| Hg]; [done |].
  intros Hl%Z.leb_gt.
  unfold Handle, effectiveLevel.
  destruct (matchedFilter rt w h ctx r t) as [[i f]|] eqn:E.
  - apply matchedFilter_Some in E as [Hf Hhit].
    apply hits_active in Hhit. apply (IsActive_earlier t0) in Hhit; [| done].
    specialize (Hlow f Hf Hhit).
    destruct (Z.ltb_spec (r_Level r) (ParseLevel (Level f))); [done | lia].
  - destruct (Z.ltb_spec (r_Level r) (globalLevelOf w h)); [done | lia].
Qed.

(** C1, the failing run. The cached values of handler 0 are those its own
    [AddFilter] computed at instant 10, over [rule_second] and [rule_user];
    the [AddFilter] of the handler derived from it has since put [rule_any]
    in place of [rule_user] in the array both share.  At instant 20 the fast
    path of handler 0 rejects the Debug level, and [Handle] of handler 0
    forwards a Debug record: [Enabled] skips a record that full evaluation
    emits. *)
Theorem fast_path_skips_emitted_record :
  deref shared_array_run 0 = deref shared_array_before 0
  ∧ lowestLevel (deref shared_array_run 0) = LevelWarn
  ∧ GetFilters shared_array_run 0 = [rule_second; rule_any]
  ∧ Handler_Enabled shared_array_run 0 None (r_Level other_record) = false
  ∧ Handle sample_rt shared_array_run 0 None other_record 20
    = Forward (Sink 0) None other_record.
Proof. repeat split; reflexivity. Qed.

(** ** Record evaluation *)

Lemma ruleHits_spec (rt : Runtime) (w : World) (h : nat) ctx r now f :
  ruleHits rt w h ctx r now f = true
  ↔ IsActive now f = true
    ∧ ∃ v, candidateOf rt w h ctx r f = (v, true)
           ∧ matchPattern (Pattern f) v = true.
Proof.
  unfold ruleHits, hits, candidateOf, Matches.
  destruct (candidate _ _ _ _ _ f) as [v found].
  rewrite !andb_true_iff. split.
  - intros (Ha & -> & Hm). eauto.
  - intros (Ha & v' & [= -> ->] & Hm). done.
Qed.

Lemma Handle_unfold (rt : Runtime) (w : World) (h : nat) ctx r now :
  Handle rt w h ctx r now =
    match matchedFilter rt w h ctx r now with
    | Some (_, f) =>
        if (r_Level r <? ParseLevel (Level f))%Z then Suppress
        else Forward (inner (deref w h)) ctx
               (if HasOutputLevel f
                then withLevel r (ParseLevel (OutputLevel f)) else r)
    | None =>
        if (r_Level r <? globalLevelOf w h)%Z then Suppress
        else Forward (inner (deref w h)) ctx r
    end.
Proof.
  unfold Handle, effectiveLevel.
  destruct (matchedFilter rt w h ctx r now) as [[i f]|]; [| done].
  destruct (_ <? _)%Z; [done |].
  unfold HasOutputLevel, GetOutputLevel.
  by destruct (String.eqb (OutputLevel f) "").
Qed.

(** C3. First match wins: when the rule at index [i] is active, has a found
    candidate that its pattern matches, and no earlier rule does, the loop
    breaks at [i]; the effective level and the output transform are those
    of that rule, whatever the levels of the rules after it, and the rules
    after index [i] are not consulted. *)
Theorem first_match_wins (rt : Runtime) (w : World) (h : nat)
    (ctx : option Context) (r : slog_Record) (now : Time)
    (i : nat) (f : LogFilter) (v : string) :
  filtersOf w h !! i = Some f →
  IsActive now f = true →
  candidateOf rt w h ctx r f = (v, true) →
  matchPattern (Pattern f) v = true →
  (∀ k g, (k < i)%nat → filtersOf w h !! k = Some g →
          ruleHits rt w h ctx r now g = false) →
  matchedFilter rt w h ctx r now = Some (i, f)
  ∧ effectiveLevel rt w h ctx r now = ParseLevel (Level f)
  ∧ Handle rt w h ctx r now =
      (if (r_Level r <? ParseLevel (Level f))%Z then Suppress
       else Forward (inner (deref w h)) ctx
              (if HasOutputLevel f
               then withLevel r (ParseLevel (OutputLevel f)) else r))
  ∧ (∀ later, scanFilters (ruleHits rt w h ctx r now) 0
                (take (S i) (filtersOf w h) ++ later) = Some (i, f)).
Proof.
  intros Hi Ha Hc Hm Hearlier.
  assert (Hf : ruleHits rt w h ctx r now f = true)
    by (apply ruleHits_spec; eauto).
  assert (Hpre : Forall (λ g, ruleHits rt w h ctx r now g = false)
                   (take i (filtersOf w h))).
  { apply Forall_forall. intros g Hg.
    apply list_elem_of_lookup in Hg as [k Hk].
    apply lookup_take_Some in Hk as [Hk Hlt]. by apply (Hearlier k). }
  assert (Hlen : length (take i (filtersOf w h)) = i).
  { apply length_take_le. apply lookup_lt_Some in Hi. lia. }
  assert (Hscan : ∀ post, scanFilters (ruleHits rt w h ctx r now) 0
                    (take i (filtersOf w h) ++ f :: post) = Some (i, f)).
  { intros post. rewrite scanFilters_first by done. by rewrite Hlen. }
  assert (Hm' : matchedFilter rt w h ctx r now = Some (i, f)).
  { unfold matchedFilter.
    rewrite <- (take_drop_middle (filtersOf w h) i f Hi). apply Hscan. }
  split; [done |]. split; [| split].
  - unfold effectiveLevel. by rewrite Hm'.
  - by rewrite Handle_unfold, Hm'.
  - intros later. rewrite (take_S_r _ _ _ Hi), <- app_assoc. apply Hscan.
Qed.

Lemma rebuilt_attrs (l acc : list Attr) :
  fold_left (λ acc a, acc ++ [a]) l acc = acc ++ l.
Proof.
  revert acc. induction l as [|a l IH]; intros acc; simpl.
  - by rewrite app_nil_r.
  - by rewrite IH, <- app_assoc.
Qed.

(** C4. The output-level transform changes the severity and nothing else:
    a forwarded record goes to the handler's inner sink, with the caller's
    context; under a winning
    rule with a non-empty output level it carries the parsed output level
    and the original time, message, program counter and attributes; with no
    winning rule, or one whose output level is empty, it is the original
    record. *)
Theorem output_level_frame (rt : Runtime) (w : World) (h : nat)
    (ctx : option Context) (r : slog_Record) (now : Time)
    (sink : Inner) (ctx' : option Context) (r' : slog_Record) :
  Handle rt w h ctx r now = Forward sink ctx' r' →
  sink = inner (deref w h) ∧ ctx' = ctx
  ∧ (∀ i f, matchedFilter rt w h ctx r now = Some (i, f) →
            OutputLevel f ≠ "" →
            r_Level r' = ParseLevel (OutputLevel f)
            ∧ r_Time r' = r_Time r ∧ r_Message r' = r_Message r
            ∧ r_PC r' = r_PC r ∧ r_Attrs r' = r_Attrs r)
  ∧ (matchedFilter rt w h ctx r now = None
     ∨ (∃ i f, matchedFilter rt w h ctx r now = Some (i, f)
               ∧ OutputLevel f = "") →
     r' = r).
Proof.
  rewrite Handle_unfold.
  destruct (matchedFilter rt w h ctx r now) as [[i f]|] eqn:E.
  - destruct (_ <? _)%Z; [done |]. unfold HasOutputLevel.
    destruct (String.eqb_spec (OutputLevel f) "") as [Ho | Ho]; simpl.
    + intros [= <- <- <-]. split; [done |]. split; [done |]. split; [| done].
      intros ? ? [= <- <-] Hne. done.
    + intros [= <- <- <-]. split; [done |]. split; [done |]. split.
      * intros ? ? [= <- <-] _. unfold withLevel; simpl.
        by rewrite rebuilt_attrs.
      * intros [? | (? & ? & [= <- <-] & ?)]; done.
  - destruct (_ <? _)%Z; [done |]. intros [= <- <- <-].
    repeat split; done.
Qed.

(** ** Inactive rules *)

Lemma SetFilters_state (w : World) (h : nat) (L : list LogFilter) (t : Time) :
  (h < length (handlers w))%nat →
  let w' := SetFilters w h L t in
  filtersOf w' h = L
  ∧ inner (deref w' h) = inner (deref w h)
  ∧ globalLevel (deref w' h) = globalLevel (deref w h)
  ∧ preformattedAttrs (deref w' h) = preformattedAttrs (deref w h)
  ∧ workDir (deref w' h) = workDir (deref w h)
  ∧ levelVars w' = levelVars w
  ∧ attrArrays w' = attrArrays w
  ∧ contextExtractors w' = contextExtractors w.
Proof.
  intros Hh w'. subst w'. unfold SetFilters.
  pose proof (elems_make_from zeroFilter (filterArrays w) L (length L)) as He.
  destruct (make_from zeroFilter (filterArrays w) L (length L)) as [arrays s].
  simpl in He.
  split.
  { rewrite filtersOf_updateLowestLevel, filtersOf_set_filters by done. done. }
  unfold updateLowestLevel. destruct (fold_left _ _ _) as [lo hs].
  rewrite deref_store
    by (unfold set_filters; by rewrite length_handlers_store).
  unfold set_filters. rewrite deref_store by done. simpl.
  repeat split; done.
Qed.

Lemma IsActive_spec (now : Time) (f : LogFilter) :
  IsActive now f = true
  ↔ Enabled f = true
    ∧ (ExpiresAt f = None ∨ ExpiresAt f = Some 0
       ∨ ∃ e, ExpiresAt f = Some e ∧ now ≤ e).
Proof.
  unfold IsActive, IsExpired, Time_IsZero, Time_After.
  rewrite andb_true_iff, negb_true_iff.
  destruct (ExpiresAt f) as [e|].
  - destruct (Z.eqb_spec e 0) as [-> | Hz].
    + split; intros [? _]; auto.
    + rewrite Z.ltb_ge. split; intros [He H]; (split; [done |]).
      * right; right. eauto.
      * destruct H as [? | [[= ?] | (e' & [= <-] & ?)]]; done.
  - split; intros [? _]; auto.
Qed.

Lemma candidate_not_source reg attrs sf sfn sf' sfn' ctx f :
  IsSourceFilter f = false →
  candidate reg attrs sf sfn ctx f = candidate reg attrs sf' sfn' ctx f.
Proof.
  unfold IsSourceFilter, candidate. intros [-> ->]%orb_false_iff. done.
Qed.

(** The winner of the loop over a list and over its sublist of rules that
    can hit are the same rule. *)
Lemma scanFilters_filter (hit hit' P : LogFilter → bool) (L : list LogFilter)
    (i j : nat) :
  (∀ g, g ∈ L → hit g = true → P g = true) →
  (∀ g, g ∈ L → P g = true → hit' g = hit g) →
  snd <$> scanFilters hit i L = snd <$> scanFilters hit' j (List.filter P L).
Proof.
  revert i j. induction L as [|g L IH]; intros i j HP Hhit; simpl; [done |].
  assert (IH' : ∀ i j, snd <$> scanFilters hit i L
                       = snd <$> scanFilters hit' j (List.filter P L)).
  { intros. apply IH; intros; [apply HP | apply Hhit]; try done;
      by apply elem_of_cons; right. }
  destruct (hit g) eqn:E.
  - rewrite (HP g) by (done || by apply elem_of_cons; left). simpl.
    rewrite (Hhit g), E; [done | by apply elem_of_cons; left |].
    apply HP; [by apply elem_of_cons; left | done].
  - destruct (P g) eqn:EP; [| apply IH'].
    simpl. rewrite (Hhit g), E by (done || by apply elem_of_cons; left).
    apply IH'.
Qed.

Lemma Handle_winner (rt : Runtime) (w w' : World) (h : nat) ctx r now :
  snd <$> matchedFilter rt w h ctx r now = snd <$> matchedFilter rt w' h ctx r now →
  globalLevelOf w h = globalLevelOf w' h →
  inner (deref w h) = inner (deref w' h) →
  Handle rt w h ctx r now = Handle rt w' h ctx r now.
Proof.
  intros Hm Hg Hi. rewrite !Handle_unfold, Hg, Hi.
  destruct (matchedFilter rt w h ctx r now) as [[i f]|],
           (matchedFilter rt w' h ctx r now) as [[i' f']|];
    simpl in Hm; try done.
  by injection Hm as ->.
Qed.

(** C8. Inactive rules are inert: a handler given the list [L] and a handler
    given only the rules of [L] active at the time of evaluation treat every
    record alike; the rule the loop breaks at is always active; and a rule is
    active exactly when it is enabled and its expiry is absent, the zero
    time, or not yet passed. *)
Theorem inactive_rules_inert (rt : Runtime) (w : World) (h : nat)
    (L : list LogFilter) (t0 t1 now : Time)
    (ctx : option Context) (r : slog_Record) :
  (h < length (handlers w))%nat → t0 ≤ now → t1 ≤ now →
  Handle rt (SetFilters w h L t0) h ctx r now
    = Handle rt (SetFilters w h (List.filter (IsActive now) L) t1) h ctx r now
  ∧ (∀ i f, matchedFilter rt (SetFilters w h L t0) h ctx r now = Some (i, f) →
            IsActive now f = true)
  ∧ (∀ f, IsActive now f = true
          ↔ Enabled f = true
            ∧ (ExpiresAt f = None ∨ ExpiresAt f = Some 0
               ∨ ∃ e, ExpiresAt f = Some e ∧ now ≤ e)).
Proof.
  intros Hh Ht0 Ht1.
  set (L' := List.filter (IsActive now) L).
  set (w0 := SetFilters w h L t0). set (w1 := SetFilters w h L' t1).
  destruct (SetFilters_state w h L t0 Hh)
    as (F0 & I0 & G0 & P0 & D0 & V0 & A0 & R0).
  destruct (SetFilters_state w h L' t1 Hh)
    as (F1 & I1 & G1 & P1 & D1 & V1 & A1 & R1).
  fold w0 in F0, I0, G0, P0, D0, V0, A0, R0.
  fold w1 in F1, I1, G1, P1, D1, V1, A1, R1.
  destruct (CacheCovers_mutate rt w h (DoSetFilters L) t0 Hh) as (_ & _ & S0).
  destruct (CacheCovers_mutate rt w h (DoSetFilters L') t1 Hh) as (_ & _ & S1).
  simpl in S0, S1. fold w0 in S0. fold w1 in S1. rewrite F0 in S0. rewrite F1 in S1.
  assert (Hpre : preformattedOf w0 h = preformattedOf w1 h).
  { unfold preformattedOf. by rewrite P0, P1, A0, A1. }
  assert (Hsame : ∀ g, g ∈ L → IsActive now g = true →
            ruleHits rt w1 h ctx r now g = ruleHits rt w0 h ctx r now g).
  { intros g Hg Ha. unfold ruleHits, hits. rewrite Ha, R0, R1, Hpre. simpl.
    destruct (IsSourceFilter g) eqn:Es.
    - assert (hasSourceFilters (deref w0 h) = true) as E0.
      { apply (S0 g); auto. by apply (IsActive_earlier t0 now). }
      assert (hasSourceFilters (deref w1 h) = true) as E1.
      { apply (S1 g); auto.
        - apply list_elem_of_In, filter_In. split; [by apply list_elem_of_In | done].
        - by apply (IsActive_earlier t1 now). }
      unfold sourceOf. by rewrite E0, E1, D0, D1.
    - by rewrite (candidate_not_source _ _ (fst (sourceOf rt w1 h r))
                    (snd (sourceOf rt w1 h r)) (fst (sourceOf rt w0 h r))
                    (snd (sourceOf rt w0 h r))). }
  split; [| split].
  - apply Handle_winner.
    + unfold matchedFilter. rewrite F0, F1. apply scanFilters_filter.
      * intros g _ Hg. unfold ruleHits in Hg. by apply hits_active in Hg.
      * done.
    + unfold globalLevelOf. by rewrite G0, G1, V0, V1.
    + by rewrite I0, I1.
  - intros i f [_ Hf]%matchedFilter_Some. unfold ruleHits in Hf.
    by apply hits_active in Hf.
  - apply IsActive_spec.
Qed.

(** ** The flattened attribute map *)

Lemma putAttr_fold_other (l : list Attr) (m : gmap string string) (k : string) :
  (∀ b, b ∈ l → Key b ≠ k) → fold_left putAttr l m !! k = m !! k.
Proof.
  revert m. induction l as [|b l IH]; intros m Hl; simpl; [done |].
  rewrite IH by (intros; apply Hl; by apply elem_of_cons; right).
  unfold putAttr. apply lookup_insert_ne. apply Hl. by apply elem_of_cons; left.
Qed.

Lemma putAttr_fold_last (l1 l2 : list Attr) (a : Attr) (m : gmap string string) :
  (∀ b, b ∈ l2 → Key b ≠ Key a) →
  fold_left putAttr (l1 ++ a :: l2) m !! Key a = Some (attrValueToString (Val a)).
Proof.
  intros Hl2. rewrite fold_left_app. simpl.
  rewrite putAttr_fold_other by done.
  unfold putAttr. apply lookup_insert_eq.
Qed.

Lemma collectAttrs_app (pre rec : list Attr) :
  collectAttrs pre rec = fold_left putAttr (pre ++ rec) ∅.
Proof. unfold collectAttrs. by rewrite fold_left_app. Qed.

Lemma candidate_attribute reg attrs sf sfn ctx f :
  IsSourceFileFilter f = false → IsSourceFunctionFilter f = false →
  IsContextFilter f = false →
  candidate reg attrs sf sfn ctx f =
    match attrs !! Type_ f with Some v => (v, true) | None => ("", false) end.
Proof.
  intros H1 H2 H3. unfold candidate, AttributeKey, IsSourceFilter.
  by rewrite H1, H2, H3.
Qed.

(** C10. When a key occurs more than once among the pre-bound attributes
    followed by the record's own, the flattened map binds it to the text of
    the last occurrence; so an occurrence in the record overrides any
    pre-bound one, a key that occurs nowhere is unbound, and a rule on an
    attribute key is tested against that one final value only. *)
Theorem last_attribute_binds (pre rec : list Attr) (k : string) :
  (∀ l1 a l2, pre ++ rec = l1 ++ a :: l2 → Key a = k →
      (∀ b, b ∈ l2 → Key b ≠ k) →
      collectAttrs pre rec !! k = Some (attrValueToString (Val a)))
  ∧ (∀ l1 a l2, rec = l1 ++ a :: l2 → Key a = k →
      (∀ b, b ∈ l2 → Key b ≠ k) →
      collectAttrs pre rec !! k = Some (attrValueToString (Val a)))
  ∧ ((∀ b, b ∈ pre ++ rec → Key b ≠ k) → collectAttrs pre rec !! k = None)
  ∧ (∀ rt w h ctx r now f,
      preformattedOf w h = pre → r_Attrs r = rec → Type_ f = k →
      IsSourceFileFilter f = false → IsSourceFunctionFilter f = false →
      IsContextFilter f = false →
      ruleHits rt w h ctx r now f =
        match collectAttrs pre rec !! k with
        | Some v => IsActive now f && matchPattern (Pattern f) v
        | None => false
        end).
Proof.
  assert (H1 : ∀ l1 a l2, pre ++ rec = l1 ++ a :: l2 → Key a = k →
      (∀ b, b ∈ l2 → Key b ≠ k) →
      collectAttrs pre rec !! k = Some (attrValueToString (Val a))).
  { intros l1 a l2 E <- Hl2. rewrite collectAttrs_app, E.
    by apply putAttr_fold_last. }
  split; [done |]. split; [| split].
  - intros l1 a l2 -> Hk Hl2. apply (H1 (pre ++ l1) a l2); [| done | done].
    by rewrite <- app_assoc.
  - intros Hnone. rewrite collectAttrs_app, putAttr_fold_other by done.
    apply lookup_empty.
  - intros rt w h ctx r now f <- <- <- Hs1 Hs2 Hc.
    unfold ruleHits, hits, Matches. rewrite candidate_attribute by done.
    destruct (collectAttrs _ _ !! Type_ f); simpl; [done |].
    apply andb_false_r.
Qed.

(** ** The call-site path *)

(** Out of the tree, [formatSourcePath] is its last two tiers. *)
Lemma formatSourcePath_fallback (rt : Runtime) (wd fp fn : string) :
  filepath_Rel rt wd fp = None
  ∨ (∃ q, filepath_Rel rt wd fp = Some (".." +:+ q)) →
  formatSourcePath rt wd fp fn =
    if negb (String.eqb fn "") then
      let lastSlash := Strings.LastIndex fn "/" in
      if (0 <=? lastSlash)%Z then
        let afterSlash := Strings.from (Z.to_nat (lastSlash + 1)) fn in
        let dotIdx := Strings.Index afterSlash "." in
        if (0 <=? dotIdx)%Z then
          "@" +:+ Strings.upto (Z.to_nat (lastSlash + 1 + dotIdx)) fn
              +:+ "/" +:+ filepath_Base fp
        else filepath_Base fp
      else filepath_Base fp
    else filepath_Base fp.
Proof.
  intros H. unfold formatSourcePath.
  destruct (negb (String.eqb wd "")); [| done].
  destruct H as [-> | [q ->]]; [done |].
  assert (Strings.HasPrefix (".." +:+ q) ".." = true) as ->
    by (apply HasPrefix_spec; eauto).
  done.
Qed.

(** C9, as amended. When [filepath.Rel] fails or answers a path that begins
    with "..", and the function name is [pre/pkg.rest] with that ['/'] its
    last and that ['.'] the first after it, the display file is "@", then
    the function name up to but not including that ['.'], then "/" and the
    base file name; when the function name has no ['/'], or no ['.'] after
    its last ['/'], the display file is the base file name. *)
Theorem formatSourcePath_out_of_tree (rt : Runtime) (wd fp fn : string) :
  filepath_Rel rt wd fp = None
  ∨ (∃ q, filepath_Rel rt wd fp = Some (".." +:+ q)) →
  (∀ pre pkg rest,
      fn = pre +:+ "/" +:+ pkg +:+ "." +:+ rest →
      ¬ has_byte "/" pkg → ¬ has_byte "/" rest → ¬ has_byte "." pkg →
      formatSourcePath rt wd fp fn
        = "@" +:+ (pre +:+ "/" +:+ pkg) +:+ "/" +:+ filepath_Base fp)
  ∧ (¬ has_byte "/" fn
     ∨ (∃ pre t, fn = pre +:+ "/" +:+ t ∧ ¬ has_byte "/" t ∧ ¬ has_byte "." t) →
     formatSourcePath rt wd fp fn = filepath_Base fp).
Proof.
  intros Hrel. rewrite (formatSourcePath_fallback rt wd fp fn Hrel). split.
  - intros pre pkg rest -> H1 H2 H3.
    assert (Hslash : ¬ has_byte "/" (pkg +:+ "." +:+ rest)).
    { change (pkg +:+ "." +:+ rest) with (pkg +:+ String "." rest).
      rewrite IndexFacts.has_byte_app, IndexFacts.has_byte_cons.
      intros [? | [? | ?]]; done. }
    cbv zeta.
    change (pre +:+ "/" +:+ pkg +:+ "." +:+ rest)
      with (pre +:+ String "/" (pkg +:+ "." +:+ rest)).
    rewrite (IndexFacts.LastIndex_last "/" pre _ Hslash).
    assert (String.eqb (pre +:+ String "/" (pkg +:+ "." +:+ rest)) "" = false)
      as -> by (apply String.eqb_neq; by destruct pre).
    assert ((0 <=? Z.of_nat (String.length pre))%Z = true) as ->
      by (apply Z.leb_le; lia).
    simpl negb. cbv iota.
    replace (Z.to_nat (Z.of_nat (String.length pre) + 1))
      with (String.length (pre +:+ "/"))
      by (rewrite str_length_app; simpl; lia).
    change (pre +:+ String "/" (pkg +:+ "." +:+ rest))
      with (pre +:+ "/" +:+ (pkg +:+ "." +:+ rest)).
    rewrite <- (str_app_assoc pre "/"), from_app.
    change (pkg +:+ "." +:+ rest) with (pkg +:+ String "." rest).
    rewrite (IndexFacts.Index_first "." pkg rest H3).
    assert ((0 <=? Z.of_nat (String.length pkg))%Z = true) as ->
      by (apply Z.leb_le; lia).
    replace (Z.to_nat (Z.of_nat (String.length pre) + 1
                       + Z.of_nat (String.length pkg)))
      with (String.length ((pre +:+ "/") +:+ pkg))
      by (rewrite !str_length_app; simpl; lia).
    rewrite <- (str_app_assoc (pre +:+ "/") pkg), upto_app.
    by rewrite !str_app_assoc.
  - intros [Hno | (pre & t & -> & Hs & Hd)]; cbv zeta.
    + rewrite (IndexFacts.LastIndex_absent "/" fn Hno).
      by destruct (negb _).
    + change (pre +:+ "/" +:+ t) with (pre +:+ String "/" t).
      rewrite (IndexFacts.LastIndex_last "/" pre t Hs).
      replace (Z.to_nat (Z.of_nat (String.length pre) + 1))
        with (String.length (pre +:+ "/"))
        by (rewrite str_length_app; simpl; lia).
      change (pre +:+ String "/" t) with (pre +:+ "/" +:+ t).
      rewrite <- (str_app_assoc pre "/"), from_app.
      rewrite (IndexFacts.Index_absent "." t Hd).
      destruct (negb _); [| done].
      by destruct (0 <=? Z.of_nat (String.length pre))%Z.
Qed.

(** ** Derived handlers *)

(** The part of C2 that holds: in a reachable world, deriving a handler
    leaves the handler it is derived from as it was: its fields, the
    filters it shows and its pre-bound attributes. *)
Lemma derivation_leaves_parent (rt : Runtime) (w : World) (h : nat)
    (attrs : list Attr) (name : string) :
  Reachable rt w → (h < length (handlers w))%nat →
  (deref (fst (WithAttrs rt w h attrs)) h = deref w h
   ∧ filtersOf (fst (WithAttrs rt w h attrs)) h = filtersOf w h
   ∧ preformattedOf (fst (WithAttrs rt w h attrs)) h = preformattedOf w h)
  ∧ (deref (fst (WithGroup w h name)) h = deref w h
     ∧ filtersOf (fst (WithGroup w h name)) h = filtersOf w h
     ∧ preformattedOf (fst (WithGroup w h name)) h = preformattedOf w h).
Proof.
  intros Hw%Reachable_ok Hh. split.
  - destruct (Hw h _ (lookup_deref w h Hh)) as [_ Hp].
    destruct (append_ok zeroAttr rt (attrArrays w)
                (preformattedAttrs (deref w h)) attrs Hp) as (_ & _ & _ & He).
    unfold WithAttrs, filtersOf, preformattedOf.
    destruct (append zeroAttr rt _ _ attrs) as [arrays s]. simpl in *.
    rewrite deref_app_old by done. done.
  - unfold WithGroup, filtersOf, preformattedOf. simpl.
    rewrite deref_app_old by done. done.
Qed.

(** What the derived handler is: the parent's sink derived, the parent's
    level variable, slice header of filters and cached values, and the
    parent's pre-bound attributes followed by the new ones. *)
Lemma derived_handler (rt : Runtime) (w : World) (h : nat) (attrs : list Attr) :
  Reachable rt w → (h < length (handlers w))%nat →
  let w' := fst (WithAttrs rt w h attrs) in
  let d := snd (WithAttrs rt w h attrs) in
  inner (deref w' d) = Inner_WithAttrs (inner (deref w h)) attrs
  ∧ globalLevel (deref w' d) = globalLevel (deref w h)
  ∧ filters (deref w' d) = filters (deref w h)
  ∧ lowestLevel (deref w' d) = lowestLevel (deref w h)
  ∧ hasSourceFilters (deref w' d) = hasSourceFilters (deref w h)
  ∧ preformattedOf w' d = preformattedOf w h ++ attrs.
Proof.
  intros Hw%Reachable_ok Hh.
  destruct (Hw h _ (lookup_deref w h Hh)) as [_ Hp].
  destruct (append_ok zeroAttr rt (attrArrays w)
              (preformattedAttrs (deref w h)) attrs Hp) as (_ & _ & He & _).
  unfold WithAttrs, preformattedOf.
  destruct (append zeroAttr rt _ _ attrs) as [arrays s]. simpl in *.
  rewrite deref_app_new. simpl. repeat split; done.
Qed.

(** C2, the failing run. A handler derived before [SetFilters], by
    [WithAttrs] or by [WithGroup], keeps the filter slice and the cached
    values it copied: after [h.SetFilters] the parent lists and applies the
    new rule, and the derived handlers list no rule, reject the Debug level
    on their fast path and suppress the record the parent forwards. *)
Theorem derived_handler_misses_SetFilters :
  let w := derived_then_set in
  GetFilters w 0 = [rule_any]
  ∧ GetFilters w 1 = [] ∧ GetFilters w 2 = []
  ∧ Handle sample_rt w 0 None sample_record 20
    = Forward (Sink 0) None sample_record
  ∧ Handle sample_rt w 1 None sample_record 20 = Suppress
  ∧ Handle sample_rt w 2 None sample_record 20 = Suppress
  ∧ Handler_Enabled w 0 None LevelDebug = true
  ∧ Handler_Enabled w 1 None LevelDebug = false
  ∧ Handler_Enabled w 2 None LevelDebug = false.
Proof. repeat split; reflexivity. Qed.

(** Nor are the two handlers independent: both slice headers point into one
    backing array, and the derived handler's [AddFilter] lands in the slot
    the parent's [AddFilter] had filled. *)
Example shared_array_overwritten :
  GetFilters shared_array_before 0 = [rule_second; rule_user]
  ∧ GetFilters shared_array_run 0 = [rule_second; rule_any]
  ∧ GetFilters shared_array_run 1 = [rule_second; rule_any].
Proof. repeat split; reflexivity. Qed.

(** ** The statements at the sample data *)

Lemma no_byte_by_Index (c : ascii) (s : string) :
  Strings.Index s (String c "") = (-1)%Z → ¬ has_byte c s.
Proof.
  intros E (l & r & ->).
  assert (0 ≤ Strings.Index (l +:+ String c r) (String c ""))%Z as H
    by (apply Index_nonneg_iff; by exists l, r).
  lia.
Qed.

Lemma fast_reject_sound_witness :
  Handle sample_rt world_warn 0 None sample_record 20 = Suppress.
Proof.
  apply (fast_reject_sound sample_rt 10 20 world_warn 0 None sample_record).
  - apply cached_mutate; [| simpl; lia].
    apply reach_NewHandler. apply reach_start.
  - lia.
  - reflexivity.
Defined.

Lemma first_match_wins_witness :
  effectiveLevel sample_rt world_three 0 None sample_record 20 = LevelDebug.
Proof.
  apply (first_match_wins sample_rt world_three 0 None sample_record 20
           1 rule_first "job_123").
  - reflexivity.
  - reflexivity.
  - reflexivity.
  - reflexivity.
  - intros k g Hk. assert (k = 0%nat) as -> by lia.
    intros [= <-]. reflexivity.
Defined.

Lemma output_level_frame_witness :
  r_Level (withLevel sample_record LevelInfo) = ParseLevel "info"
  ∧ r_Attrs (withLevel sample_record LevelInfo) = r_Attrs sample_record.
Proof.
  destruct (output_level_frame sample_rt world_three 0 None sample_record 20
              (Sink 0) None (withLevel sample_record LevelInfo) eq_refl)
    as (_ & _ & H & _).
  destruct (H 1%nat rule_first eq_refl) as (H1 & _ & _ & _ & H2); [done |].
  exact (conj H1 H2).
Defined.

Lemma matchPattern_semantics_witness :
  matchPattern "job_*" "job_123" = true ↔ ∃ r, "job_123" = "job_" +:+ r.
Proof.
  apply (proj1 (proj2 (proj2 (matchPattern_semantics "job_*" "job_123"))) "job_").
  - reflexivity.
  - intros [q Hq]. discriminate Hq.
Defined.

Lemma cache_after_mutation_witness :
  lowestLevel (deref world_warn 0) ≤ ParseLevel (Level rule_second).
Proof.
  destruct (cache_after_mutation sample_rt sample_handler_world 0
              (DoSetFilters [rule_second]) 10) as (_ & H & _).
  - simpl. lia.
  - destruct H as [_ H].
    + exists rule_second. split; [| reflexivity].
      apply list_elem_of_In. simpl. auto.
    + apply H; [| reflexivity]. apply list_elem_of_In. simpl. auto.
Defined.

Lemma inactive_rules_inert_witness :
  Handle sample_rt
         (SetFilters sample_handler_world 0 [rule_expiring; rule_first] 1)
         0 None sample_record 20
  = Handle sample_rt
           (SetFilters sample_handler_world 0
              (List.filter (IsActive 20) [rule_expiring; rule_first]) 10)
           0 None sample_record 20.
Proof.
  apply (inactive_rules_inert sample_rt sample_handler_world 0
           [rule_expiring; rule_first] 1 10 20 None sample_record).
  - simpl. lia.
  - lia.
  - lia.
Defined.

Lemma formatSourcePath_out_of_tree_witness :
  formatSourcePath sample_rt "/home/u/proj"
    "/go/pkg/mod/github.com/user/repo/pkg/file.go"
    "github.com/user/repo/pkg.(*Type).Method"
  = "@" +:+ ("github.com/user/repo" +:+ "/" +:+ "pkg") +:+ "/"
        +:+ filepath_Base "/go/pkg/mod/github.com/user/repo/pkg/file.go".
Proof.
  apply (proj1 (formatSourcePath_out_of_tree sample_rt "/home/u/proj"
                  "/go/pkg/mod/github.com/user/repo/pkg/file.go"
                  "github.com/user/repo/pkg.(*Type).Method"
                  (or_intror (ex_intro _ "/../../go/pkg/mod/github.com/user/repo/pkg/file.go" eq_refl)))
               "github.com/user/repo" "pkg" "(*Type).Method").
  - reflexivity.
  - apply no_byte_by_Index. reflexivity.
  - apply no_byte_by_Index. reflexivity.
  - apply no_byte_by_Index. reflexivity.
Defined.

(** C9, as stated, fails: for a file outside the working directory the
    module path ends before the ['.'], not with it. *)
Lemma formatSourcePath_stops_before_dot :
  let wd := "/home/u/proj" in
  let fp := "/go/pkg/mod/github.com/user/repo/pkg/file.go" in
  let fn := "github.com/user/repo/pkg.(*Type).Method" in
  filepath_Rel sample_rt wd fp
    = Some "../../../go/pkg/mod/github.com/user/repo/pkg/file.go"
  ∧ modulePath_through_dot fn = "github.com/user/repo/pkg."
  ∧ formatSourcePath sample_rt wd fp fn = "@github.com/user/repo/pkg/file.go"
  ∧ formatSourcePath sample_rt wd fp fn
    ≠ "@" +:+ modulePath_through_dot fn +:+ "/" +:+ filepath_Base fp.
Proof.
  repeat split; try reflexivity.
  intros H. vm_compute in H. discriminate H.
Qed.

Lemma last_attribute_binds_witness :
  collectAttrs [mkAttr "job_id" (StringValue "bound")]
               [mkAttr "job_id" (StringValue "job_1");
                mkAttr "job_id" (StringValue "job_123")]
    !! "job_id" = Some "job_123".
Proof.
  apply (proj1 (last_attribute_binds
                  [mkAttr "job_id" (StringValue "bound")]
                  [mkAttr "job_id" (StringValue "job_1");
                   mkAttr "job_id" (StringValue "job_123")] "job_id")
               [mkAttr "job_id" (StringValue "bound");
                mkAttr "job_id" (StringValue "job_1")]
               (mkAttr "job_id" (StringValue "job_123")) []).
  - reflexivity.
  - reflexivity.
  - intros b Hb. by apply elem_of_nil in Hb.
Defined.

(** The tests of [filter_test.go] on the matcher and of the level names. *)
Example matchPattern_tests :
  matchPattern "abc123" "abc123" = true /\ matchPattern "" "abc" = false
  /\ matchPattern "abc*" "abc" = true /\ matchPattern "abc*" "xyz123" = false
  /\ matchPattern "*123" "abc123" = true /\ matchPattern "*123" "abc456" = false
  /\ matchPattern "*abc*" "xxxabcyyy" = true /\ matchPattern "*abc*" "xxxyyy" = false
  /\ matchPattern "*" "" = true /\ matchPattern "**" "anything" = true.
Proof. repeat split; reflexivity. Qed.

Example ParseLevel_tests :
  ParseLevel "debug" = LevelDebug /\ ParseLevel " WARN " = LevelWarn
  /\ ParseLevel "warning" = LevelWarn /\ ParseLevel "trace" = LevelInfo
  /\ ParseLevel "Error" = LevelError.
Proof. repeat split; reflexivity. Qed.

(** Beyond ASCII: a no-break space (C2 A0) and an ideographic space
    (E3 80 80) are trimmed, U+0130 (C4 B0) lowers to "i"; a byte that is
    no UTF-8 is neither white space nor a letter. *)
Example ParseLevel_unicode_tests :
  ParseLevel (String "194" (String "160" "debug")) = LevelDebug
  /\ ParseLevel ("WARN" +:+ String "196" (String "176" "NG")) = LevelWarn
  /\ ParseLevel (String "227" (String "128" (String "128" "Error "))) = LevelError
  /\ ParseLevel (String "255" "debug") = LevelInfo
  /\ ParseLevel ("debug" +:+ String "160" "") = LevelInfo.
Proof. repeat split; reflexivity. Qed.


(** ** Further properties of [filter.go] *)

(** X1. Expiry is permanent: a rule that is not active at some instant is
    not active at any later one, and a rule without expiry, or with the
    zero time as expiry, is active at every instant it is enabled. *)
Theorem inactive_stays_inactive (t t' : Time) (f : LogFilter) :
  t ≤ t' →
  (IsActive t f = false → IsActive t' f = false)
  ∧ (IsExpired t f = true → IsExpired t' f = true)
  ∧ (ExpiresAt f = None ∨ ExpiresAt f = Some 0 → IsActive t f = Enabled f).
Proof.
  intros Ht. split; [| split].
  - intros Hf. destruct (IsActive t' f) eqn:E; [| done].
    apply (IsActive_earlier t t' f Ht) in E. congruence.
  - unfold IsExpired, Time_After. destruct (ExpiresAt f) as [e|]; [| done].
    destruct (Time_IsZero e); [done |]. rewrite !Z.ltb_lt. lia.
  - unfold IsActive, IsExpired. intros [-> | ->]; simpl; by rewrite andb_true_r.
Qed.

Lemma inactive_stays_inactive_witness :
  IsActive 20 rule_expiring = false.
Proof.
  apply (proj1 (inactive_stays_inactive 6 20 rule_expiring ltac:(lia))).
  reflexivity.
Defined.

Lemma context_prefix_app (k : string) :
  Strings.HasPrefix ("context:" +:+ k) ContextPrefix = true
  ∧ Strings.TrimPrefix ("context:" +:+ k) ContextPrefix = k.
Proof.
  unfold ContextPrefix. split; [apply HasPrefix_spec; eauto |].
  apply TrimPrefix_app.
Qed.

(** X2. Every rule is of exactly one kind: source file, source function,
    context or attribute.  The two source types are the exact strings
    "source:file" and "source:function"; a type ["context:" ++ k] is a
    context rule with key [k] (and a context rule has that shape); every
    other type, "source:other" included, is an attribute key, returned
    as it is; and [ContextKey] and [AttributeKey] are empty outside their
    kind. *)
Theorem filter_kind (f : LogFilter) :
  ((IsSourceFileFilter f = true ∧ IsSourceFunctionFilter f = false
    ∧ IsContextFilter f = false ∧ Type_ f = "source:file")
   ∨ (IsSourceFileFilter f = false ∧ IsSourceFunctionFilter f = true
      ∧ IsContextFilter f = false ∧ Type_ f = "source:function")
   ∨ (IsSourceFileFilter f = false ∧ IsSourceFunctionFilter f = false
      ∧ IsContextFilter f = true ∧ Type_ f = "context:" +:+ ContextKey f
      ∧ AttributeKey f = "")
   ∨ (IsSourceFileFilter f = false ∧ IsSourceFunctionFilter f = false
      ∧ IsContextFilter f = false ∧ AttributeKey f = Type_ f
      ∧ ContextKey f = ""))
  ∧ (IsSourceFilter f = true → AttributeKey f = "" ∧ ContextKey f = "")
  ∧ (∀ k, Type_ f = "context:" +:+ k →
          IsContextFilter f = true ∧ ContextKey f = k).
Proof.
  assert (Hctx : ∀ k, Type_ f = "context:" +:+ k →
            IsContextFilter f = true ∧ ContextKey f = k).
  { intros k E. unfold ContextKey, IsContextFilter. rewrite E.
    destruct (context_prefix_app k) as [-> ->]. done. }
  destruct (String.eqb_spec (Type_ f) SourceFilePrefix) as [E1 | E1].
  { assert (IsSourceFileFilter f = true) as H1
      by (unfold IsSourceFileFilter; by rewrite E1).
    assert (IsSourceFunctionFilter f = false) as H2
      by (unfold IsSourceFunctionFilter; by rewrite E1).
    assert (IsContextFilter f = false) as H3
      by (unfold IsContextFilter; by rewrite E1).
    split; [left; done |]. split; [| done].
    intros _. unfold AttributeKey, ContextKey, IsSourceFilter.
    by rewrite H1, H3. }
  assert (IsSourceFileFilter f = false) as H1
    by (unfold IsSourceFileFilter; by apply String.eqb_neq).
  destruct (String.eqb_spec (Type_ f) SourceFunctionPrefix) as [E2 | E2].
  { assert (IsSourceFunctionFilter f = true) as H2
      by (unfold IsSourceFunctionFilter; by rewrite E2).
    assert (IsContextFilter f = false) as H3
      by (unfold IsContextFilter; by rewrite E2).
    split; [right; left; done |]. split; [| done].
    intros _. unfold AttributeKey, ContextKey, IsSourceFilter.
    by rewrite H1, H2, H3. }
  assert (IsSourceFunctionFilter f = false) as H2
    by (unfold IsSourceFunctionFilter; by apply String.eqb_neq).
  split; [| split; [| done]].
  - destruct (IsContextFilter f) eqn:H3.
    + right; right; left. repeat split; try done.
      * unfold IsContextFilter in H3. apply HasPrefix_spec in H3 as [k Hk].
        destruct (Hctx k Hk) as [_ ->]. done.
      * unfold AttributeKey. by rewrite H3.
    + right; right; right. repeat split; try done.
      * unfold AttributeKey, IsSourceFilter. by rewrite H1, H2, H3.
      * unfold ContextKey. by rewrite H3.
  - unfold IsSourceFilter. rewrite H1, H2. done.
Qed.

Lemma filter_kind_witness :
  IsContextFilter (mkLogFilter "context:user_id" "u*" "debug" "" true None) = true
  ∧ ContextKey (mkLogFilter "context:user_id" "u*" "debug" "" true None) = "user_id".
Proof.
  apply (proj2 (proj2 (filter_kind
           (mkLogFilter "context:user_id" "u*" "debug" "" true None)))).
  reflexivity.
Defined.

(** ** Further properties of [Handle] *)

(** X3. A rule cannot silence an error: a rule's level is one of the four
    named levels, so when a rule wins, a record at Error or above is
    forwarded whatever the global level; and the level of a forwarded
    record is its own or one of the four. *)
Theorem rules_never_suppress_errors (rt : Runtime) (w : World) (h : nat)
    (ctx : option Context) (r : slog_Record) (now : Time) :
  (∀ i f, matchedFilter rt w h ctx r now = Some (i, f) →
      LevelError ≤ r_Level r → Handle rt w h ctx r now ≠ Suppress)
  ∧ (∀ sink ctx' r', Handle rt w h ctx r now = Forward sink ctx' r' →
      r_Level r' = r_Level r ∨ r_Level r' = LevelDebug
      ∨ r_Level r' = LevelInfo ∨ r_Level r' = LevelWarn
      ∨ r_Level r' = LevelError).
Proof.
  rewrite Handle_unfold. split.
  - intros i f -> Hr. pose proof (ParseLevel_le_Error (Level f)).
    destruct (Z.ltb_spec (r_Level r) (ParseLevel (Level f))); [lia | done].
  - intros sink ctx' r'.
    destruct (matchedFilter rt w h ctx r now) as [[i f]|].
    + destruct (_ <? _); [done |]. intros [= _ _ <-].
      destruct (HasOutputLevel f); [| by left]. simpl.
      destruct (ParseLevel_range (OutputLevel f)) as [-> | [-> | [-> | ->]]];
        auto.
    + destruct (_ <? _); [done |]. intros [= _ _ <-]. by left.
Qed.

Lemma rules_never_suppress_errors_witness :
  let r := mkRecord 100 "failed" LevelError 0
             [mkAttr "user_id" (StringValue "u1")] in
  r_Level r = r_Level r ∨ r_Level r = LevelDebug ∨ r_Level r = LevelInfo
  ∨ r_Level r = LevelWarn ∨ r_Level r = LevelError.
Proof.
  exact (proj2 (rules_never_suppress_errors sample_rt world_three 0 None
                  (mkRecord 100 "failed" LevelError 0
                     [mkAttr "user_id" (StringValue "u1")]) 20)
               (Sink 0) None
               (mkRecord 100 "failed" LevelError 0
                  [mkAttr "user_id" (StringValue "u1")])
               eq_refl).
Defined.

(** X4. A source rule needs a call site: for a record without a program
    counter, under a handler whose cached flag is off, or when the frame
    lacks the file (for "source:file") or the function (for
    "source:function"), a source rule does not match, whatever its
    pattern, "*" included. *)
Theorem source_rule_needs_call_site (rt : Runtime) (w : World) (h : nat)
    (ctx : option Context) (r : slog_Record) (now : Time) (f : LogFilter) :
  (IsSourceFilter f = true →
   r_PC r = 0 ∨ hasSourceFilters (deref w h) = false →
   ruleHits rt w h ctx r now f = false)
  ∧ (IsSourceFileFilter f = true →
     Frame_File (CallersFrames rt (r_PC r)) = "" →
     ruleHits rt w h ctx r now f = false)
  ∧ (IsSourceFunctionFilter f = true →
     Frame_Function (CallersFrames rt (r_PC r)) = "" →
     ruleHits rt w h ctx r now f = false).
Proof.
  assert (Hfile : IsSourceFileFilter f = true →
            fst (sourceOf rt w h r) = "" → ruleHits rt w h ctx r now f = false).
  { intros Hf Hs. unfold ruleHits, hits, candidate. rewrite Hf, Hs. simpl.
    apply andb_false_r. }
  assert (Hfun : IsSourceFunctionFilter f = true →
            snd (sourceOf rt w h r) = "" → ruleHits rt w h ctx r now f = false).
  { intros Hf Hs.
    assert (IsSourceFileFilter f = false) as H1.
    { unfold IsSourceFunctionFilter in Hf. apply String.eqb_eq in Hf.
      unfold IsSourceFileFilter. by rewrite Hf. }
    unfold ruleHits, hits, candidate. rewrite H1, Hf, Hs. simpl.
    apply andb_false_r. }
  split; [| split].
  - intros Hs Hno.
    assert (sourceOf rt w h r = ("", "")) as Hsrc.
    { unfold sourceOf. destruct Hno as [-> | ->]; [| done].
      by rewrite andb_false_r. }
    apply orb_true_iff in Hs as [Hs | Hs].
    + apply Hfile; [done | by rewrite Hsrc].
    + apply Hfun; [done | by rewrite Hsrc].
  - intros Hf Hfr. apply Hfile; [done |].
    unfold sourceOf. destruct (_ && _); [| done].
    unfold extractSource. by rewrite Hfr.
  - intros Hf Hfr. apply Hfun; [done |].
    unfold sourceOf. destruct (_ && _); [| done].
    unfold extractSource. by rewrite Hfr.
Qed.

Lemma source_rule_needs_call_site_witness :
  ruleHits sample_rt world_three 0 None sample_record 20
    (mkLogFilter "source:file" "*" "debug" "" true None) = false.
Proof.
  apply (proj1 (source_rule_needs_call_site sample_rt world_three 0 None
                  sample_record 20
                  (mkLogFilter "source:file" "*" "debug" "" true None))).
  - reflexivity.
  - left. reflexivity.
Defined.

(** ** Properties of [context.go] *)

(** X5. The registry holds one extractor per key and the last registration
    wins: after [RegisterContextExtractor] the key yields the extractor
    just given, after [UnregisterContextExtractor] and after
    [ClearContextExtractors] it yields nil, other keys are left alone, and
    [ContextExtractorKeys] lists each registered key once. *)
Theorem registry_round_trip (w : World) (key : string) (e : ContextExtractor) :
  GetContextExtractor (contextExtractors (RegisterContextExtractor w key e)) key = e
  ∧ GetContextExtractor
      (contextExtractors (UnregisterContextExtractor w key)) key = None
  ∧ (∀ k, k ≠ key →
        GetContextExtractor (contextExtractors (RegisterContextExtractor w key e)) k
        = GetContextExtractor (contextExtractors w) k
        ∧ GetContextExtractor (contextExtractors (UnregisterContextExtractor w key)) k
          = GetContextExtractor (contextExtractors w) k)
  ∧ (∀ k, GetContextExtractor (contextExtractors (ClearContextExtractors w)) k = None)
  ∧ (∀ k, k ∈ ContextExtractorKeys w ↔ is_Some (contextExtractors w !! k))
  ∧ NoDup (ContextExtractorKeys w)
  ∧ ContextExtractorKeys (ClearContextExtractors w) = []
  ∧ key ∈ ContextExtractorKeys (RegisterContextExtractor w key e)
  ∧ key ∉ ContextExtractorKeys (UnregisterContextExtractor w key).
Proof.
  assert (Hkeys : ∀ w' k, k ∈ ContextExtractorKeys w'
                          ↔ is_Some (contextExtractors w' !! k)).
  { intros w' k. unfold ContextExtractorKeys.
    rewrite list_elem_of_fmap. split.
    - intros ([k' x] & -> & Hin). apply elem_of_map_to_list in Hin. eauto.
    - intros [x Hx]. exists (k, x). split; [done |].
      by apply elem_of_map_to_list. }
  split; [| split; [| split; [| split; [| split; [| split; [| split; [| split]]]]]]].
  - unfold GetContextExtractor. simpl. by rewrite lookup_insert_eq.
  - unfold GetContextExtractor. simpl. by rewrite lookup_delete_eq.
  - intros k0 Hk0. unfold GetContextExtractor. simpl.
    rewrite lookup_insert_ne by done. by rewrite lookup_delete_ne by done.
  - intros k0. unfold GetContextExtractor. simpl. by rewrite lookup_empty.
  - apply Hkeys.
  - unfold ContextExtractorKeys. apply NoDup_fst_map_to_list.
  - unfold ContextExtractorKeys. simpl. by rewrite map_to_list_empty.
  - apply (Hkeys (RegisterContextExtractor w key e)). simpl.
    rewrite lookup_insert_eq. eauto.
  - intros H. apply (Hkeys (UnregisterContextExtractor w key)) in H.
    simpl in H. rewrite lookup_delete_eq in H. by destruct H.
Qed.

Lemma registry_round_trip_witness :
  GetContextExtractor
    (contextExtractors
       (RegisterContextExtractor
          (RegisterContextExtractor sample_world "user_id" None)
          "job_id" (Some (λ _, ("j1", true)))))
    "user_id"
  = GetContextExtractor
      (contextExtractors (RegisterContextExtractor sample_world "user_id" None))
      "user_id".
Proof.
  apply (proj1 (proj1 (proj2 (proj2 (registry_round_trip
           (RegisterContextExtractor sample_world "user_id" None)
           "job_id" (Some (λ _, ("j1", true)))))) "user_id" ltac:(done))).
Defined.

(** X6. A context rule is tested against what the extractor registered
    under its key reports for the call's context; with a nil context, no
    extractor under the key, a nil extractor, or an extractor that reports
    not found, the rule does not match and the loop goes on. *)
Theorem context_rule_candidate (rt : Runtime) (w : World) (h : nat)
    (ctx : option Context) (r : slog_Record) (now : Time) (f : LogFilter)
    (k : string) :
  Type_ f = "context:" +:+ k →
  (ctx = None ∨ contextExtractors w !! k = None
   ∨ contextExtractors w !! k = Some None →
   ruleHits rt w h ctx r now f = false)
  ∧ (∀ c e, ctx = Some c → contextExtractors w !! k = Some (Some e) →
        candidateOf rt w h ctx r f = e c
        ∧ ruleHits rt w h ctx r now f
          = IsActive now f && (snd (e c) && matchPattern (Pattern f) (fst (e c)))).
Proof.
  intros Ht.
  assert (Hc : IsContextFilter f = true)
    by (unfold IsContextFilter; rewrite Ht; apply context_prefix_app).
  assert (Hkey : ContextKey f = k).
  { unfold ContextKey. rewrite Hc, Ht. apply context_prefix_app. }
  assert (H1 : IsSourceFileFilter f = false)
    by (unfold IsSourceFileFilter; by rewrite Ht).
  assert (H2 : IsSourceFunctionFilter f = false)
    by (unfold IsSourceFunctionFilter; by rewrite Ht).
  assert (Hcand : candidateOf rt w h ctx r f
                  = extractFromContext (contextExtractors w) ctx k).
  { unfold candidateOf, candidate. by rewrite H1, H2, Hc, Hkey. }
  assert (Hhit : ruleHits rt w h ctx r now f
                 = IsActive now f
                   && (snd (candidateOf rt w h ctx r f)
                       && matchPattern (Pattern f) (fst (candidateOf rt w h ctx r f)))).
  { unfold ruleHits, hits, candidateOf, Matches.
    by destruct (candidate _ _ _ _ _ f). }
  split.
  - intros Hno. rewrite Hhit, Hcand.
    unfold extractFromContext, GetContextExtractor.
    destruct ctx as [c|]; [| apply andb_false_r].
    unfold ContextExtractor in *.
    destruct Hno as [Hno | [Hno | Hno]]; [done | |]; rewrite Hno; simpl;
      apply andb_false_r.
  - intros c e -> He. rewrite Hhit, Hcand.
    unfold extractFromContext, GetContextExtractor.
    unfold ContextExtractor in *. rewrite He. done.
Qed.

Lemma context_rule_candidate_witness :
  ruleHits sample_rt world_three 0 None sample_record 20
    (mkLogFilter "context:user_id" "*" "debug" "" true None) = false.
Proof.
  apply (proj1 (context_rule_candidate sample_rt world_three 0 None
                  sample_record 20
                  (mkLogFilter "context:user_id" "*" "debug" "" true None)
                  "user_id" eq_refl)).
  by left.
Defined.

(** ** Properties of the filter store *)

Lemma Handle_no_rules (rt : Runtime) (w : World) (h : nat) ctx r now :
  filtersOf w h = [] →
  Handle rt w h ctx r now =
    if r_Level r <? globalLevelOf w h then Suppress
    else Forward (inner (deref w h)) ctx r.
Proof.
  intros E. rewrite Handle_unfold. unfold matchedFilter. by rewrite E.
Qed.

(** X7. Without rules the global level alone decides: after [ClearFilters],
    after [SetFilters] with an empty list and on a fresh handler, [Handle]
    forwards the unchanged record exactly when its level is at least the
    global level, and [Enabled] answers true exactly for those levels and
    for the levels above Error. *)
Theorem no_rules_threshold_only (rt : Runtime) (w : World) (h : nat)
    (m : Mutation) (now : Time) :
  (h < length (handlers w))%nat →
  World_ok w →
  m = DoClearFilters ∨ m = DoSetFilters [] →
  let w' := mutate rt w h m now in
  (∀ ctx r t, Handle rt w' h ctx r t =
      if r_Level r <? globalLevelOf w h then Suppress
      else Forward (inner (deref w h)) ctx r)
  ∧ (∀ ctx level, Handler_Enabled w' h ctx level
      = (globalLevelOf w h <=? level) || (LevelError + 1 <=? level))
  ∧ (∀ sink lv ctx r t,
      let w0 := fst (NewHandler rt w sink lv) in
      let h0 := snd (NewHandler rt w sink lv) in
      Handle rt w0 h0 ctx r t =
        if r_Level r <? globalLevelOf w0 h0 then Suppress
        else Forward sink ctx r).
Proof.
  intros Hh Hw Hm w'.
  assert (Hlist : filtersOf w' h = []).
  { subst w'. destruct (mutate_ok rt w h m now Hw Hh) as [_ ->].
    by destruct Hm as [-> | ->]. }
  assert (Hframe : globalLevelOf w' h = globalLevelOf w h
                   ∧ inner (deref w' h) = inner (deref w h)).
  { subst w'. destruct Hm as [-> | ->]; simpl.
    - unfold ClearFilters, globalLevelOf. rewrite deref_store by done. done.
    - destruct (SetFilters_state w h [] now Hh) as (_ & -> & G & _ & _ & V & _).
      unfold globalLevelOf. by rewrite G, V. }
  destruct Hframe as [Hg Hi].
  split; [| split].
  - intros ctx r t. rewrite Handle_no_rules by done. by rewrite Hg, Hi.
  - intros ctx level. unfold Handler_Enabled. rewrite Hg.
    assert (lowestLevel (deref w' h) = LevelError + 1) as ->.
    { pose proof (mutate_cache rt w h m now Hh) as Hc. fold w' in Hc.
      rewrite Hlist in Hc. simpl in Hc. by injection Hc as -> _. }
    by destruct (globalLevelOf w h <=? level).
  - intros sink lv ctx r t w0 h0.
    assert (deref w0 h0 = mkHandler sink lv nil_slice (LevelError + 1) false
                            nil_slice
                            (match filepath_Abs_dot rt with
                             | Some cwd => cwd | None => "" end)) as Hd.
    { subst w0 h0. unfold NewHandler. simpl. apply deref_app_new. }
    rewrite Handle_no_rules; [by rewrite Hd |].
    unfold filtersOf. by rewrite Hd.
Qed.

Lemma no_rules_threshold_only_witness :
  Handle sample_rt (ClearFilters world_three 0) 0 None sample_record 20
  = Suppress.
Proof.
  assert (Hr : Reachable sample_rt world_three).
  { apply (reach_mutate sample_rt sample_handler_world 0
             (DoSetFilters [rule_user; rule_first; rule_second]) 10).
    - apply reach_NewHandler. apply reach_start.
    - simpl. lia. }
  apply (proj1 (no_rules_threshold_only sample_rt world_three 0 DoClearFilters 0
                  ltac:(simpl; lia) (Reachable_ok _ _ Hr) (or_introl eq_refl))
               None sample_record 20).
Defined.

(** ** What the mutating operations leave alone *)

Lemma mutate_world_frame (rt : Runtime) (w : World) (h : nat) (m : Mutation)
    (now : Time) :
  levelVars (mutate rt w h m now) = levelVars w
  ∧ attrArrays (mutate rt w h m now) = attrArrays w
  ∧ contextExtractors (mutate rt w h m now) = contextExtractors w.
Proof.
  assert (Hi : ∀ arrays s,
    let w' := updateLowestLevel (set_filters (with_filterArrays w arrays) h s) h now in
    levelVars w' = levelVars w ∧ attrArrays w' = attrArrays w
    ∧ contextExtractors w' = contextExtractors w).
  { intros arrays s. unfold updateLowestLevel.
    destruct (fold_left _ _ _) as [lo hs]. done. }
  destruct m as [fs | f | t p |]; simpl.
  - unfold SetFilters. destruct (make_from _ _ _ _) as [arrays s]. apply Hi.
  - unfold AddFilter. destruct (append _ _ _ _ _) as [arrays s]. apply Hi.
  - unfold RemoveFilter. destruct (make_from _ _ _ _) as [arrays s]. apply Hi.
  - done.
Qed.

Lemma mutate_frame (rt : Runtime) (w : World) (h : nat) (m : Mutation)
    (now : Time) :
  (h < length (handlers w))%nat →
  let w' := mutate rt w h m now in
  inner (deref w' h) = inner (deref w h)
  ∧ globalLevel (deref w' h) = globalLevel (deref w h)
  ∧ preformattedAttrs (deref w' h) = preformattedAttrs (deref w h)
  ∧ workDir (deref w' h) = workDir (deref w h).
Proof.
  intros Hh.
  assert (Hi : ∀ arrays s,
    let w' := updateLowestLevel (set_filters (with_filterArrays w arrays) h s) h now in
    inner (deref w' h) = inner (deref w h)
    ∧ globalLevel (deref w' h) = globalLevel (deref w h)
    ∧ preformattedAttrs (deref w' h) = preformattedAttrs (deref w h)
    ∧ workDir (deref w' h) = workDir (deref w h)).
  { intros arrays s. unfold updateLowestLevel.
    destruct (fold_left _ _ _) as [lo hs].
    rewrite deref_store
      by (unfold set_filters; by rewrite length_handlers_store).
    unfold set_filters. rewrite deref_store by done. done. }
  destruct m as [fs | f | t p |]; simpl.
  - unfold SetFilters. destruct (make_from _ _ _ _) as [arrays s]. apply Hi.
  - unfold AddFilter. destruct (append _ _ _ _ _) as [arrays s]. apply Hi.
  - unfold RemoveFilter. destruct (make_from _ _ _ _) as [arrays s]. apply Hi.
  - unfold ClearFilters. by rewrite deref_store.
Qed.

(** Two stores in which a handler tests a rule alike. *)
Lemma ruleHits_agree (rt : Runtime) (w w' : World) (h h' : nat) ctx r t f :
  contextExtractors w' = contextExtractors w →
  preformattedOf w' h' = preformattedOf w h →
  workDir (deref w' h') = workDir (deref w h) →
  (IsSourceFilter f = true → IsActive t f = true →
   hasSourceFilters (deref w' h') = hasSourceFilters (deref w h)) →
  ruleHits rt w' h' ctx r t f = ruleHits rt w h ctx r t f.
Proof.
  intros Hreg Hpre Hwd Hflag. unfold ruleHits, hits. rewrite Hreg, Hpre.
  destruct (IsActive t f) eqn:Ha; [| done]. simpl.
  destruct (IsSourceFilter f) eqn:Hs.
  - unfold sourceOf. by rewrite Hflag, Hwd.
  - by rewrite (candidate_not_source _ _ _ _ (sourceOf rt w h r).1
                  (sourceOf rt w h r).2 _ _ Hs).
Qed.

Lemma scanFilters_ext (hit hit' : LogFilter → bool) (L : list LogFilter) (i : nat) :
  (∀ g, g ∈ L → hit' g = hit g) → scanFilters hit' i L = scanFilters hit i L.
Proof.
  revert i. induction L as [|g L IH]; intros i H; simpl; [done |].
  rewrite (H g) by (by apply elem_of_cons; left).
  destruct (hit g); [done |]. apply IH. intros. apply H.
  by apply elem_of_cons; right.
Qed.

Lemma scanFilters_app (hit : LogFilter → bool) (L L' : list LogFilter) (i : nat) :
  scanFilters hit i (L ++ L') =
    match scanFilters hit i L with
    | Some x => Some x
    | None => scanFilters hit (i + length L)%nat L'
    end.
Proof.
  revert i. induction L as [|g L IH]; intros i; simpl.
  - by rewrite Nat.add_0_r.
  - destruct (hit g); [done |]. rewrite IH. by rewrite Nat.add_succ_r.
Qed.

Lemma Handle_same (rt : Runtime) (w w' : World) (h : nat) ctx r t :
  deref w' h = deref w h → filtersOf w' h = filtersOf w h →
  levelVars w' = levelVars w → attrArrays w' = attrArrays w →
  contextExtractors w' = contextExtractors w →
  Handle rt w' h ctx r t = Handle rt w h ctx r t
  ∧ matchedFilter rt w' h ctx r t = matchedFilter rt w h ctx r t.
Proof.
  intros Hd Hf Hl Ha Hc.
  assert (matchedFilter rt w' h ctx r t = matchedFilter rt w h ctx r t) as Hm.
  { unfold matchedFilter. rewrite Hf. apply scanFilters_ext. intros g _.
    apply ruleHits_agree; try done; [| by rewrite Hd ..].
    unfold preformattedOf. by rewrite Ha, Hd. }
  split; [| done]. rewrite !Handle_unfold, Hm.
  unfold globalLevelOf. by rewrite Hl, Hd.
Qed.

Lemma filter_sublist {A} (P : A → bool) (l : list A) :
  List.filter P l `sublist_of` l.
Proof.
  induction l as [|x l IH]; simpl; [constructor |].
  destruct (P x); by constructor.
Qed.

(** X9. The flag cached beside the minimum never hides a call site from
    a source rule: for a handler whose cached values
    date from a mutating operation at [t0] and whose filters nothing has
    written since, a record with a program counter, evaluated at [t ≥ t0]
    while a source rule of the handler is active, has its call site
    resolved, and the source rule is tested against the formatted file or
    the function name. *)
Theorem call_site_resolved_for_source_rules (rt : Runtime) (t0 t : Time)
    (w : World) (h : nat) (ctx : option Context) (r : slog_Record)
    (f : LogFilter) :
  CachedAt rt t0 w h → t0 ≤ t →
  f ∈ filtersOf w h → IsActive t f = true → IsSourceFilter f = true →
  r_PC r ≠ 0 →
  sourceOf rt w h r = extractSource rt (workDir (deref w h)) (r_PC r)
  ∧ (IsSourceFileFilter f = true →
     candidateOf rt w h ctx r f
     = (fst (extractSource rt (workDir (deref w h)) (r_PC r)),
        negb (String.eqb (fst (extractSource rt (workDir (deref w h)) (r_PC r))) "")))
  ∧ (IsSourceFileFilter f = false →
     candidateOf rt w h ctx r f
     = (snd (extractSource rt (workDir (deref w h)) (r_PC r)),
        negb (String.eqb (snd (extractSource rt (workDir (deref w h)) (r_PC r))) ""))).
Proof.
  intros Hc Ht Hin Ha Hs Hpc.
  destruct (CachedAt_covers rt t0 w h Hc) as (_ & _ & Hflag).
  assert (Hsrc : sourceOf rt w h r
                 = extractSource rt (workDir (deref w h)) (r_PC r)).
  { unfold sourceOf.
    rewrite (Hflag f Hin (IsActive_earlier t0 t f Ht Ha) Hs).
    by destruct (Z.eqb_spec (r_PC r) 0). }
  split; [done |]. unfold candidateOf, candidate. rewrite Hsrc.
  split; intros Hfile; rewrite Hfile; [done |].
  unfold IsSourceFilter in Hs. rewrite Hfile in Hs. simpl in Hs. by rewrite Hs.
Qed.

Lemma call_site_resolved_for_source_rules_witness :
  sourceOf sample_rt
    (mutate sample_rt sample_handler_world 0
       (DoSetFilters [mkLogFilter "source:file" "internal/*" "debug" "" true None])
       10)
    0 (mkRecord 100 "processing" LevelDebug 1 [])
  = ("internal/service/extraction.go", "(*ExtractionService).Extract").
Proof.
  apply (proj1 (call_site_resolved_for_source_rules sample_rt 10 20
           (mutate sample_rt sample_handler_world 0
              (DoSetFilters
                 [mkLogFilter "source:file" "internal/*" "debug" "" true None])
              10)
           0 None (mkRecord 100 "processing" LevelDebug 1 [])
           (mkLogFilter "source:file" "internal/*" "debug" "" true None)
           ltac:(apply cached_mutate;
                 [apply reach_NewHandler; apply reach_start | simpl; lia])
           ltac:(lia) ltac:(vm_compute; by left) eq_refl eq_refl ltac:(done))).
Defined.

(** X10. [RemoveFilter] removes every rule whose type and pattern are both
    the given ones, whatever its level, state or expiry, and only those;
    the rules kept stay in their order; removing what is absent changes
    nothing; and removing twice is removing once. *)
Theorem RemoveFilter_removes_all_matches (w : World) (h : nat)
    (filterType pattern : string) (now now' : Time) :
  World_ok w → (h < length (handlers w))%nat →
  let w' := RemoveFilter w h filterType pattern now in
  (∀ g, g ∈ GetFilters w' h
        ↔ g ∈ GetFilters w h ∧ ¬ (Type_ g = filterType ∧ Pattern g = pattern))
  ∧ GetFilters w' h `sublist_of` GetFilters w h
  ∧ ((∀ g, g ∈ GetFilters w h → ¬ (Type_ g = filterType ∧ Pattern g = pattern)) →
     GetFilters w' h = GetFilters w h)
  ∧ GetFilters (RemoveFilter w' h filterType pattern now') h = GetFilters w' h.
Proof.
  intros Hw Hh w'. unfold GetFilters.
  assert (Hkeeps : ∀ g, keeps filterType pattern g = true
                        ↔ ¬ (Type_ g = filterType ∧ Pattern g = pattern)).
  { intros g. unfold keeps. rewrite orb_true_iff, !negb_true_iff.
    rewrite !String.eqb_neq. split; [intros [? | ?] [? ?]; done |].
    intros Hn. destruct (decide (Type_ g = filterType)); [| by left].
    right. intros ?. by apply Hn. }
  destruct (mutate_ok sample_rt w h (DoRemoveFilter filterType pattern) now Hw Hh)
    as [Hw' Hlist].
  rewrite <- keeps_filters_after in Hlist.
  simpl in Hw', Hlist. fold w' in Hw', Hlist.
  assert (Hh' : (h < length (handlers w'))%nat).
  { pose proof (length_handlers_mutate sample_rt w h
                  (DoRemoveFilter filterType pattern) now) as E.
    simpl in E. fold w' in E. by rewrite E. }
  split; [| split; [| split]].
  - intros g. rewrite Hlist, !list_elem_of_In, filter_In, Hkeeps. done.
  - rewrite Hlist. apply filter_sublist.
  - intros Hnone. rewrite Hlist. apply forallb_filter_id.
    apply forallb_forall. intros g Hg. apply Hkeeps, Hnone.
    by apply list_elem_of_In.
  - destruct (mutate_ok sample_rt w' h (DoRemoveFilter filterType pattern) now'
                Hw' Hh') as [_ Hlist2].
    rewrite <- keeps_filters_after in Hlist2. simpl in Hlist2.
    rewrite Hlist2, Hlist.
    apply forallb_filter_id, forallb_forall. intros g Hg.
    by apply filter_In in Hg as [_ ?].
Qed.

Lemma RemoveFilter_removes_all_matches_witness :
  GetFilters (RemoveFilter (RemoveFilter world_three 0 "job_id" "job_*" 11) 0
                "job_id" "job_*" 12) 0
  = GetFilters (RemoveFilter world_three 0 "job_id" "job_*" 11) 0.
Proof.
  apply (RemoveFilter_removes_all_matches world_three 0 "job_id" "job_*" 11 12).
  - apply (Reachable_ok sample_rt).
    apply (reach_mutate sample_rt sample_handler_world 0
             (DoSetFilters [rule_user; rule_first; rule_second]) 10);
      [apply reach_NewHandler; apply reach_start | simpl; lia].
  - simpl. lia.
Defined.

(** X11. [AddFilter] appends: the rule goes to the end of the list, so it
    cannot take a record from a rule that wins it already.  For a handler
    whose cache dates from [t0], a rule added at [now ≥ t0] and a record
    evaluated at [t ≥ now]: when a rule won the record before, the same rule
    at the same index wins it after and the outcome is unchanged; when none
    did, the new rule wins it exactly if it hits, at the index past the old
    list. *)
Theorem AddFilter_yields_to_earlier_rules (rt : Runtime) (t0 now t : Time)
    (w : World) (h : nat) (f : LogFilter) (ctx : option Context)
    (r : slog_Record) :
  CachedAt rt t0 w h → t0 ≤ now → now ≤ t →
  let w' := AddFilter rt w h f now in
  GetFilters w' h = GetFilters w h ++ [f]
  ∧ (∀ i g, matchedFilter rt w h ctx r t = Some (i, g) →
       matchedFilter rt w' h ctx r t = Some (i, g)
       ∧ Handle rt w' h ctx r t = Handle rt w h ctx r t)
  ∧ (matchedFilter rt w h ctx r t = None →
       matchedFilter rt w' h ctx r t
       = if ruleHits rt w' h ctx r t f
         then Some (length (GetFilters w h), f) else None).
Proof.
  intros Hc Ht0 Ht w'.
  destruct (CachedAt_reachable rt t0 w h Hc) as [Hr Hh].
  pose proof (Reachable_ok rt w Hr) as Hw.
  destruct (mutate_ok rt w h (DoAddFilter f) now Hw Hh) as [_ Hlist].
  destruct (mutate_frame rt w h (DoAddFilter f) now Hh) as (Hi & Hg & Hp & Hwd).
  destruct (mutate_world_frame rt w h (DoAddFilter f) now) as (Hl & Ha & Hreg).
  simpl in Hlist, Hi, Hg, Hp, Hwd, Hl, Ha, Hreg.
  fold w' in Hlist, Hi, Hg, Hp, Hwd, Hl, Ha, Hreg.
  destruct (CachedAt_covers rt t0 w h Hc) as (_ & _ & Hold).
  destruct (CacheCovers_mutate rt w h (DoAddFilter f) now Hh) as (_ & _ & Hnew).
  simpl in Hnew. fold w' in Hnew.
  assert (Hsame : ∀ g, g ∈ filtersOf w h →
            ruleHits rt w' h ctx r t g = ruleHits rt w h ctx r t g).
  { intros g Hin. apply ruleHits_agree; try done.
    - unfold preformattedOf. by rewrite Ha, Hp.
    - intros Hs Hact.
      rewrite (Hold g Hin (IsActive_earlier t0 t g ltac:(lia) Hact) Hs).
      apply (Hnew g); [| by apply (IsActive_earlier now t) | done].
      rewrite Hlist. apply elem_of_app. by left. }
  assert (Hscan : matchedFilter rt w' h ctx r t =
            match matchedFilter rt w h ctx r t with
            | Some x => Some x
            | None => if ruleHits rt w' h ctx r t f
                      then Some (length (filtersOf w h), f) else None
            end).
  { unfold matchedFilter. rewrite Hlist, scanFilters_app.
    rewrite (scanFilters_ext (ruleHits rt w h ctx r t)) by done.
    destruct (scanFilters _ 0 (filtersOf w h)); [done |]. simpl.
    by destruct (ruleHits rt w' h ctx r t f). }
  unfold GetFilters. split; [done |]. split.
  - intros i g E. rewrite E in Hscan. split; [done |].
    apply Handle_winner; [by rewrite Hscan, E | |done].
    unfold globalLevelOf. by rewrite Hl, Hg.
  - intros E. by rewrite E in Hscan.
Qed.

Lemma AddFilter_yields_to_earlier_rules_witness :
  GetFilters (AddFilter sample_rt world_warn 0 rule_any 15) 0
  = GetFilters world_warn 0 ++ [rule_any].
Proof.
  apply (AddFilter_yields_to_earlier_rules sample_rt 10 15 20 world_warn 0
           rule_any None sample_record).
  - apply cached_mutate; [| simpl; lia].
    apply reach_NewHandler. apply reach_start.
  - lia.
  - lia.
Defined.

(** X12. A mutation is local to its handler: [SetFilters], [RemoveFilter] and
    [ClearFilters] on a handler [k] leave every other handler with its
    filters, its cached values and its decisions; [AddFilter] on [k] does
    so too unless [k]'s list has spare capacity and is a shorter view of
    the array the other handler's list lies in. *)
Theorem mutation_is_local (rt : Runtime) (w : World) (k h : nat)
    (m : Mutation) (now : Time) :
  Reachable rt w → (h < length (handlers w))%nat → k ≠ h →
  (∀ f, m = DoAddFilter f → ¬ writes_into w k h) →
  let w' := mutate rt w k m now in
  GetFilters w' h = GetFilters w h
  ∧ (∀ ctx level, Handler_Enabled w' h ctx level = Handler_Enabled w h ctx level)
  ∧ (∀ ctx r t, Handle rt w' h ctx r t = Handle rt w h ctx r t).
Proof.
  intros Hr Hh Hk Hno w'.
  destruct (mutate_other rt w k h m now (Reachable_ok rt w Hr) Hh Hk Hno)
    as [Hd Hf].
  destruct (mutate_world_frame rt w k m now) as (Hl & Ha & Hreg).
  fold w' in Hd, Hf, Hl, Ha, Hreg.
  split; [done |]. split.
  - intros ctx level. unfold Handler_Enabled, globalLevelOf. by rewrite Hl, Hd.
  - intros ctx r t. by apply Handle_same.
Qed.

Lemma mutation_is_local_witness :
  GetFilters
    (mutate sample_rt (fst (NewHandler sample_rt world_three (Sink 1) 0)) 1
       (DoAddFilter rule_any) 12) 0
  = GetFilters (fst (NewHandler sample_rt world_three (Sink 1) 0)) 0.
Proof.
  apply (mutation_is_local sample_rt
           (fst (NewHandler sample_rt world_three (Sink 1) 0)) 1 0
           (DoAddFilter rule_any) 12).
  - apply reach_NewHandler.
    apply (reach_mutate sample_rt sample_handler_world 0
             (DoSetFilters [rule_user; rule_first; rule_second]) 10);
      [apply reach_NewHandler; apply reach_start | simpl; lia].
  - simpl. lia.
  - lia.
  - intros f _ (_ & _ & Hcap). vm_compute in Hcap. lia.
Defined.

(** ** Derived handlers, in full *)

Lemma WithAttrs_frame (rt : Runtime) (w : World) (h : nat) (attrs : list Attr) :
  let w' := fst (WithAttrs rt w h attrs) in
  let d := snd (WithAttrs rt w h attrs) in
  workDir (deref w' d) = workDir (deref w h)
  ∧ levelVars w' = levelVars w ∧ filterArrays w' = filterArrays w
  ∧ contextExtractors w' = contextExtractors w.
Proof.
  unfold WithAttrs.
  destruct (append zeroAttr rt _ _ attrs) as [arrays s]. simpl.
  by rewrite deref_app_new.
Qed.

(** X13. [WithAttrs] binds the attributes ahead of the record's: in a
    reachable world the derived handler lists the parent's rules, answers
    [Enabled] as the parent, picks for a record the rule the parent picks
    for the record with the bound attributes placed ahead of its own, and
    suppresses exactly when the parent would suppress that record; what it
    forwards goes to the parent's sink derived with the attributes.  The
    parent decides as before. *)
Theorem WithAttrs_binds_ahead (rt : Runtime) (w : World) (h : nat)
    (attrs : list Attr) :
  Reachable rt w → (h < length (handlers w))%nat →
  let w' := fst (WithAttrs rt w h attrs) in
  let d := snd (WithAttrs rt w h attrs) in
  GetFilters w' d = GetFilters w h
  ∧ (∀ ctx level, Handler_Enabled w' d ctx level = Handler_Enabled w h ctx level)
  ∧ (∀ ctx r t, matchedFilter rt w' d ctx r t
                = matchedFilter rt w h ctx (prependAttrs attrs r) t)
  ∧ (∀ ctx r t, Handle rt w' d ctx r t = Suppress
                ↔ Handle rt w h ctx (prependAttrs attrs r) t = Suppress)
  ∧ (∀ ctx r t sink ctx' r', Handle rt w' d ctx r t = Forward sink ctx' r' →
       sink = Inner_WithAttrs (inner (deref w h)) attrs)
  ∧ (∀ ctx r t, Handle rt w' h ctx r t = Handle rt w h ctx r t).
Proof.
  intros Hr Hh w' d.
  destruct (derived_handler rt w h attrs Hr Hh) as (Hi & Hg & Hf & Hlo & Hs & Hp).
  destruct (WithAttrs_frame rt w h attrs) as (Hwd & Hl & Ha & Hreg).
  fold w' d in Hi, Hg, Hf, Hlo, Hs, Hp, Hwd, Hl, Ha, Hreg.
  assert (Hlist : filtersOf w' d = filtersOf w h)
    by (unfold filtersOf; by rewrite Ha, Hf).
  assert (Hgl : globalLevelOf w' d = globalLevelOf w h)
    by (unfold globalLevelOf; by rewrite Hl, Hg).
  assert (Hm : ∀ ctx r t, matchedFilter rt w' d ctx r t
                 = matchedFilter rt w h ctx (prependAttrs attrs r) t).
  { intros ctx r t. unfold matchedFilter. rewrite Hlist.
    apply scanFilters_ext. intros g _. unfold ruleHits, sourceOf.
    rewrite Hreg, Hp, Hs, Hwd. simpl.
    by rewrite !collectAttrs_app, app_assoc. }
  split; [done |]. split; [| split; [done |]; split; [| split]].
  - intros ctx level. unfold Handler_Enabled. by rewrite Hgl, Hlo.
  - intros ctx r t. rewrite !Handle_unfold, Hm, Hgl. simpl.
    destruct (matchedFilter rt w h ctx (prependAttrs attrs r) t) as [[i g]|];
      destruct (_ <? _); done.
  - intros ctx r t sink ctx' r'. rewrite Handle_unfold, Hi.
    destruct (matchedFilter rt w' d ctx r t) as [[i g]|];
      destruct (_ <? _); try done; by intros [= <- _ _].
  - intros ctx r t.
    destruct (derivation_leaves_parent rt w h attrs "" Hr Hh)
      as [(Hd & Hfl & Hpre) _].
    fold w' in Hd, Hfl, Hpre.
    assert (Hsame : matchedFilter rt w' h ctx r t = matchedFilter rt w h ctx r t).
    { unfold matchedFilter. rewrite Hfl. apply scanFilters_ext. intros g _.
      apply ruleHits_agree; try done; by rewrite Hd. }
    rewrite !Handle_unfold, Hsame. unfold globalLevelOf. by rewrite Hl, Hd.
Qed.

Lemma WithAttrs_binds_ahead_witness :
  GetFilters (fst (WithAttrs sample_rt world_three 0
                     [mkAttr "component" (StringValue "api")]))
             (snd (WithAttrs sample_rt world_three 0
                     [mkAttr "component" (StringValue "api")]))
  = GetFilters world_three 0.
Proof.
  apply (WithAttrs_binds_ahead sample_rt world_three 0
           [mkAttr "component" (StringValue "api")]).
  - apply (reach_mutate sample_rt sample_handler_world 0
             (DoSetFilters [rule_user; rule_first; rule_second]) 10);
      [apply reach_NewHandler; apply reach_start | simpl; lia].
  - simpl. lia.
Defined.

(** X14. [WithGroup] does not qualify the keys the rules are tested on: the
    derived handler treats every record as the parent does, rule for rule
    and level for level, and only forwards to the parent's sink derived
    with the group. *)
Theorem WithGroup_keeps_keys (rt : Runtime) (w : World) (h : nat)
    (name : string) (ctx : option Context) (r : slog_Record) (t : Time) :
  let w' := fst (WithGroup w h name) in
  let g := snd (WithGroup w h name) in
  GetFilters w' g = GetFilters w h
  ∧ matchedFilter rt w' g ctx r t = matchedFilter rt w h ctx r t
  ∧ Handle rt w' g ctx r t = underGroup name (Handle rt w h ctx r t)
  ∧ (∀ level, Handler_Enabled w' g ctx level = Handler_Enabled w h ctx level).
Proof.
  intros w' g.
  assert (Hd : deref w' g
               = mkHandler (Inner_WithGroup (inner (deref w h)) name)
                   (globalLevel (deref w h)) (filters (deref w h))
                   (lowestLevel (deref w h)) (hasSourceFilters (deref w h))
                   (preformattedAttrs (deref w h)) (workDir (deref w h))).
  { subst w' g. unfold WithGroup. simpl. apply deref_app_new. }
  assert (Hlist : filtersOf w' g = filtersOf w h)
    by (unfold filtersOf; by rewrite Hd).
  assert (Hgl : globalLevelOf w' g = globalLevelOf w h)
    by (unfold globalLevelOf; by rewrite Hd).
  assert (Hm : matchedFilter rt w' g ctx r t = matchedFilter rt w h ctx r t).
  { unfold matchedFilter. rewrite Hlist. apply scanFilters_ext. intros f _.
    apply ruleHits_agree; try done; try by rewrite Hd.
    unfold preformattedOf. by rewrite Hd. }
  split; [done |]. split; [done |]. split.
  - rewrite !Handle_unfold, Hm, Hgl, Hd. simpl.
    destruct (matchedFilter rt w h ctx r t) as [[i f]|];
      destruct (_ <? _); done.
  - intros level. unfold Handler_Enabled. by rewrite Hgl, Hd.
Qed.

(** ** The function name of a call site *)

(** X15. The function name a "source:function" rule is tested on: for a
    frame function [pre/pkg.rest], with that ['/'] the last and that ['.']
    the first after it, it is [rest], receiver included; for [pkg.rest]
    without a ['/'], it is [rest]; and when there is no ['.'] after the last
    ['/'], or neither byte at all, it is the frame function as it is. *)
Theorem extractSource_function_name (rt : Runtime) (wd : string) (pc : Z) :
  let fn := Frame_Function (CallersFrames rt pc) in
  (∀ pre pkg rest,
      fn = pre +:+ "/" +:+ pkg +:+ "." +:+ rest →
      ¬ has_byte "/" pkg → ¬ has_byte "/" rest → ¬ has_byte "." pkg →
      snd (extractSource rt wd pc) = rest)
  ∧ (∀ pkg rest,
      fn = pkg +:+ "." +:+ rest →
      ¬ has_byte "/" pkg → ¬ has_byte "/" rest → ¬ has_byte "." pkg →
      snd (extractSource rt wd pc) = rest)
  ∧ ((¬ has_byte "/" fn ∧ ¬ has_byte "." fn)
     ∨ (∃ pre t, fn = pre +:+ "/" +:+ t ∧ ¬ has_byte "/" t ∧ ¬ has_byte "." t) →
     snd (extractSource rt wd pc) = fn).
Proof.
  intros fn. unfold extractSource. cbv zeta. fold fn. simpl snd.
  generalize fn. clear fn. intros fn. split; [| split].
  - intros pre pkg rest -> H1 H2 H3.
    assert (Hslash : ¬ has_byte "/" (pkg +:+ "." +:+ rest)).
    { change (pkg +:+ "." +:+ rest) with (pkg +:+ String "." rest).
      rewrite IndexFacts.has_byte_app, IndexFacts.has_byte_cons.
      intros [? | [? | ?]]; done. }
    change (pre +:+ "/" +:+ pkg +:+ "." +:+ rest)
      with (pre +:+ String "/" (pkg +:+ "." +:+ rest)).
    rewrite (IndexFacts.LastIndex_last "/" pre _ Hslash).
    assert (String.eqb (pre +:+ String "/" (pkg +:+ "." +:+ rest)) "" = false)
      as -> by (apply String.eqb_neq; by destruct pre).
    assert ((0 <=? Z.of_nat (String.length pre))%Z = true) as ->
      by (apply Z.leb_le; lia).
    simpl negb. cbv iota.
    replace (Z.to_nat (Z.of_nat (String.length pre) + 1))
      with (String.length (pre +:+ "/"))
      by (rewrite str_length_app; simpl; lia).
    change (pre +:+ String "/" (pkg +:+ "." +:+ rest))
      with (pre +:+ "/" +:+ (pkg +:+ "." +:+ rest)).
    rewrite <- (str_app_assoc pre "/"), from_app.
    change (pkg +:+ "." +:+ rest) with (pkg +:+ String "." rest).
    rewrite (IndexFacts.Index_first "." pkg rest H3).
    assert ((0 <=? Z.of_nat (String.length pkg))%Z = true) as ->
      by (apply Z.leb_le; lia).
    replace (Z.to_nat (Z.of_nat (String.length pkg) + 1))
      with (String.length (pkg +:+ "."))
      by (rewrite str_length_app; simpl; lia).
    change (pkg +:+ String "." rest) with (pkg +:+ "." +:+ rest).
    by rewrite <- (str_app_assoc pkg "."), from_app.
  - intros pkg rest -> H1 H2 H3.
    assert (Hslash : ¬ has_byte "/" (pkg +:+ "." +:+ rest)).
    { change (pkg +:+ "." +:+ rest) with (pkg +:+ String "." rest).
      rewrite IndexFacts.has_byte_app, IndexFacts.has_byte_cons.
      intros [? | [? | ?]]; done. }
    rewrite (IndexFacts.LastIndex_absent "/" _ Hslash).
    assert (String.eqb (pkg +:+ "." +:+ rest) "" = false)
      as -> by (apply String.eqb_neq; by destruct pkg).
    simpl negb. cbv iota.
    assert ((0 <=? -1)%Z = false) as -> by done.
    change (pkg +:+ "." +:+ rest) with (pkg +:+ String "." rest).
    rewrite (IndexFacts.Index_first "." pkg rest H3).
    assert ((0 <=? Z.of_nat (String.length pkg))%Z = true) as ->
      by (apply Z.leb_le; lia).
    replace (Z.to_nat (Z.of_nat (String.length pkg) + 1))
      with (String.length (pkg +:+ "."))
      by (rewrite str_length_app; simpl; lia).
    change (pkg +:+ String "." rest) with (pkg +:+ "." +:+ rest).
    by rewrite <- (str_app_assoc pkg "."), from_app.
  - intros [[Hs Hd] | (pre & t & -> & Hs & Hd)].
    + rewrite (IndexFacts.LastIndex_absent "/" fn Hs).
      rewrite (IndexFacts.Index_absent "." fn Hd).
      destruct (String.eqb_spec fn ""); simpl; done.
    + change (pre +:+ "/" +:+ t) with (pre +:+ String "/" t).
      rewrite (IndexFacts.LastIndex_last "/" pre t Hs).
      assert (String.eqb (pre +:+ String "/" t) "" = false)
        as -> by (apply String.eqb_neq; by destruct pre).
      simpl negb. cbv iota.
      replace (Z.to_nat (Z.of_nat (String.length pre) + 1))
        with (String.length (pre +:+ "/"))
        by (rewrite str_length_app; simpl; lia).
      change (pre +:+ String "/" t) with (pre +:+ "/" +:+ t).
      rewrite <- (str_app_assoc pre "/"), from_app.
      rewrite (IndexFacts.Index_absent "." t Hd).
      assert ((0 <=? Z.of_nat (String.length pre))%Z = true) as ->
        by (apply Z.leb_le; lia).
      assert ((0 <=? -1)%Z = false) as -> by done.
      done.
Qed.

Lemma extractSource_function_name_witness :
  snd (extractSource sample_rt "/home/u/proj" 2) = "(*Type).Method".
Proof.
  apply (proj1 (extractSource_function_name sample_rt "/home/u/proj" 2)
               "github.com/user/repo" "pkg" "(*Type).Method").
  - reflexivity.
  - apply no_byte_by_Index. reflexivity.
  - apply no_byte_by_Index. reflexivity.
  - apply no_byte_by_Index. reflexivity.
Defined.

(** ** The package-level functions of [logfilter.go] *)

Lemma New_unfold (rt : Runtime) (p : Package) (opts : list Option) (now : Time) :
  let o := resolveOptions rt opts in
  let sink := if String.eqb (opt_format o) "text"
              then NewTextHandler (opt_output o)
              else NewJSONHandler (opt_output o) in
  let w2 := fst (NewHandler rt (SetLevel (world p) (defaultLevel p) (opt_level o))
                   sink (defaultLevel p)) in
  let h := length (handlers (world p)) in
  fst (Logfilter.New rt p opts now)
  = mkPackage (if (0 <? length (opt_filters o))%nat
               then SetFilters w2 h (opt_filters o) now else w2)
              (Some h) (defaultLevel p)
  ∧ snd (Logfilter.New rt p opts now) = h.
Proof. done. Qed.

Lemma Package_ok_initial (rt : Runtime) : Package_ok rt initial_package.
Proof.
  split; [apply reach_start |]. split; [done |]. simpl. lia.
Qed.

(** [SetFilters] installs a slice that is full. *)
Lemma SetFilters_header (w : World) (h : nat) (L : list LogFilter) (t : Time) :
  (h < length (handlers w))%nat →
  filters (deref (SetFilters w h L t) h)
  = mkSlice (length (filterArrays w)) (length L) (length L).
Proof.
  intros Hh. unfold SetFilters, make_from, updateLowestLevel.
  destruct (fold_left _ _ _) as [lo hs].
  rewrite deref_store
    by (unfold set_filters; by rewrite length_handlers_store).
  simpl. unfold set_filters. by rewrite deref_store.
Qed.

(** The world [New] leaves, piece by piece. *)
Lemma New_world (rt : Runtime) (p : Package) (opts : list Option) (now : Time) :
  Package_ok rt p →
  let o := resolveOptions rt opts in
  let w' := world (fst (Logfilter.New rt p opts now)) in
  let h := length (handlers (world p)) in
  Reachable rt w'
  ∧ length (handlers w') = S h
  ∧ levelVars w' = <[defaultLevel p := opt_level o]> (levelVars (world p))
  ∧ filtersOf w' h = opt_filters o
  ∧ globalLevel (deref w' h) = defaultLevel p
  ∧ inner (deref w' h)
    = (if String.eqb (opt_format o) "text"
       then NewTextHandler (opt_output o) else NewJSONHandler (opt_output o))
  ∧ ¬ (len (filters (deref w' h)) < cap (filters (deref w' h)))%nat
  ∧ (∀ k, (k < h)%nat →
        deref w' k = deref (world p) k
        ∧ filtersOf w' k = filtersOf (world p) k)
  ∧ attrArrays w' = attrArrays (world p)
  ∧ contextExtractors w' = contextExtractors (world p)
  ∧ (cap (filters (deref w' h)) = 0%nat
     ∨ base (filters (deref w' h)) = length (filterArrays (world p))).
Proof.
  intros (Hr & Hdef & Hlv) o w' h.
  destruct (New_unfold rt p opts now) as [E _]. subst w'. rewrite E. clear E.
  cbv zeta. fold o h. cbn [world].
  set (sink := if String.eqb (opt_format o) "text"
               then NewTextHandler (opt_output o)
               else NewJSONHandler (opt_output o)).
  set (w1 := SetLevel (world p) (defaultLevel p) (opt_level o)).
  set (w2 := fst (NewHandler rt w1 sink (defaultLevel p))).
  assert (Hr2 : Reachable rt w2).
  { apply reach_NewHandler. by apply reach_SetLevel. }
  assert (Hlen2 : length (handlers w2) = S h).
  { subst w2 w1 h. simpl. rewrite length_app. simpl. lia. }
  assert (Hd2 : deref w2 h
                = mkHandler sink (defaultLevel p) nil_slice (LevelError + 1)
                    false nil_slice
                    (match filepath_Abs_dot rt with
                     | Some cwd => cwd | None => "" end)).
  { subst w2 h. unfold NewHandler. simpl. apply (deref_app_new w1). }
  assert (Hold2 : ∀ k, (k < h)%nat → deref w2 k = deref (world p) k).
  { intros k Hk. subst w2. unfold NewHandler. simpl.
    by rewrite (deref_app_old w1). }
  destruct (Nat.ltb_spec 0 (length (opt_filters o))) as [Hpos | Hzero].
  - destruct (SetFilters_state w2 h (opt_filters o) now ltac:(lia))
      as (Hf & Hi & Hg & Hp & Hwd & Hl & Ha & Hc).
    split; [apply (reach_mutate rt w2 h (DoSetFilters (opt_filters o)) now);
            [done | lia] |].
    split.
    { change (SetFilters w2 h (opt_filters o) now)
        with (mutate rt w2 h (DoSetFilters (opt_filters o)) now).
      by rewrite length_handlers_mutate. }
    split; [by rewrite Hl |]. split; [done |].
    split; [by rewrite Hg, Hd2 |]. split; [by rewrite Hi, Hd2 |].
    split.
    { rewrite SetFilters_header by lia. simpl. lia. }
    split; [| split; [by rewrite Ha | split; [by rewrite Hc |]];
              right; by rewrite SetFilters_header by lia].
    intros k Hk.
    destruct (mutate_other rt w2 h k (DoSetFilters (opt_filters o)) now
                (Reachable_ok rt w2 Hr2) ltac:(lia) ltac:(lia) ltac:(done))
      as [Hd Hfl].
    simpl in Hd, Hfl. rewrite Hd, Hfl. split; [by apply Hold2 |].
    unfold filtersOf. by rewrite Hold2.
  - split; [done |]. split; [done |]. split; [done |].
    split.
    { unfold filtersOf. rewrite Hd2. simpl.
      destruct (opt_filters o); [done | simpl in Hzero; lia]. }
    split; [by rewrite Hd2 |]. split; [by rewrite Hd2 |].
    split; [rewrite Hd2; simpl; lia |].
    split; [| split; [done | split; [done |]]; left; by rewrite Hd2].
    intros k Hk. split; [by apply Hold2 |].
    unfold filtersOf. by rewrite Hold2.
Qed.

Lemma Package_ok_New (rt : Runtime) (p : Package) (opts : list Option)
    (now : Time) :
  Package_ok rt p → Package_ok rt (fst (Logfilter.New rt p opts now)).
Proof.
  intros Hp.
  destruct (New_world rt p opts now Hp) as (Hr & Hlen & Hl & _ & Hg & _).
  pose proof Hp as (_ & _ & Hlv).
  destruct (New_unfold rt p opts now) as [E _].
  assert (Hh : defaultHandler (fst (Logfilter.New rt p opts now))
               = Some (length (handlers (world p)))) by (by rewrite E).
  assert (Hd : defaultLevel (fst (Logfilter.New rt p opts now))
               = defaultLevel p) by (by rewrite E).
  split; [done |]. split.
  - intros h. rewrite Hh, Hd. intros [= <-]. split; [lia | done].
  - rewrite Hd, Hl, length_insert. done.
Qed.

Lemma global_Some (rt : Runtime) (p : Package) (h : nat) (m : Mutation)
    (now : Time) :
  defaultHandler p = Some h →
  global rt p m now
  = mkPackage (mutate rt (world p) h m now) (Some h) (defaultLevel p).
Proof.
  intros E. destruct m; simpl;
    unfold Logfilter.SetFilters, Logfilter.AddFilter, Logfilter.RemoveFilter,
      Logfilter.ClearFilters; by rewrite E.
Qed.

Lemma global_None (rt : Runtime) (p : Package) (m : Mutation) (now : Time) :
  defaultHandler p = None → global rt p m now = p.
Proof.
  intros E. destruct m; simpl;
    unfold Logfilter.SetFilters, Logfilter.AddFilter, Logfilter.RemoveFilter,
      Logfilter.ClearFilters; by rewrite E.
Qed.

Lemma Package_ok_global (rt : Runtime) (p : Package) (m : Mutation)
    (now : Time) :
  Package_ok rt p → Package_ok rt (global rt p m now).
Proof.
  intros Hp. destruct (defaultHandler p) as [h|] eqn:E;
    [| by rewrite global_None].
  rewrite (global_Some rt p h m now E).
  destruct Hp as (Hr & Hdef & Hlv). destruct (Hdef h E) as [Hh Hg].
  destruct (mutate_frame rt (world p) h m now Hh) as (_ & Hg' & _).
  destruct (mutate_world_frame rt (world p) h m now) as (Hl & _).
  split; [by apply reach_mutate |]. simpl. split.
  - intros h' [= <-]. rewrite length_handlers_mutate. split; [done |].
    by rewrite Hg'.
  - by rewrite Hl.
Qed.

(** A field of the options after all of them are applied: the value of
    the last option that sets it. *)
Lemma resolve_last {A} (g : options → A) (sel : Option → option A) :
  (∀ st o, g (applyOption st o) = default (g st) (sel o)) →
  ∀ opts st v, last_of sel (g st) opts v →
    g (fold_left applyOption opts st) = v.
Proof.
  intros Hstep.
  assert (Hkeep : ∀ post st, Forall (λ o, sel o = None) post →
            g (fold_left applyOption post st) = g st).
  { induction post as [|o post IH]; intros st Hp; simpl; [done |].
    apply Forall_cons in Hp as [Ho Hp]. rewrite IH by done.
    by rewrite Hstep, Ho. }
  intros opts st v [(pre & o & post & -> & Ho & Hp) | [Hp ->]].
  - rewrite fold_left_app. simpl. rewrite Hkeep by done.
    by rewrite Hstep, Ho.
  - by apply Hkeep.
Qed.

Lemma resolveOptions_last (rt : Runtime) (opts : list Option) :
  (∀ l, last_of level_of LevelInfo opts l →
        opt_level (resolveOptions rt opts) = l)
  ∧ (∀ fs, last_of filters_of [] opts fs →
        opt_filters (resolveOptions rt opts) = fs)
  ∧ (∀ fmt, last_of format_of "json" opts fmt →
        opt_format (resolveOptions rt opts) = fmt)
  ∧ (∀ out, last_of output_of 0%nat opts out →
        opt_output (resolveOptions rt opts) = out).
Proof.
  unfold resolveOptions.
  split; [| split; [| split]]; intros v Hv;
    (apply (resolve_last _ _) with (2 := Hv) || idtac);
    try (intros st []; reflexivity).
Qed.

(** X16. What [New] sets up: a fresh handler becomes the default handler
    and the handler of the returned logger; the package level is the
    level of the options and the default handler holds the filters of the
    options (with no option: Info and no rule; of several [WithLevel] or
    [WithFilters], the last); the sink is the text handler for the format
    "text" and the JSON handler for every other format; handlers made
    before keep their rules.  Each of level, filters, format and output is
    what the last option that sets it gives, whatever the options around
    it, and the default where no option sets it. *)
Theorem New_installs_default (rt : Runtime) (p : Package)
    (opts : list Option) (now : Time) :
  Package_ok rt p →
  let o := resolveOptions rt opts in
  let p' := fst (Logfilter.New rt p opts now) in
  let h := snd (Logfilter.New rt p opts now) in
  Package_ok rt p'
  ∧ Logfilter.GetHandler p' = Some h ∧ h = length (handlers (world p))
  ∧ Logfilter.GetLevel p' = opt_level o
  ∧ Logfilter.GetFilters p' = opt_filters o
  ∧ globalLevelOf (world p') h = opt_level o
  ∧ inner (deref (world p') h)
    = (if String.eqb (opt_format o) "text"
       then NewTextHandler (opt_output o) else NewJSONHandler (opt_output o))
  ∧ (∀ k, (k < length (handlers (world p)))%nat →
        GetFilters (world p') k = GetFilters (world p) k)
  ∧ opt_level (resolveOptions rt []) = LevelInfo
  ∧ opt_filters (resolveOptions rt []) = []
  ∧ (∀ l, opt_level (resolveOptions rt (opts ++ [WithLevel l])) = l)
  ∧ (∀ fs, opt_filters (resolveOptions rt (opts ++ [WithFilters fs])) = fs)
  ∧ (∀ l, last_of level_of LevelInfo opts l →
        Logfilter.GetLevel p' = l ∧ globalLevelOf (world p') h = l)
  ∧ (∀ fs, last_of filters_of [] opts fs → Logfilter.GetFilters p' = fs)
  ∧ (∀ fmt out,
        last_of format_of "json" opts fmt → last_of output_of 0%nat opts out →
        inner (deref (world p') h)
        = (if String.eqb fmt "text"
           then NewTextHandler out else NewJSONHandler out)).
Proof.
  intros Hp o p' h.
  destruct (New_world rt p opts now Hp)
    as (Hr & Hlen & Hl & Hf & Hg & Hi & _ & Hold & _).
  pose proof Hp as (_ & _ & Hlv).
  destruct (New_unfold rt p opts now) as [E Eh].
  fold p' o in Hr, Hlen, Hl, Hf, Hg, Hi, Hold, E. fold h in Eh.
  assert (Hh : defaultHandler p' = Some h) by (by rewrite E, Eh).
  assert (Hd : defaultLevel p' = defaultLevel p) by (by rewrite E).
  assert (Hlevel : default 0 (levelVars (world p') !! defaultLevel p)
                   = opt_level o).
  { rewrite Hl, list_lookup_insert_eq by done. done. }
  split; [by apply Package_ok_New |]. split; [done |]. split; [done |].
  split; [unfold Logfilter.GetLevel; by rewrite Hd |].
  split; [unfold Logfilter.GetFilters, GetFilters; by rewrite Hh, Eh |].
  split; [unfold globalLevelOf; by rewrite Eh, Hg |].
  split; [by rewrite Eh |].
  split; [intros k Hk; by apply Hold |].
  split; [done |]. split; [done |].
  destruct (resolveOptions_last rt opts) as (Rl & Rf & Rfmt & Rout).
  fold o in Rl, Rf, Rfmt, Rout.
  split; [intros x; unfold resolveOptions; by rewrite fold_left_app |].
  split; [intros x; unfold resolveOptions; by rewrite fold_left_app |].
  split; [| split].
  - intros l Hlast. rewrite <- (Rl l Hlast). split.
    + unfold Logfilter.GetLevel. by rewrite Hd.
    + unfold globalLevelOf. by rewrite Eh, Hg.
  - intros fs Hfs. rewrite <- (Rf fs Hfs).
    unfold Logfilter.GetFilters, GetFilters. by rewrite Hh, Eh.
  - intros fmt out Hfmt Hout.
    rewrite <- (Rfmt fmt Hfmt), <- (Rout out Hout). by rewrite Eh.
Qed.

Lemma New_installs_default_witness :
  Logfilter.GetFilters
    (fst (Logfilter.New sample_rt initial_package
            [WithFilters [rule_any]; WithLevel LevelWarn; WithFormat "text";
             WithFilters [rule_first]; WithSource false] 10))
  = [rule_first].
Proof.
  apply (New_installs_default sample_rt initial_package
           [WithFilters [rule_any]; WithLevel LevelWarn; WithFormat "text";
            WithFilters [rule_first]; WithSource false] 10
           ltac:(split; [apply reach_start | split; [done | simpl; lia]])).
  left. exists [WithFilters [rule_any]; WithLevel LevelWarn; WithFormat "text"],
          (WithFilters [rule_first]), [WithSource false].
  split; [reflexivity |]. split; [reflexivity |].
  apply Forall_cons. split; [reflexivity | apply Forall_nil_2].
Defined.

(** X17. The global filter functions act on the default handler and on
    nothing else: before any [New] they do nothing and [GetFilters] returns
    nil, so filters given then are lost; after it they leave the list the
    handler's own method leaves, which [GetFilters] returns; the level is
    not touched. *)
Theorem global_filter_functions (rt : Runtime) (p : Package) (m : Mutation)
    (now : Time) :
  Package_ok rt p →
  (Logfilter.GetHandler p = None →
     global rt p m now = p ∧ Logfilter.GetFilters p = [])
  ∧ (∀ h, Logfilter.GetHandler p = Some h →
       Logfilter.GetFilters (global rt p m now)
       = filters_after m (Logfilter.GetFilters p)
       ∧ Logfilter.GetHandler (global rt p m now) = Some h
       ∧ GetFilters (world (global rt p m now)) h
         = Logfilter.GetFilters (global rt p m now))
  ∧ Logfilter.GetLevel (global rt p m now) = Logfilter.GetLevel p
  ∧ Package_ok rt (global rt p m now).
Proof.
  intros Hp. unfold Logfilter.GetHandler.
  split; [| split; [| split]].
  - intros E. split; [by apply global_None |].
    unfold Logfilter.GetFilters. by rewrite E.
  - intros h E. rewrite (global_Some rt p h m now E).
    destruct Hp as (Hr & Hdef & _). destruct (Hdef h E) as [Hh _].
    destruct (mutate_ok rt (world p) h m now (Reachable_ok rt _ Hr) Hh)
      as [_ Hlist].
    unfold Logfilter.GetFilters, GetFilters. simpl. by rewrite E.
  - destruct (defaultHandler p) as [h|] eqn:E; [| by rewrite global_None].
    rewrite (global_Some rt p h m now E). unfold Logfilter.GetLevel. simpl.
    by destruct (mutate_world_frame rt (world p) h m now) as (-> & _).
  - by apply Package_ok_global.
Qed.

Lemma global_filter_functions_witness :
  Logfilter.GetFilters (Logfilter.AddFilter sample_rt sample_package rule_any 12)
  = [rule_first; rule_any].
Proof.
  pose proof (global_filter_functions sample_rt sample_package
                (DoAddFilter rule_any) 12
                ltac:(apply Package_ok_New; apply Package_ok_initial))
    as (_ & H & _).
  exact (proj1 (H 0%nat eq_refl)).
Defined.

Lemma Package_ok_SetLevel (rt : Runtime) (p : Package) (level : slog_Level) :
  Package_ok rt p → Package_ok rt (Logfilter.SetLevel p level).
Proof.
  intros (Hr & Hdef & Hlv). split; [by apply reach_SetLevel |]. split.
  - intros h E. by apply Hdef.
  - simpl. by rewrite length_insert.
Qed.

(** The slice header a mutating operation installs: an empty one, one on
    a fresh array, or the old one grown in place. *)
Lemma mutate_header (rt : Runtime) (w : World) (h : nat) (m : Mutation)
    (now : Time) :
  (h < length (handlers w))%nat →
  let s := filters (deref w h) in
  let s' := filters (deref (mutate rt w h m now) h) in
  cap s' = 0%nat ∨ base s' = length (filterArrays w)
  ∨ (base s' = base s ∧ (0 < cap s)%nat).
Proof.
  intros Hh.
  assert (Hi : ∀ arrays s',
    filters (deref (updateLowestLevel
                      (set_filters (with_filterArrays w arrays) h s') h now) h)
    = s').
  { intros arrays s'. unfold updateLowestLevel.
    destruct (fold_left _ _ _) as [lo hs].
    rewrite deref_store
      by (unfold set_filters; by rewrite length_handlers_store).
    simpl. unfold set_filters. by rewrite deref_store. }
  destruct m as [fs | f | t p |]; cbn [mutate]; cbv zeta.
  - right; left. unfold SetFilters, make_from. by rewrite Hi.
  - unfold AddFilter, append.
    destruct (Nat.leb_spec (len (filters (deref w h)) + length [f])
                (cap (filters (deref w h)))) as [Hfit | Hfit].
    + right; right. rewrite Hi. simpl in *. split; [done | lia].
    + right; left. unfold make_from. by rewrite Hi.
  - right; left. unfold RemoveFilter, make_from. by rewrite Hi.
  - left. unfold ClearFilters. by rewrite deref_store.
Qed.

Lemma apart_not_writes_into (w : World) (k h : nat) :
  apart w k h → ¬ writes_into w k h.
Proof. intros [? | [? | ?]] (? & ? & ?); lia. Qed.

Lemma detached_step (rt : Runtime) (p0 : Package) (h1 : nat) (q : Package)
    (op : PackageOp) :
  detached rt p0 h1 q → detached rt p0 h1 (apply_op rt q op).
Proof.
  intros (Hq & (h2 & E2 & Hne & Hap) & Hlv & Hh1 & Hd & Hf & Ha & Hc & Hl).
  pose proof Hq as (Hr & Hdef & Hlen). destruct (Hdef h2 E2) as [Hh2 _].
  pose proof (Reachable_ok rt _ Hr) as Hw.
  destruct op as [m now | level]; cbn [apply_op].
  - destruct (mutate_other rt (world q) h2 h1 m now Hw Hh1 Hne
                (λ f _, apart_not_writes_into _ _ _ Hap)) as [Hd' Hf'].
    destruct (mutate_world_frame rt (world q) h2 m now) as (Hl' & Ha' & Hc').
    pose proof (mutate_header rt (world q) h2 m now Hh2) as Hhd.
    pose proof (Package_ok_global rt q m now Hq) as Hq'.
    rewrite (global_Some rt q h2 m now E2) in *. unfold detached.
    cbn [world defaultHandler defaultLevel] in *.
    assert (HG : Logfilter.GetLevel
                   (mkPackage (mutate rt (world q) h2 m now) (Some h2)
                      (defaultLevel q)) = Logfilter.GetLevel q).
    { unfold Logfilter.GetLevel. simpl. by rewrite Hl'. }
    split; [done |]. split.
    { exists h2. split; [done |]. split; [done |].
      unfold apart in *. rewrite Hd'.
      destruct (Hw h1 _ (lookup_deref _ h1 Hh1)) as [[[H0 _] | (arr & Harr & _)] _];
        [by left |].
      apply lookup_lt_Some in Harr.
      cbv zeta in Hhd. destruct Hhd as [? | [Hb | [Hb Hcap]]].
      - right; by left.
      - right; right. rewrite Hb. lia.
      - destruct Hap as [? | [? | ?]]; [by left | lia |].
        right; right. by rewrite Hb. }
    split; [done |]. split; [by rewrite length_handlers_mutate |].
    split; [by rewrite Hd' |]. split; [by rewrite Hf' |].
    split; [by rewrite Ha' |]. split; [by rewrite Hc' |].
    by rewrite HG, Hl'.
  - split; [by apply Package_ok_SetLevel |]. split.
    { exists h2. done. }
    split; [done |]. split; [done |]. split; [done |]. split; [done |].
    split; [done |]. split; [done |].
    unfold Logfilter.GetLevel, Logfilter.SetLevel. simpl.
    rewrite list_lookup_insert_eq by done. simpl.
    rewrite Hl, <- Hlv. apply list_insert_insert_eq.
Qed.

Lemma detached_run (rt : Runtime) (p0 : Package) (h1 : nat)
    (ops : list PackageOp) (q : Package) :
  detached rt p0 h1 q → detached rt p0 h1 (run_ops rt q ops).
Proof.
  revert q. induction ops as [|op ops IH]; intros q Hq; [done |].
  simpl. apply IH. by apply detached_step.
Qed.

(** X18. A second [New] replaces the default handler, for good: whatever
    package-level [SetFilters], [AddFilter], [RemoveFilter], [ClearFilters]
    and [SetLevel] follow, in any number and order, the handler of the
    first logger is not the default handler, has the fields and lists the
    rules it had before the second [New], and decides as it did then at the
    package's current level, which it still reads. *)
Theorem New_again_detaches_first (rt : Runtime) (p : Package) (h1 : nat)
    (opts : list Option) (now : Time) :
  Package_ok rt p → Logfilter.GetHandler p = Some h1 →
  let p' := fst (Logfilter.New rt p opts now) in
  Logfilter.GetHandler p' ≠ Some h1
  ∧ GetFilters (world p') h1 = GetFilters (world p) h1
  ∧ globalLevelOf (world p') h1 = opt_level (resolveOptions rt opts)
  ∧ (∀ m t, GetFilters (world (global rt p' m t)) h1 = GetFilters (world p) h1)
  ∧ (∀ ops,
       let q := run_ops rt p' ops in
       Logfilter.GetHandler q ≠ Some h1
       ∧ deref (world q) h1 = deref (world p) h1
       ∧ GetFilters (world q) h1 = GetFilters (world p) h1
       ∧ globalLevelOf (world q) h1 = Logfilter.GetLevel q
       ∧ (∀ ctx level,
            Handler_Enabled (world q) h1 ctx level
            = Handler_Enabled
                (SetLevel (world p) (defaultLevel p) (Logfilter.GetLevel q))
                h1 ctx level)
       ∧ (∀ ctx r t,
            Handle rt (world q) h1 ctx r t
            = Handle rt
                (SetLevel (world p) (defaultLevel p) (Logfilter.GetLevel q))
                h1 ctx r t)).
Proof.
  intros Hp E p'. unfold Logfilter.GetHandler in E.
  destruct (New_world rt p opts now Hp)
    as (Hr & Hlen & Hl & _ & _ & _ & Hfull & Hold & Ha & Hc & Hbase).
  pose proof Hp as (Hrp & Hdef & Hlv). destruct (Hdef h1 E) as [Hh1 Hg1].
  destruct (New_unfold rt p opts now) as [Ep _].
  fold p' in Hr, Hlen, Hl, Hfull, Hold, Ha, Hc, Hbase, Ep.
  assert (Hh : defaultHandler p' = Some (length (handlers (world p))))
    by (by rewrite Ep).
  assert (Hdl : defaultLevel p' = defaultLevel p) by (by rewrite Ep).
  destruct (Hold h1 Hh1) as [Hd Hf].
  assert (Hdet : detached rt p h1 p').
  { split; [by apply Package_ok_New |]. split.
    { exists (length (handlers (world p))). split; [done |].
      split; [lia |]. unfold apart. rewrite Hd.
      destruct (Reachable_ok rt _ Hrp h1 _ (lookup_deref _ h1 Hh1))
        as [[[H0 _] | (arr & Harr & _)] _]; [by left |].
      apply lookup_lt_Some in Harr.
      destruct Hbase as [? | Hb]; [right; by left |].
      right; right. rewrite Hb. lia. }
    split; [done |]. split; [lia |]. split; [done |]. split; [done |].
    split; [done |]. split; [done |].
    unfold Logfilter.GetLevel. rewrite Hdl, Hl.
    rewrite list_lookup_insert_eq by done. done. }
  split; [| split; [| split; [| split]]].
  - unfold Logfilter.GetHandler. rewrite Hh. intros [= ?]. lia.
  - done.
  - unfold globalLevelOf. rewrite Hd, Hg1, Hl.
    by rewrite list_lookup_insert_eq.
  - intros m t. rewrite (global_Some rt p' _ m t Hh). cbn [world].
    destruct (mutate_other rt (world p') (length (handlers (world p))) h1 m t
                (Reachable_ok rt _ Hr) ltac:(lia) ltac:(lia)) as [_ Hsame].
    + intros f _ (_ & _ & Hcap). by apply Hfull.
    + unfold GetFilters. by rewrite Hsame.
  - intros ops q.
    destruct (detached_run rt p h1 ops p' Hdet)
      as (Hq & (h2 & E2 & Hne & _) & Hlvq & Hh1q & Hdq & Hfq & Haq & Hcq & Hlq).
    fold q in Hq, E2, Hlvq, Hh1q, Hdq, Hfq, Haq, Hcq, Hlq.
    assert (Hsame : ∀ ctx r t,
              Handle rt (world q) h1 ctx r t
              = Handle rt
                  (SetLevel (world p) (defaultLevel p) (Logfilter.GetLevel q))
                  h1 ctx r t).
    { intros ctx r t. by apply Handle_same. }
    split; [unfold Logfilter.GetHandler; rewrite E2; by intros [= ?] |].
    split; [done |]. split; [done |].
    split.
    { unfold globalLevelOf. rewrite Hdq, Hg1, Hlq.
      rewrite list_lookup_insert_eq by done. done. }
    split; [| done].
    intros ctx level. unfold Handler_Enabled, globalLevelOf.
    rewrite Hdq, Hlq. done.
Qed.

Lemma New_again_detaches_first_witness :
  GetFilters
    (world (run_ops sample_rt sample_package_again
              [FilterOp (DoAddFilter rule_any) 12; LevelOp LevelError;
               FilterOp (DoRemoveFilter "job_id" "job_*") 13;
               FilterOp (DoAddFilter rule_user) 14])) 0
  = GetFilters (world sample_package) 0.
Proof.
  apply (New_again_detaches_first sample_rt sample_package 0 [] 11
           ltac:(apply Package_ok_New; apply Package_ok_initial) eq_refl).
Defined.

(** X19. The package level decides only where no rule wins: after
    [SetLevel] the level reads back, the filters are as they were, every
    record is won by the rule that won it before, a record a rule wins is
    treated as before, and a record no rule wins is forwarded, unchanged,
    exactly when its level is at least the new level. *)
Theorem SetLevel_moves_threshold_only (rt : Runtime) (p : Package) (h : nat)
    (level : slog_Level) :
  Package_ok rt p → Logfilter.GetHandler p = Some h →
  let p' := Logfilter.SetLevel p level in
  Logfilter.GetLevel p' = level
  ∧ Logfilter.GetFilters p' = Logfilter.GetFilters p
  ∧ (∀ ctx r t,
       matchedFilter rt (world p') h ctx r t = matchedFilter rt (world p) h ctx r t
       ∧ (matchedFilter rt (world p) h ctx r t ≠ None →
          Handle rt (world p') h ctx r t = Handle rt (world p) h ctx r t)
       ∧ (matchedFilter rt (world p) h ctx r t = None →
          Handle rt (world p') h ctx r t
          = if r_Level r <? level then Suppress
            else Forward (inner (deref (world p) h)) ctx r)).
Proof.
  intros (Hr & Hdef & Hlv) E p'. unfold Logfilter.GetHandler in E.
  destruct (Hdef h E) as [Hh Hg].
  assert (Hlevel : globalLevelOf (world p') h = level).
  { unfold globalLevelOf. subst p'. simpl.
    change (deref _ h) with (deref (world p) h).
    by rewrite Hg, list_lookup_insert_eq. }
  split.
  { unfold Logfilter.GetLevel. subst p'. simpl.
    by rewrite list_lookup_insert_eq. }
  split; [done |].
  intros ctx r t.
  assert (Hm : matchedFilter rt (world p') h ctx r t
               = matchedFilter rt (world p) h ctx r t) by done.
  split; [done |]. rewrite !Handle_unfold, Hm, Hlevel.
  change (deref (world p') h) with (deref (world p) h).
  split.
  - intros Hsome. by destruct (matchedFilter rt (world p) h ctx r t) as [[i f]|].
  - by intros ->.
Qed.

Lemma SetLevel_moves_threshold_only_witness :
  Logfilter.GetLevel (Logfilter.SetLevel sample_package LevelError) = LevelError.
Proof.
  apply (SetLevel_moves_threshold_only sample_rt sample_package 0 LevelError).
  - apply Package_ok_New. apply Package_ok_initial.
  - reflexivity.
Defined.
